(** * A shallow embedding of [main.py] (arXiv daily harvester)

    The pipeline of [main.py] is embedded function by function:
    [Translater.translate], [get_daily_papers], [update_paper_links],
    [update_json_file], [sort_papers], [pretty_math], [json_to_md] and
    [demo].  Python strings are lists of characters, Python dicts are
    insertion-ordered association lists, and the effects of the program
    (network calls, sleeps, log lines, files, mutation of shared dict
    objects) are threaded through an explicit state with exceptions. *)

From Stdlib Require Import String Ascii ZArith Lia Bool Arith List.
From Stdlib Require Import Sorted Permutation.
Import ListNotations.

Local Open Scope list_scope.

(** ** Python [str] *)

Module PyStr.

(** A Python string is a sequence of characters; a character is modelled
    by an [ascii] (a code point below 256). *)
Definition str := list ascii.

Definition lit (s : string) : str := list_ascii_of_string s.
Arguments lit s%_string.

Definition NL : ascii := ascii_of_nat 10.

Fixpoint eqb (a b : str) : bool :=
  match a, b with
  | [], [] => true
  | x :: a', y :: b' => Ascii.eqb x y && eqb a' b'
  | _, _ => false
  end.

(** [s.startswith(p)] *)
Fixpoint startswith (p s : str) : bool :=
  match p, s with
  | [], _ => true
  | x :: p', y :: s' => Ascii.eqb x y && startswith p' s'
  | _ :: _, [] => false
  end.

(** [s.find(sub)]: index of the first occurrence, [-1] when there is none. *)
Fixpoint find_from (sub s : str) (i : Z) : Z :=
  if startswith sub s then i
  else match s with
       | [] => (-1)%Z
       | _ :: s' => find_from sub s' (i + 1)%Z
       end.

Definition find (sub s : str) : Z := find_from sub s 0%Z.

(** [sub in s] *)
Fixpoint contains (sub s : str) : bool :=
  startswith sub s ||
  match s with
  | [] => false
  | _ :: s' => contains sub s'
  end.

(** [s[:n]] and [s[n:]] for [0 <= n]. *)
Definition slice_to (n : nat) (s : str) : str := firstn n s.
Definition slice_from (n : nat) (s : str) : str := skipn n s.

(** [s.split(sep)] for a one-character separator. *)
Fixpoint split (sep : ascii) (s : str) : list str :=
  match s with
  | [] => [[]]
  | c :: s' =>
      if Ascii.eqb c sep then [] :: split sep s'
      else match split sep s' with
           | p :: ps => (c :: p) :: ps
           | [] => [[c]]
           end
  end.

(** [str.isspace] on one character, for code points below 256. *)
Definition is_space (c : ascii) : bool :=
  let n := nat_of_ascii c in
  ((9 <=? n) && (n <=? 13)) || ((28 <=? n) && (n <=? 32))
  || (n =? 133) || (n =? 160).

Fixpoint lstrip (s : str) : str :=
  match s with
  | [] => []
  | c :: s' => if is_space c then lstrip s' else s
  end.

Definition rstrip (s : str) : str := rev (lstrip (rev s)).

(** [s.strip()] *)
Definition strip (s : str) : str := lstrip (rstrip s).

(** [s.replace(old, new)] for a non-empty [old]: occurrences are replaced
    from left to right and do not overlap.  [skip] counts the characters
    of a matched occurrence that are still to be dropped. *)
Fixpoint replace_go (old new : str) (skip : nat) (s : str) : str :=
  match s with
  | [] => []
  | c :: s' =>
      match skip with
      | S k => replace_go old new k s'
      | O =>
          if startswith old s
          then new ++ replace_go old new (length old - 1) s'
          else c :: replace_go old new 0 s'
      end
  end.

Definition replace (old new s : str) : str := replace_go old new 0 s.

(** [s.replace(a, b)] for one-character [a] and [b]. *)
Definition replace_char (a b : ascii) (s : str) : str :=
  map (fun c => if Ascii.eqb c a then b else c) s.

(** [s.replace(a, "")] for a one-character [a]. *)
Definition remove_char (a : ascii) (s : str) : str :=
  filter (fun c => negb (Ascii.eqb c a)) s.

(** [s.lower()] for code points below 256. *)
Definition lower_char (c : ascii) : ascii :=
  let n := nat_of_ascii c in
  if ((65 <=? n) && (n <=? 90))
     || ((192 <=? n) && (n <=? 222) && negb (n =? 215))
  then ascii_of_nat (n + 32) else c.

Definition lower (s : str) : str := map lower_char s.

Definition is_digit (c : ascii) : bool :=
  let n := nat_of_ascii c in (48 <=? n) && (n <=? 57).

Definition head_is_digit (s : str) : bool :=
  match s with
  | c :: _ => is_digit c
  | [] => false
  end.

(** [re.sub(r"v\d+", "", s)]: every [v] that is followed by at least one
    digit is removed together with the whole run of digits after it.
    [dropping] is set while the digits of a match are being consumed. *)
Fixpoint re_sub_version_go (dropping : bool) (s : str) : str :=
  match s with
  | [] => []
  | c :: s' =>
      if dropping && is_digit c then re_sub_version_go true s'
      else if Ascii.eqb c "v" && head_is_digit s'
           then re_sub_version_go true s'
           else c :: re_sub_version_go false s'
  end.

Definition re_sub_version (s : str) : str := re_sub_version_go false s.

(** The position just after the last ["$"] of the line that starts at
    [s] (the regex dot does not cross a newline), counted from [i];
    [None] when the rest of the line has no ["$"]. *)
Fixpoint last_dollar_in_line (s : str) (i : nat) : option nat :=
  match s with
  | [] => None
  | c :: s' =>
      if Ascii.eqb c NL then None
      else match last_dollar_in_line s' (S i) with
           | Some j => Some j
           | None => if Ascii.eqb c "$" then Some (S i) else None
           end
  end.

(** [re.search(r"\$.*\$", s).span()]: the leftmost ["$"] that has another
    ["$"] later on the same line opens the match, and the greedy [.*]
    extends it to the last ["$"] of that line. *)
Fixpoint re_search_math_from (s : str) (i : nat) : option (nat * nat) :=
  match s with
  | [] => None
  | c :: s' =>
      if Ascii.eqb c "$" then
        match last_dollar_in_line s' (S i) with
        | Some j => Some (i, j)
        | None => re_search_math_from s' (S i)
        end
      else re_search_math_from s' (S i)
  end.

Definition re_search_math (s : str) : option (nat * nat) :=
  re_search_math_from s 0.

(** Comparison of strings as Python does it: lexicographic on code
    points, a proper prefix being smaller. *)
Fixpoint ltb (a b : str) : bool :=
  match a, b with
  | _, [] => false
  | [], _ :: _ => true
  | x :: a', y :: b' =>
      (nat_of_ascii x <? nat_of_ascii y)
      || ((nat_of_ascii x =? nat_of_ascii y) && ltb a' b')
  end.

Definition leb (a b : str) : bool := negb (ltb b a).

(** [sep.join(l)] *)
Fixpoint join (sep : str) (l : list str) : str :=
  match l with
  | [] => []
  | [x] => x
  | x :: l' => x ++ sep ++ join sep l'
  end.

End PyStr.
Export PyStr.

(** ** Python [dict]

    A dict keeps its keys in insertion order ([json.dump] and every loop
    of the program follow it): it is an association list, searched from
    the front.  A real dict has each key once ([wf]). *)

Module Dict.

Definition dict (V : Type) := list (str * V).

Section Ops.
Context {V : Type}.

(** [d.get(k)] *)
Fixpoint get (d : dict V) (k : str) : option V :=
  match d with
  | [] => None
  | (k', v) :: d' => if eqb k k' then Some v else get d' k
  end.

(** [k in d] *)
Definition mem (d : dict V) (k : str) : bool :=
  match get d k with
  | Some _ => true
  | None => false
  end.

(** [d[k] = v]: an existing key keeps its position, a new key goes last. *)
Fixpoint set (d : dict V) (k : str) (v : V) : dict V :=
  match d with
  | [] => [(k, v)]
  | (k', v') :: d' =>
      if eqb k k' then (k', v) :: d' else (k', v') :: set d' k v
  end.

(** [d.update(other)] *)
Definition update (d other : dict V) : dict V :=
  fold_left (fun acc kv => set acc (fst kv) (snd kv)) other d.

(** [d.keys()], [d.values()] *)
Definition keys (d : dict V) : list str := map fst d.
Definition values (d : dict V) : list V := map snd d.

Fixpoint key_in (k : str) (l : list str) : bool :=
  match l with
  | [] => false
  | x :: l' => eqb k x || key_in k l'
  end.

Fixpoint nodup_keys (l : list str) : bool :=
  match l with
  | [] => true
  | x :: l' => negb (key_in x l') && nodup_keys l'
  end.

(** Every key occurs once. *)
Definition wf (d : dict V) : bool := nodup_keys (keys d).

End Ops.

End Dict.

Abbreviation dict := Dict.dict.

(** ** Data model *)

(** A topic bucket maps a canonical id to the record, the pipe-delimited
    row that goes to the markdown table; a store maps a topic to its
    bucket. *)
Definition bucket := dict str.
Definition Store := dict bucket.

(** What the arXiv client yields for one paper.  The dates are the ISO
    texts ([YYYY-MM-DD]) that formatting [result.updated.date()] and
    [result.published.date()] gives. *)
Record Result := {
  short_id : str;            (* result.get_short_id() *)
  title : str;
  entry_id : str;
  summary : str;
  authors : list str;
  primary_category : str;
  published : str;
  updated : str;
  comment : option str
}.

Inductive exn :=
| FileNotFoundError
| JSONDecodeError
| IndexError
| KeyError
| UnboundLocalError
| RequestError (msg : str)     (* raised by requests.get(...).json() *)
| SearchError (msg : str).     (* raised by the arXiv client *)

(** The JSON answer of the code-link registry, as far as the program
    looks at it. *)
Inductive registry_json :=
| NoOfficial                      (* no "official" entry, or a falsy one *)
| Official (url : option str)     (* r["official"]["url"], None for null *)
| OfficialWithoutUrl.             (* a truthy entry with no "url" key *)

(** A file of the working directory.  [json.loads] and [json.dump] are
    library code: a file holding a JSON document is represented by the
    store it encodes, any other text by the text itself. *)
Inductive file :=
| Absent
| Text (s : str)          (* not a JSON document; [Text []] is the empty file *)
| Json (d : Store).

(** Dict objects that are shared between data structures live in a heap
    and are referred to by address. *)
Definition addr := nat.

Inductive event :=
| EvSearch (query : str) (max_results : nat)
| EvGet (url : str)
| EvGenerate (prompt : str)
| EvSleep (secs : Z)
| EvLogError (e : exn) (id : str).

(** The outside world.  Each service is a function of the number of
    calls made to it before, so that a retry may see another answer. *)
Record World := {
  arxiv_results : nat -> str -> nat -> list Result * option exn;
  registry_get : nat -> str -> exn + registry_json;
  generate_content : nat -> str -> option str;
  today : str
}.

Record state := {
  files : str -> file;
  heap : list bucket;
  trace : list event
}.

Definition is_search (e : event) : bool :=
  match e with EvSearch _ _ => true | _ => false end.
Definition is_get (e : event) : bool :=
  match e with EvGet _ => true | _ => false end.
Definition is_generate (e : event) : bool :=
  match e with EvGenerate _ => true | _ => false end.

Definition count (p : event -> bool) (tr : list event) : nat :=
  length (filter p tr).

Fixpoint slept (tr : list event) : Z :=
  match tr with
  | [] => 0%Z
  | EvSleep n :: tr' => (n + slept tr')%Z
  | _ :: tr' => slept tr'
  end.

(** ** Computations: state and exceptions *)

Inductive outcome (A : Type) :=
| Ret (a : A)
| Raise (e : exn).
Arguments Ret {A} a.
Arguments Raise {A} e.

Definition M (A : Type) := state -> outcome A * state.

Definition ret {A} (a : A) : M A := fun st => (Ret a, st).
Definition raise {A} (e : exn) : M A := fun st => (Raise e, st).

Definition bind {A B} (m : M A) (k : A -> M B) : M B :=
  fun st =>
    match m st with
    | (Ret a, st') => k a st'
    | (Raise e, st') => (Raise e, st')
    end.

(** [try: m except Exception as e: h(e)] *)
Definition try_except {A} (m : M A) (h : exn -> M A) : M A :=
  fun st =>
    match m st with
    | (Ret a, st') => (Ret a, st')
    | (Raise e, st') => h e st'
    end.

Definition lift {A} (o : outcome A) : M A := fun st => (o, st).

Declare Scope py_scope.
Delimit Scope py_scope with py.
Notation "x <- c1 ;; c2" := (bind c1 (fun x => c2))
  (at level 61, c1 at next level, right associativity) : py_scope.
Notation "' pat <- c1 ;; c2" :=
  (bind c1 (fun x => match x with pat => c2 end))
  (at level 61, pat pattern, c1 at next level, right associativity) : py_scope.
Notation "c1 ;; c2" := (bind c1 (fun _ => c2))
  (at level 61, right associativity) : py_scope.
Local Open Scope py_scope.

Definition emit (e : event) : M unit :=
  fun st => (Ret tt, {| files := files st; heap := heap st;
                        trace := trace st ++ [e] |}).

Fixpoint foldM {A B} (f : A -> B -> M A) (l : list B) (a : A) : M A :=
  match l with
  | [] => ret a
  | x :: l' => a' <- f a x ;; foldM f l' a'
  end.

(** *** Files

    Opening a file for writing is taken to succeed: [write_file] and
    [append_file] give the content that a completed write leaves and
    have no failing case, where [open(name, "w")] can raise for a path
    that cannot be written.  What is proved of a function that writes is
    therefore what it writes and what it leaves alone, and what it does
    before it writes; that such a function returns is a statement about
    this model only. *)

Definition set_file (fs : str -> file) (name : str) (f : file) : str -> file :=
  fun n => if eqb n name then f else fs n.

Definition write_file (name : str) (f : file) : M unit :=
  fun st => (Ret tt, {| files := set_file (files st) name f; heap := heap st;
                        trace := trace st |}).

(** [f.write(text)] on a file opened for appending. *)
Definition append_file (name : str) (text : str) : M unit :=
  fun st =>
    let old := match files st name with Text s => s | _ => [] end in
    (Ret tt, {| files := set_file (files st) name (Text (old ++ text));
                heap := heap st; trace := trace st |}).

(** The loading idiom of the three functions that read the store:
    [[
    with open(filename, "r") as f:
        content = f.read()
        if not content:
            m = {}
        else:
            m = json.loads(content)
    ]] *)
Definition read_store (filename : str) : M Store :=
  fun st =>
    match files st filename with
    | Absent => (Raise FileNotFoundError, st)
    | Text [] => (Ret [], st)
    | Text (_ :: _) => (Raise JSONDecodeError, st)
    | Json d => (Ret d, st)
    end.

(** *** The heap of shared dict objects *)

Definition alloc (b : bucket) : M addr :=
  fun st => (Ret (length (heap st)),
             {| files := files st; heap := heap st ++ [b];
                trace := trace st |}).

Definition deref (h : list bucket) (a : addr) : bucket := nth a h [].

Fixpoint heap_set (h : list bucket) (a : addr) (b : bucket) : list bucket :=
  match h, a with
  | [], _ => []
  | _ :: h', O => b :: h'
  | x :: h', S a' => x :: heap_set h' a' b
  end.

(** [target.update(source)] on two dict objects of the heap. *)
Definition heap_update (target source : addr) : M unit :=
  fun st =>
    let h := heap st in
    (Ret tt, {| files := files st;
                heap := heap_set h target
                          (Dict.update (deref h target) (deref h source));
                trace := trace st |}).

Definition deref_store (h : list bucket) (d : dict addr) : Store :=
  map (fun kv => (fst kv, deref h (snd kv))) d.

(** ** The program *)

Definition base_url : str := lit "https://arxiv.paperswithcode.com/api/v0/papers/".
Definition github_url : str := lit "https://api.github.com/search/repositories".
Definition arxiv_url : str := lit "http://arxiv.org/".

Arguments base_url : simpl never.
Arguments github_url : simpl never.
Arguments arxiv_url : simpl never.

Record Translater := { api_key : str }.

Record Config := {
  kv : dict str;                    (* topic -> query *)
  max_results : nat;
  publish_readme : bool;
  publish_gitpage : bool;
  cfg_update_paper_links : bool;
  json_readme_path : str;
  md_readme_path : str;
  json_gitpage_path : str;
  md_gitpage_path : str
}.

Section Program.

Variable w : World.

(** *** External calls *)

(** [time.sleep(secs)] *)
Definition sleep (secs : Z) : M unit := emit (EvSleep secs).

(** [logging.error(f"exception: {e} with id: {id}")] *)
Definition log_error (e : exn) (id : str) : M unit := emit (EvLogError e id).

(** [self.model.generate_content(prompt).text]; [None] when it raises. *)
Definition model_generate (prompt : str) : M (option str) :=
  fun st =>
    let n := count is_generate (trace st) in
    (Ret (generate_content w n prompt),
     {| files := files st; heap := heap st;
        trace := trace st ++ [EvGenerate prompt] |}).

(** [requests.get(url).json()] *)
Definition requests_get_json (url : str) : M registry_json :=
  fun st =>
    let n := count is_get (trace st) in
    let st' := {| files := files st; heap := heap st;
                  trace := trace st ++ [EvGet url] |} in
    match registry_get w n url with
    | inl e => (Raise e, st')
    | inr r => (Ret r, st')
    end.

(** [[
    repo_url = None
    if "official" in r and r["official"]:
        repo_url = r["official"]["url"]
    ]] *)
Definition official_url (r : registry_json) : M (option str) :=
  match r with
  | NoOfficial => ret None
  | Official u => ret u
  | OfficialWithoutUrl => raise KeyError
  end.

(** *** [Translater.translate] *)

Definition NUM_RETRIES : nat := 3.

Definition translate_prompt (text : str) : str :=
  lit "Note output format, here is the abstract to translate:" ++ [NL] ++ text.

Definition return_local (result : option str) : M str :=
  match result with
  | Some r => ret r
  | None => raise UnboundLocalError
  end.

(** The [while retry_count < NUM_RETRIES] loop of [translate], with the
    local variables [retry_count], [retry_seconds] and [result].  Each
    turn that does not leave the loop increments [retry_count], so
    [NUM_RETRIES + 1] turns of [fuel] let the loop run to its end. *)
Fixpoint translate_while (fuel : nat) (text : str) (retry_count : nat)
    (retry_seconds : Z) (result : option str) : M str :=
  match fuel with
  | O => return_local result
  | S fuel' =>
      if retry_count <? NUM_RETRIES then
        r <- model_generate (translate_prompt text) ;;
        match r with
        | Some t =>
            (* result = response.text; break; then the finally clause *)
            return_local
              (if retry_count =? NUM_RETRIES then Some text else Some t)
        | None =>
            sleep retry_seconds ;;
            let retry_count := retry_count + 1 in
            let retry_seconds := (retry_seconds * 2)%Z in
            (* finally *)
            let result :=
              if retry_count =? NUM_RETRIES then Some text else result in
            translate_while fuel' text retry_count retry_seconds result
        end
      else return_local result
  end.

Definition translate (self : Translater) (text : str) : M str :=
  translate_while (S NUM_RETRIES) text 0 1%Z None.

(** *** [get_authors] *)

Definition get_authors (authors : list str) : str :=
  join (lit ", ") authors.

(** [get_authors(authors, first_author=True)], that is [authors[0]]. *)
Definition get_first_author (authors : list str) : M str :=
  match authors with
  | a :: _ => ret a
  | [] => raise IndexError
  end.

(** *** [get_daily_papers] *)

(** The retry loop around [translater.translate] in [get_daily_papers]:
    [paper_abstract] keeps its value when every attempt raises. *)
Fixpoint translate_retry_while (fuel : nat) (translater : Translater)
    (paper_abstract : str) (retry_count : nat) (retry_seconds : Z) : M str :=
  match fuel with
  | O => ret paper_abstract
  | S fuel' =>
      if retry_count <? NUM_RETRIES then
        try_except (translate translater paper_abstract)
          (fun _ =>
             sleep retry_seconds ;;
             translate_retry_while fuel' translater paper_abstract
               (retry_count + 1) (retry_seconds * 2)%Z)
      else ret paper_abstract
  end.

(** [paper_id.find("v")] and the slice that follows it. *)
Definition paper_key_of (paper_id : str) : str :=
  let ver_pos := find (lit "v") paper_id in
  if (ver_pos =? -1)%Z then paper_id
  else slice_to (Z.to_nat ver_pos) paper_id.

Definition row_with_link (update_time paper_title paper_key paper_url
    repo_url paper_abstract : str) : str :=
  lit "|**" ++ update_time ++ lit "**|**" ++ paper_title ++ lit "**|["
  ++ paper_key ++ lit "](" ++ paper_url ++ lit ")|**[link](" ++ repo_url
  ++ lit ")**|**" ++ paper_abstract ++ lit "**|" ++ [NL].

Definition row_without_link (update_time paper_title paper_key paper_url
    paper_abstract : str) : str :=
  lit "|**" ++ update_time ++ lit "**|**" ++ paper_title ++ lit "**|["
  ++ paper_key ++ lit "](" ++ paper_url ++ lit ")|null|**"
  ++ paper_abstract ++ lit "**|" ++ [NL].

Definition web_with_link (update_time paper_title paper_url repo_url
    paper_abstract : str) : str :=
  lit "- " ++ update_time ++ lit ", **" ++ paper_title ++ lit "**, Paper: ["
  ++ paper_url ++ lit "](" ++ paper_url ++ lit "), Code: **[" ++ repo_url
  ++ lit "](" ++ repo_url ++ lit ")**,Abstract: **" ++ paper_abstract
  ++ lit "**".

Definition web_without_link (update_time paper_title paper_url
    paper_abstract : str) : str :=
  lit "- " ++ update_time ++ lit ", **" ++ paper_title ++ lit "**, Paper: ["
  ++ paper_url ++ lit "](" ++ paper_url ++ lit "),**" ++ paper_abstract
  ++ lit "**".

(** The [try] block that ends the body of the loop over the results:
    the registry is asked once, and the two rows are stored under
    [paper_key]; any exception is logged and the two dicts stay as they
    were. *)
Definition record_paper (code_url paper_key paper_url update_time
    paper_title paper_abstract : str) (acc : bucket * bucket)
    : M (bucket * bucket) :=
  let '(content, content_to_web) := acc in
  try_except
    (r <- requests_get_json code_url ;;
     repo_url <- official_url r ;;
     match repo_url with
     | Some repo_url =>
         ret (Dict.set content paper_key
                (row_with_link update_time paper_title paper_key paper_url
                   repo_url paper_abstract),
              Dict.set content_to_web paper_key
                (web_with_link update_time paper_title paper_url repo_url
                   paper_abstract ++ [NL]))
     | None =>
         ret (Dict.set content paper_key
                (row_without_link update_time paper_title paper_key
                   paper_url paper_abstract),
              Dict.set content_to_web paper_key
                (web_without_link update_time paper_title paper_url
                   paper_abstract ++ [NL]))
     end)
    (fun e => log_error e paper_key ;; ret acc).

(** The body of [for result in search_engine.results()]. *)
Definition process_result (translater : option Translater)
    (acc : bucket * bucket) (result : Result) : M (bucket * bucket) :=
  let paper_id := short_id result in
  let paper_title := title result in
  let code_url := base_url ++ paper_id in
  let paper_abstract := replace_char NL " " (summary result) in
  let paper_authors := get_authors (authors result) in
  paper_first_author <- get_first_author (authors result) ;;
  let update_time := updated result in
  paper_abstract <-
    match translater with
    | Some t => translate_retry_while (S NUM_RETRIES) t paper_abstract 0 10%Z
    | None => ret paper_abstract
    end ;;
  let paper_key := paper_key_of paper_id in
  let paper_url := arxiv_url ++ lit "abs/" ++ paper_key in
  record_paper code_url paper_key paper_url update_time paper_title
    paper_abstract acc.

(** Iterating [arxiv.Search(...).results()]: the results that the client
    yields are processed one by one; an error of the client surfaces
    after the results it could still deliver. *)
Definition search_results (query : str) (max_results : nat)
    : M (list Result * option exn) :=
  fun st =>
    let n := count is_search (trace st) in
    (Ret (arxiv_results w n query max_results),
     {| files := files st; heap := heap st;
        trace := trace st ++ [EvSearch query max_results] |}).

(** [get_daily_papers] returns [{topic: content}] and
    [{topic: content_to_web}]; the two inner dicts are objects that the
    caller goes on sharing, so they are returned by address. *)
Definition get_daily_papers (topic query : str) (max_results : nat)
    (translater : option Translater) : M (dict addr * dict addr) :=
  '(results, failure) <- search_results query max_results ;;
  '(content, content_to_web) <-
    foldM (process_result translater) results ([], []) ;;
  match failure with
  | Some e => raise e
  | None =>
      a <- alloc content ;;
      a_web <- alloc content_to_web ;;
      ret ([(topic, a)], [(topic, a_web)])
  end.

(** *** [update_paper_links] *)

Definition obind {A B} (o : outcome A) (k : A -> outcome B) : outcome B :=
  match o with
  | Ret a => k a
  | Raise e => Raise e
  end.

(** [parts[i]] *)
Definition index {A} (l : list A) (i : nat) : outcome A :=
  match nth_error l i with
  | Some x => Ret x
  | None => Raise IndexError
  end.

Definition parse_arxiv_string (s : str) : outcome (str * str * str * str * str) :=
  let parts := split "|" s in
  obind (index parts 1) (fun p1 => let date := strip p1 in
  obind (index parts 2) (fun p2 => let title := strip p2 in
  obind (index parts 3) (fun p3 => let arxiv_id := strip p3 in
  obind (index parts 4) (fun p4 => let code := strip p4 in
  obind (index parts 5) (fun p5 => let abstract := strip p5 in
  let arxiv_id := re_sub_version arxiv_id in
  Ret (date, title, arxiv_id, code, abstract)))))).

(** ["|{}|{}|{}|{}|{}|\n".format(...)] *)
Definition format_row (update_time paper_title paper_url code_url
    abstract : str) : str :=
  lit "|" ++ update_time ++ lit "|" ++ paper_title ++ lit "|" ++ paper_url
  ++ lit "|" ++ code_url ++ lit "|" ++ abstract ++ lit "|" ++ [NL].

Definition link_cell (repo_url : str) : str :=
  lit "|**[link](" ++ repo_url ++ lit ")**|".

(** [json_data[keywords][paper_id] = contents] *)
Definition store_set (json_data : Store) (keywords paper_id contents : str)
    : Store :=
  match Dict.get json_data keywords with
  | Some b => Dict.set json_data keywords (Dict.set b paper_id contents)
  | None => json_data
  end.

(** The body of [for paper_id, contents in v.items()]. *)
Definition repair_step (keywords : str) (json_data : Store)
    (item : str * str) : M Store :=
  let '(paper_id, contents) := item in
  '(update_time, paper_title, paper_url, code_url, abstract) <-
    lift (parse_arxiv_string contents) ;;
  let contents :=
    format_row update_time paper_title paper_url code_url abstract in
  let json_data := store_set json_data keywords paper_id contents in
  let valid_link := negb (contains (lit "|null|") contents) in
  if valid_link then ret json_data
  else
    try_except
      (let code_url := base_url ++ paper_id in
       r <- requests_get_json code_url ;;
       match r with
       | NoOfficial => ret json_data
       | OfficialWithoutUrl => raise KeyError
       | Official None => ret json_data
       | Official (Some repo_url) =>
           let new_cont :=
             replace (lit "|null|") (link_cell repo_url) contents in
           ret (store_set json_data keywords paper_id new_cont)
       end)
      (fun e => log_error e paper_id ;; ret json_data).

(** The body of [for keywords, v in json_data.items()]. *)
Definition repair_bucket (json_data : Store) (item : str * bucket) : M Store :=
  let '(keywords, v) := item in
  foldM (repair_step keywords) v json_data.

Definition update_paper_links (filename : str) : M unit :=
  m <- read_store filename ;;
  let json_data := m in
  json_data <- foldM repair_bucket m json_data ;;
  write_file filename (Json json_data).

(** *** [update_json_file] *)

(** [json.loads] builds one new dict object for every bucket of the
    document. *)
Fixpoint alloc_store (m : Store) : M (dict addr) :=
  match m with
  | [] => ret []
  | (k, b) :: m' =>
      a <- alloc b ;;
      d <- alloc_store m' ;;
      ret ((k, a) :: d)
  end.

(** The body of [for keyword in data.keys()]: a keyword that the store
    has gets its dict object updated in place, a new keyword gets the
    dict object of the batch itself, not a copy. *)
Definition merge_keyword (data : dict addr) (json_data : dict addr)
    (keyword : str) : M (dict addr) :=
  match Dict.get data keyword with
  | None => raise KeyError
  | Some papers =>
      match Dict.get json_data keyword with
      | Some target => heap_update target papers ;; ret json_data
      | None => ret (Dict.set json_data keyword papers)
      end
  end.

Definition merge_data (json_data : dict addr) (data : dict addr)
    : M (dict addr) :=
  foldM (merge_keyword data) (Dict.keys data) json_data.

(** [json.dump(json_data, f)] on a file opened with ["w"]. *)
Definition json_dump (filename : str) (json_data : dict addr) : M unit :=
  fun st => write_file filename (Json (deref_store (heap st) json_data)) st.

Definition update_json_file (filename : str) (data_dict : list (dict addr))
    : M unit :=
  m <- read_store filename ;;
  json_data <- alloc_store m ;;
  json_data <- foldM merge_data data_dict json_data ;;
  json_dump filename json_data.

(** *** [sort_papers] *)

(** [keys.sort(reverse=True)]: a stable sort into descending order. *)
Fixpoint insert_desc (k : str) (l : list str) : list str :=
  match l with
  | [] => [k]
  | x :: l' => if leb x k then k :: l else x :: insert_desc k l'
  end.

Definition sort_reverse (keys : list str) : list str :=
  fold_right insert_desc [] keys.

Definition sort_papers (papers : bucket) : bucket :=
  let keys := sort_reverse (Dict.keys papers) in
  fold_left
    (fun output key =>
       match Dict.get papers key with
       | Some v => Dict.set output key v
       | None => output
       end)
    keys [].

(** *** [json_to_md] *)

(** [s[-1]] and [s[0]] *)
Definition index_last (s : str) : outcome ascii :=
  match rev s with
  | c :: _ => Ret c
  | [] => Raise IndexError
  end.

Definition index_first (s : str) : outcome ascii :=
  match s with
  | c :: _ => Ret c
  | [] => Raise IndexError
  end.

(** [s[1:-1]] *)
Definition slice_inner (s : str) : str := removelast (tl s).

Definition not_space_nor_star (c : ascii) : bool :=
  negb (Ascii.eqb c " ") && negb (Ascii.eqb "*" c).

Definition pretty_math (s : str) : outcome str :=
  match re_search_math s with
  | None => Ret s
  | Some (math_start, math_end) =>
      obind (index_last (slice_to math_start s)) (fun before =>
      let space_trail :=
        if not_space_nor_star before then lit " " else [] in
      obind (index_first (slice_from math_end s)) (fun after =>
      let space_leading :=
        if not_space_nor_star after then lit " " else [] in
      let group := slice_to (math_end - math_start) (slice_from math_start s) in
      Ret (slice_to math_start s
           ++ (space_trail ++ lit "$" ++ strip (slice_inner group) ++ lit "$"
               ++ space_leading)
           ++ slice_from math_end s)))
  end.

Definition table_of_contents_entry (md_filename : str) (data : Store)
    (keyword : str) : M unit :=
  match Dict.get data keyword with
  | None => raise KeyError
  | Some [] => ret tt
  | Some (_ :: _) =>
      let kw := replace_char " " "-" keyword in
      append_file md_filename
        (lit "    <li><a href=#" ++ lower kw ++ lit ">" ++ keyword
         ++ lit "</a></li>" ++ [NL])
  end.

(** [for _, v in day_content.items(): f.write(pretty_math(v))] *)
Definition write_row (md_filename : str) (v : str) : M unit :=
  row <- lift (pretty_math v) ;;
  append_file md_filename row.

Definition write_section (md_filename : str) (DateNow : str)
    (to_web use_title use_b2t : bool) (data : Store) (keyword : str)
    : M unit :=
  match Dict.get data keyword with
  | None => raise KeyError
  | Some [] => ret tt
  | Some ((_ :: _) as day_content) =>
      append_file md_filename (lit "## " ++ keyword ++ [NL; NL]) ;;
      (if use_title then
         if negb to_web then
           append_file md_filename
             (lit "|Publish Date|Title|PDF|Code|Abstract|" ++ [NL]
              ++ lit "|---|---|---|---|--------------------------------------------------|"
              ++ [NL])
         else
           append_file md_filename
             (lit "| Publish Date | Title | PDF | Code | Abstract |" ++ [NL]) ;;
           append_file md_filename
             (lit "|:---------|:-----------------------|:------|:------|:-------------------------------------------------|"
              ++ [NL])
       else ret tt) ;;
      let day_content := sort_papers day_content in
      foldM (fun _ v => write_row md_filename v) (Dict.values day_content) tt ;;
      append_file md_filename [NL] ;;
      if use_b2t then
        let top_info := lit "#Updated on " ++ DateNow in
        let top_info := remove_char "." (replace_char " " "-" top_info) in
        append_file md_filename
          (lit "<p align=right>(<a href=" ++ lower top_info
           ++ lit ">back to top</a>)</p>" ++ [NL; NL])
      else ret tt
  end.

Definition json_to_md (filename md_filename : str)
    (to_web use_title use_tc use_b2t : bool) : M unit :=
  let DateNow := replace_char "-" "." (today w) in
  data <- read_store filename ;;
  write_file md_filename (Text []) ;;
  (if use_title && to_web then
     append_file md_filename
       (lit "---" ++ [NL] ++ lit "layout: default" ++ [NL] ++ lit "---"
        ++ [NL; NL])
   else ret tt) ;;
  (if use_title then
     append_file md_filename (lit "## Updated on " ++ DateNow ++ [NL])
   else
     append_file md_filename (lit "> Updated on " ++ DateNow ++ [NL])) ;;
  append_file md_filename
    (lit "> Usage instructions: [here](./docs/README.md#usage)" ++ [NL; NL]) ;;
  (if use_tc then
     append_file md_filename (lit "<details>" ++ [NL]) ;;
     append_file md_filename
       (lit "  <summary>Table of Contents</summary>" ++ [NL]) ;;
     append_file md_filename (lit "  <ol>" ++ [NL]) ;;
     foldM (fun _ keyword => table_of_contents_entry md_filename data keyword)
       (Dict.keys data) tt ;;
     append_file md_filename (lit "  </ol>" ++ [NL]) ;;
     append_file md_filename (lit "</details>" ++ [NL; NL])
   else ret tt) ;;
  foldM (fun _ keyword =>
           write_section md_filename DateNow to_web use_title use_b2t data
             keyword)
    (Dict.keys data) tt.

(** *** [demo] *)

(** The body of [for topic, keyword in keywords.items()]. *)
Definition harvest_topic (max_results : nat) (translater : option Translater)
    (collectors : list (dict addr) * list (dict addr)) (item : str * str)
    : M (list (dict addr) * list (dict addr)) :=
  let '(data_collector, data_collector_web) := collectors in
  let '(topic, keyword) := item in
  '(data, data_web) <- get_daily_papers topic keyword max_results translater ;;
  ret (data_collector ++ [data], data_collector_web ++ [data_web]).

Definition demo (translater : option Translater) (config : Config) : M unit :=
  let keywords := kv config in
  '(data_collector, data_collector_web) <-
    (if negb (cfg_update_paper_links config) then
       foldM (harvest_topic (max_results config) translater) keywords ([], [])
     else ret ([], [])) ;;
  (if publish_readme config then
     let json_file := json_readme_path config in
     let md_file := md_readme_path config in
     (if cfg_update_paper_links config then update_paper_links json_file
      else update_json_file json_file data_collector) ;;
     json_to_md json_file md_file false true true true
   else ret tt) ;;
  (if publish_gitpage config then
     let json_file := json_gitpage_path config in
     let md_file := md_gitpage_path config in
     (if cfg_update_paper_links config then update_paper_links json_file
      else update_json_file json_file data_collector) ;;
     json_to_md json_file md_file true true false false
   else ret tt).

End Program.

(** ** More of the program: the query filters of [load_config] *)

(** [s.split()] without separator: the words between runs of
    whitespace. *)
Fixpoint words (s : str) : list str :=
  match s with
  | [] => []
  | c :: s' =>
      if is_space c then words s'
      else match s' with
           | [] => [[c]]
           | c' :: _ =>
               if is_space c' then [c] :: words s'
               else match words s' with
                    | wd :: ws => (c :: wd) :: ws
                    | [] => [[c]]
                    end
           end
  end.

(** The double quote. *)
Definition EXCAPE : str := [ascii_of_nat 34].
Definition QUOTA : str := [].
Definition OR : str := lit " OR ".

(** The loop [for idx in range(0, len(filters))] of [parse_filters];
    [rest] is [filters[idx:]] and [n] is [len(filters)]. *)
Fixpoint parse_filters_loop (n idx : nat) (rest : list str) (ret : str) : str :=
  match rest with
  | [] => ret
  | filter :: rest' =>
      let ret :=
        if 1 <? length (words filter)
        then ret ++ (EXCAPE ++ filter ++ EXCAPE)
        else ret ++ (QUOTA ++ filter ++ QUOTA) in
      let ret := if negb (idx =? n - 1) then ret ++ OR else ret in
      parse_filters_loop n (S idx) rest' ret
  end.

Definition parse_filters (filters : list str) : str :=
  parse_filters_loop (length filters) 0 filters [].

(** The loop [for k, v in config["keywords"].items()] of
    [pretty_filters]: [config["keywords"]] maps a topic to a dict that
    should have a list under ["filters"] ([None] when it has not). *)
Fixpoint pretty_filters_loop (items : list (str * option (list str)))
    (keywords : dict str) : outcome (dict str) :=
  match items with
  | [] => Ret keywords
  | (k, v) :: items' =>
      match v with
      | None => Raise KeyError
      | Some filters =>
          pretty_filters_loop items' (Dict.set keywords k (parse_filters filters))
      end
  end.

(** [pretty_filters]: of its [config] it reads the value under
    ["keywords"] only, [None] here when the configuration has no such
    key. *)
Definition pretty_filters (config : option (dict (option (list str))))
    : outcome (dict str) :=
  match config with
  | None => Raise KeyError
  | Some config_keywords => pretty_filters_loop config_keywords []
  end.

(** ** Concrete worlds and inputs used by the examples *)

(** A world in which every service is down. *)
Definition world_down : World := {|
  arxiv_results := fun _ _ _ => ([], Some (SearchError (lit "unreachable")));
  registry_get := fun _ _ => inl (RequestError (lit "unreachable"));
  generate_content := fun _ _ => None;
  today := lit "2024-01-03"
|}.

(** No file, no object, nothing done yet. *)
Definition st_empty : state :=
  {| files := fun _ => Absent; heap := []; trace := [] |}.

Definition paper (id title_ summary_ updated_ : string) : Result := {|
  short_id := lit id;
  title := lit title_;
  entry_id := lit "http://arxiv.org/abs/" ++ lit id;
  summary := lit summary_;
  authors := [lit "A. Author"; lit "B. Author"];
  primary_category := lit "cs.CV";
  published := lit updated_;
  updated := lit updated_;
  comment := None
|}.

(** The arXiv client delivers one paper, the registry cannot be
    reached. *)
Definition world_registry_down : World := {|
  arxiv_results := fun _ _ _ =>
    ([paper "2401.00001v1" "A title" "An abstract." "2024-01-03"], None);
  registry_get := fun _ _ => inl (RequestError (lit "unreachable"));
  generate_content := fun _ _ => None;
  today := lit "2024-01-03"
|}.

(** The first search of the run fails, later searches deliver one
    paper; the registry knows no official implementation. *)
Definition world_first_search_fails : World := {|
  arxiv_results := fun n _ _ =>
    match n with
    | O => ([], Some (SearchError (lit "HTTP 503")))
    | S _ => ([paper "2401.00001v1" "A title" "An abstract." "2024-01-03"],
              None)
    end;
  registry_get := fun _ _ => inr NoOfficial;
  generate_content := fun _ _ => None;
  today := lit "2024-01-03"
|}.

Definition config_two_topics : Config := {|
  kv := [(lit "nerf", lit "abs:nerf"); (lit "OCR", lit "abs:ocr")];
  max_results := 2;
  publish_readme := true;
  publish_gitpage := false;
  cfg_update_paper_links := false;
  json_readme_path := lit "docs/store.json";
  md_readme_path := lit "README.md";
  json_gitpage_path := lit "docs/web.json";
  md_gitpage_path := lit "docs/index.md"
|}.

(** The store file exists and is empty. *)
Definition st_fresh : state :=
  {| files := fun n => if eqb n (lit "docs/store.json") then Text [] else Absent;
     heap := []; trace := [] |}.

(** A stored row without code link, as [get_daily_papers] writes it. *)
Definition stored_row (id title_ abstract date : string) : str :=
  row_without_link (lit date) (lit title_) (lit id)
    (arxiv_url ++ lit "abs/" ++ lit id) (lit abstract).

(** Three records whose update dates are 2024-01-03, 2024-01-01 and
    2024-01-02, in that order. *)
Definition bucket_three_dates : bucket :=
  [(lit "2401.00001",
    stored_row "2401.00001" "Paper A" "Abstract A" "2024-01-03");
   (lit "2401.00002",
    stored_row "2401.00002" "Paper B" "Abstract B" "2024-01-01");
   (lit "2401.00003",
    stored_row "2401.00003" "Paper C" "Abstract C" "2024-01-02")].

Definition st_three_dates : state :=
  {| files := fun n =>
       if eqb n (lit "docs/store.json")
       then Json [(lit "nerf", bucket_three_dates)] else Absent;
     heap := []; trace := [] |}.

Definition report_head : str :=
  lit "## Updated on 2024.01.03" ++ [NL]
  ++ lit "> Usage instructions: [here](./docs/README.md#usage)" ++ [NL; NL]
  ++ lit "<details>" ++ [NL]
  ++ lit "  <summary>Table of Contents</summary>" ++ [NL]
  ++ lit "  <ol>" ++ [NL]
  ++ lit "    <li><a href=#nerf>nerf</a></li>" ++ [NL]
  ++ lit "  </ol>" ++ [NL]
  ++ lit "</details>" ++ [NL; NL]
  ++ lit "## nerf" ++ [NL; NL]
  ++ lit "|Publish Date|Title|PDF|Code|Abstract|" ++ [NL]
  ++ lit "|---|---|---|---|--------------------------------------------------|"
  ++ [NL].

Definition report_foot : str :=
  [NL] ++ lit "<p align=right>(<a href=#updated-on-20240103>back to top</a>)</p>"
  ++ [NL; NL].

(** A store with one topic, and a batch of two dicts for a new topic:
    the first bucket of the batch enters the store as the object it is
    and is then updated in place with the second. *)
Definition st_batch : state :=
  {| files := fun n =>
       if eqb n (lit "docs/store.json")
       then Json [(lit "OCR",
                   [(lit "2401.00009",
                     stored_row "2401.00009" "Paper O" "Abstract O"
                       "2024-01-02")])]
       else Absent;
     heap := [ [(lit "2401.00001",
                 stored_row "2401.00001" "Paper A" "Abstract A" "2024-01-03")];
               [(lit "2401.00001",
                 stored_row "2401.00001" "Paper A" "Abstract A, revised"
                   "2024-01-04");
                (lit "2401.00002",
                 stored_row "2401.00002" "Paper B" "Abstract B" "2024-01-01")] ];
     trace := [] |}.

Definition batch_two : list (dict addr) :=
  [[(lit "nerf", 0)]; [(lit "nerf", 1)]].





(** The registry knows an official implementation of every paper. *)
Definition world_official : World := {|
  arxiv_results := fun _ _ _ => ([], None);
  registry_get := fun _ _ => inr (Official (Some (lit "https://github.com/a/b")));
  generate_content := fun _ _ => None;
  today := lit "2024-01-05"
|}.

(** A record whose abstract contains the delimiter. *)
Definition st_pipe_in_abstract : state :=
  {| files := fun n =>
       if eqb n (lit "docs/store.json")
       then Json [(lit "nerf",
                   [(lit "2401.00001",
                     stored_row "2401.00001" "Paper A"
                       "We model p(x|y) directly." "2024-01-03")])]
       else Absent;
     heap := []; trace := [] |}.

(** A batch in which one dict object stands under two keywords: not a
    batch that the harvest can build, each of its buckets being a dict
    of its own. *)
Definition st_shared : state :=
  {| files := fun n =>
       if eqb n (lit "docs/store.json")
       then Json [(lit "B", [(lit "1", lit "row 1")])] else Absent;
     heap := [ [(lit "2", lit "row 2")]; [(lit "3", lit "row 3")] ];
     trace := [] |}.

Definition batch_shared : list (dict addr) :=
  [[(lit "B", 0)]; [(lit "A", 0)]; [(lit "A", 1)]].

(** The arXiv client delivers two different papers of the old archive
    [solv-int], whose ids have a [v] in the archive name; the registry
    knows no official implementation. *)
Definition world_old_style : World := {|
  arxiv_results := fun _ _ _ =>
    ([paper "solv-int/9901001v1" "Paper S" "Abstract S" "1999-01-05";
      paper "solv-int/9901002v1" "Paper T" "Abstract T" "1999-01-06"], None);
  registry_get := fun _ _ => inr NoOfficial;
  generate_content := fun _ _ => None;
  today := lit "2024-01-03"
|}.

(** ** Further inputs *)

(** Two papers are delivered, the second without authors. *)
Definition world_no_authors : World := {|
  arxiv_results := fun _ _ _ =>
    ([paper "2401.00001v1" "A title" "An abstract." "2024-01-03";
      {| short_id := lit "2401.00002v1"; title := lit "B title";
         entry_id := lit "http://arxiv.org/abs/2401.00002v1";
         summary := lit "B abstract."; authors := [];
         primary_category := lit "cs.CV"; published := lit "2024-01-02";
         updated := lit "2024-01-02"; comment := None |}], None);
  registry_get := fun _ _ => inr NoOfficial;
  generate_content := fun _ _ => None;
  today := lit "2024-01-03"
|}.

(** ** Auxiliary notions used to state the properties *)

(** A computation that leaves the files and the heap alone and starts
    no search. *)
Definition local_step {A} (m : M A) : Prop :=
  forall st o st',
    m st = (o, st') ->
    files st' = files st
    /\ heap st' = heap st
    /\ count is_search (trace st') = count is_search (trace st).

(** The value that a sequence of [update]s leaves at a key: the one of
    the last dict of the sequence that has the key. *)
Fixpoint last_write {V} (ps : list (dict V)) (k : str) : option V :=
  match ps with
  | [] => None
  | p :: ps' =>
      match last_write ps' k with
      | Some v => Some v
      | None => Dict.get p k
      end
  end.

(** *** The merge on values

    What [update_json_file] does to the store when no two entries of
    the batch share a dict object: the entries [(keyword, papers)] are
    merged one after the other. *)
Definition merge_entry (s : Store) (entry : str * bucket) : Store :=
  let '(keyword, papers) := entry in
  match Dict.get s keyword with
  | Some b => Dict.set s keyword (Dict.update b papers)
  | None => Dict.set s keyword papers
  end.

Definition merge_store (s : Store) (entries : list (str * bucket)) : Store :=
  fold_left merge_entry entries s.

(** The buckets that the entries hold for one keyword, in order. *)
Fixpoint select (t : str) (entries : list (str * bucket)) : list bucket :=
  match entries with
  | [] => []
  | (k, p) :: es => if eqb t k then p :: select t es else select t es
  end.

(** Every bucket is a dict; the store is a dict of dicts. *)
Definition buckets_wf (l : list (str * bucket)) : bool :=
  forallb (fun kb => Dict.wf (snd kb)) l.

Definition store_wf (s : Store) : bool := Dict.wf s && buckets_wf s.

(** A batch as [update_json_file] gets it: the entries of all its dicts,
    with the address of each bucket. *)
Definition batch_entries (data_dict : list (dict addr)) : list (str * addr) :=
  concat data_dict.

Definition deref_entries (h : list bucket) (items : list (str * addr))
    : list (str * bucket) :=
  map (fun ka => (fst ka, deref h (snd ka))) items.

Fixpoint nodup_addrs (l : list addr) : bool :=
  match l with
  | [] => true
  | a :: l' => negb (existsb (Nat.eqb a) l') && nodup_addrs l'
  end.

(** A batch is well formed in a heap when its dicts are dicts, its
    buckets are distinct objects of the heap, and these are dicts. *)
Definition batch_wf (h : list bucket) (data_dict : list (dict addr)) : bool :=
  forallb Dict.wf data_dict
  && nodup_addrs (map snd (batch_entries data_dict))
  && forallb (fun a => a <? length h) (map snd (batch_entries data_dict))
  && buckets_wf (deref_entries h (batch_entries data_dict)).

(** One turn of the loops of [update_json_file] on an entry of the
    batch, as a function of the store under construction and the heap. *)
Definition merge_item (jh : dict addr * list bucket) (item : str * addr)
    : dict addr * list bucket :=
  let '(json_data, h) := jh in
  let '(keyword, papers) := item in
  match Dict.get json_data keyword with
  | Some target =>
      (json_data,
       heap_set h target (Dict.update (deref h target) (deref h papers)))
  | None => (Dict.set json_data keyword papers, h)
  end.

Definition with_heap (st : state) (h : list bucket) : state :=
  {| files := files st; heap := h; trace := trace st |}.

(** *** Rows

    A field of a stored row is usable as such when it does not contain
    the delimiter. *)
Definition pipe_free (s : str) : bool := negb (existsb (Ascii.eqb "|") s).

(** The five fields of a row after [parse_arxiv_string] has normalized
    them. *)
Definition normalized_fields (d t i c a : str) : str * str * str * str * str :=
  (strip d, strip t, re_sub_version (strip i), strip c, strip a).









(** ** Auxiliary notions for the further properties *)

(** What a computation adds to the trace satisfies [P], event by
    event, whether it returns or raises. *)
Definition trace_inv {A} (P : event -> Prop) (m : M A) : Prop :=
  forall st o st',
    m st = (o, st') ->
    exists evs, trace st' = trace st ++ evs /\ Forall P evs.

(** The urls requested, in order. *)
Fixpoint gets (tr : list event) : list str :=
  match tr with
  | [] => []
  | EvGet url :: tr' => url :: gets tr'
  | _ :: tr' => gets tr'
  end.

(** The searches made, in order. *)
Fixpoint searches (tr : list event) : list (str * nat) :=
  match tr with
  | [] => []
  | EvSearch q n :: tr' => (q, n) :: searches tr'
  | _ :: tr' => searches tr'
  end.

(** A request to the code-link registry. *)
Definition registry_request (e : event) : Prop :=
  match e with
  | EvGet url => exists id, url = base_url ++ id
  | _ => True
  end.

(** A request to the code-link registry or the log of an error: all
    that the repair pass may do. *)
Definition repair_event (e : event) : Prop :=
  match e with
  | EvGet url => exists id, url = base_url ++ id
  | EvLogError _ _ => True
  | _ => False
  end.

Definition no_event (e : event) : Prop := False.

(** A line as the renderer expects it: it ends with a newline and does
    not begin with a dollar sign. *)
Definition is_line (s : str) : Prop :=
  exists c body, s = c :: body ++ [NL] /\ c <> "$"%char.

Definition lines_only (m : Store) : Prop :=
  forall topic b id r, In (topic, b) m -> In (id, r) b -> is_line r.

(** The quoting of one filter in [parse_filters]. *)
Definition quote_filter (filter : str) : str :=
  if 1 <? length (words filter) then EXCAPE ++ filter ++ EXCAPE else filter.

(** The test that the repair pass makes on a record before it asks the
    registry: the row parses and, formatted again, has ["|null|"] in
    it. *)
Definition needs_lookup (r : str) : bool :=
  match parse_arxiv_string r with
  | Ret (d, t, i, c, a) => contains (lit "|null|") (format_row d t i c a)
  | Raise _ => false
  end.

(** The ids of the records that need a lookup, in the order of the
    store. *)
Definition unlinked_ids (m : Store) : list str :=
  flat_map (fun tb => map fst (filter (fun kr => needs_lookup (snd kr))
                                 (snd tb))) m.

(** A computation that, started on a state where [name] is a text
    file, only appends to that file: the heap, the trace and the other
    files stay as they are, and an exception it raises satisfies [E]. *)
Definition appends_to {A} (name : str) (E : exn -> Prop) (m : M A) : Prop :=
  forall st o st' t,
    m st = (o, st') ->
    files st name = Text t ->
    heap st' = heap st
    /\ trace st' = trace st
    /\ (forall other, other <> name -> files st' other = files st other)
    /\ (exists suffix, files st' name = Text (t ++ suffix))
    /\ match o with Raise e => E e | Ret _ => True end.

Definition is_index_error (e : exn) : Prop := e = IndexError.

Definition never (e : exn) : Prop := False.

(** * Properties *)

(** ** Traces *)

Lemma count_app (p : event -> bool) (a b : list event) :
  count p (a ++ b) = count p a + count p b.
Proof.
  unfold count. now rewrite filter_app, length_app.
Qed.

Lemma slept_app (a b : list event) :
  slept (a ++ b) = (slept a + slept b)%Z.
Proof.
  induction a as [|e a IH]; simpl.
  - reflexivity.
  - destruct e; rewrite ?IH; lia.
Qed.

(** ** The translator *)

Section TranslateFacts.

Variable w : World.

(** When every call of the model fails, [translate] calls it three
    times, sleeps 1, 2 and 4 seconds, and falls back to [text]. *)
Lemma translate_all_fail (self : Translater) (text : str) (st : state) :
  (forall n, generate_content w n (translate_prompt text) = None) ->
  translate w self text st =
  (Ret text,
   {| files := files st; heap := heap st;
      trace := trace st ++
        [EvGenerate (translate_prompt text); EvSleep 1;
         EvGenerate (translate_prompt text); EvSleep 2;
         EvGenerate (translate_prompt text); EvSleep 4] |}).
Proof.
  intros H.
  unfold translate, translate_while, NUM_RETRIES; simpl.
  unfold bind, model_generate, sleep, emit, return_local, ret; simpl.
  rewrite !H; simpl.
  repeat rewrite <- app_assoc. reflexivity.
Qed.

(** [translate] always returns: it never raises, whatever the model
    answers. *)
Lemma translate_returns (self : Translater) (text : str) (st : state) :
  exists r st', translate w self text st = (Ret r, st')
                /\ files st' = files st /\ heap st' = heap st.
Proof.
  unfold translate, translate_while, NUM_RETRIES; simpl.
  unfold bind, model_generate, sleep, emit, return_local, ret; simpl.
  repeat (match goal with
          | |- context [generate_content w ?n ?p] =>
              destruct (generate_content w n p); simpl
          end;
          try (eexists; eexists; split; [reflexivity | now split])).
Qed.

End TranslateFacts.

(** ** Strings *)

Lemma eqb_refl (a : str) : eqb a a = true.
Proof.
  induction a as [|x a IH]; simpl; [reflexivity|].
  now rewrite Ascii.eqb_refl, IH.
Qed.

Lemma eqb_eq (a b : str) : eqb a b = true <-> a = b.
Proof.
  split.
  - revert b. induction a as [|x a IH]; intros [|y b]; simpl;
      try discriminate; [reflexivity|].
    intros H. apply andb_true_iff in H as [Hx Hab].
    apply Ascii.eqb_eq in Hx. apply IH in Hab. now subst.
  - intros ->. apply eqb_refl.
Qed.

Lemma eqb_neq (a b : str) : eqb a b = false <-> a <> b.
Proof.
  split.
  - intros H E. apply eqb_eq in E. congruence.
  - intros H. destruct (eqb a b) eqn:E; [|reflexivity].
    apply eqb_eq in E. contradiction.
Qed.

Lemma eqb_sym (a b : str) : eqb a b = eqb b a.
Proof.
  destruct (eqb a b) eqn:E.
  - apply eqb_eq in E. subst. now rewrite eqb_refl.
  - symmetry. apply eqb_neq. apply eqb_neq in E. congruence.
Qed.

(** ** Dicts *)

Module DictFacts.
Import Dict.

Section Facts.
Context {V : Type}.
Implicit Types (d : dict V) (k : str) (v : V).

Lemma get_set_same d k v : get (set d k v) k = Some v.
Proof.
  induction d as [|[k' v'] d IH]; simpl.
  - now rewrite eqb_refl.
  - destruct (eqb k k') eqn:E; simpl; rewrite E; [reflexivity | exact IH].
Qed.

Lemma get_set_other d k k' v : k' <> k -> get (set d k v) k' = get d k'.
Proof.
  intros Hne. induction d as [|[k0 v0] d IH]; simpl.
  - apply eqb_neq in Hne. now rewrite Hne.
  - destruct (eqb k k0) eqn:E; simpl.
    + apply eqb_eq in E. subst k0. apply eqb_neq in Hne. now rewrite Hne.
    + now rewrite IH.
Qed.

Lemma get_set d k k' v :
  get (set d k v) k' = if eqb k' k then Some v else get d k'.
Proof.
  destruct (eqb k' k) eqn:E.
  - apply eqb_eq in E. subst. apply get_set_same.
  - apply eqb_neq in E. now apply get_set_other.
Qed.

Lemma keys_set_present d k v :
  mem d k = true -> keys (set d k v) = keys d.
Proof.
  unfold mem. induction d as [|[k' v'] d IH]; simpl; [discriminate|].
  destruct (eqb k k') eqn:E; simpl; [reflexivity|].
  intros H. now rewrite IH.
Qed.

Lemma set_absent d k v : mem d k = false -> set d k v = d ++ [(k, v)].
Proof.
  unfold mem. induction d as [|[k' v'] d IH]; simpl; [reflexivity|].
  destruct (eqb k k') eqn:E; simpl; [discriminate|].
  intros H. now rewrite IH.
Qed.

Lemma mem_set d k k' v :
  mem (set d k v) k' = eqb k' k || mem d k'.
Proof.
  unfold mem. rewrite get_set. now destruct (eqb k' k).
Qed.

Lemma key_in_spec k (l : list str) : key_in k l = true <-> In k l.
Proof.
  induction l as [|x l IH]; simpl; [split; [discriminate | tauto]|].
  rewrite orb_true_iff, IH, eqb_eq. split; intros [H|H]; auto.
Qed.

Lemma nodup_keys_spec (l : list str) : nodup_keys l = true <-> NoDup l.
Proof.
  induction l as [|x l IH]; simpl.
  - split; [constructor | reflexivity].
  - rewrite andb_true_iff, negb_true_iff, IH. split.
    + intros [Hx Hl]. constructor; [|exact Hl].
      intros Hin. apply key_in_spec in Hin. congruence.
    + intros H. inversion H as [|? ? Hx Hl]; subst. split; [|exact Hl].
      destruct (key_in x l) eqn:E; [|reflexivity].
      apply key_in_spec in E. contradiction.
Qed.

Lemma mem_spec d k : mem d k = true <-> In k (keys d).
Proof.
  unfold mem. induction d as [|[k' v'] d IH]; simpl.
  - split; [discriminate | tauto].
  - destruct (eqb k k') eqn:E.
    + apply eqb_eq in E. subst. split; auto.
    + apply eqb_neq in E. rewrite IH. split; [auto|].
      intros [H|H]; [congruence | exact H].
Qed.

Lemma mem_false_spec d k : mem d k = false <-> ~ In k (keys d).
Proof.
  rewrite <- mem_spec. destruct (mem d k); split; congruence.
Qed.

Lemma keys_set d k v :
  keys (set d k v) = if mem d k then keys d else keys d ++ [k].
Proof.
  destruct (mem d k) eqn:E.
  - now apply keys_set_present.
  - rewrite set_absent by exact E. unfold keys. now rewrite map_app.
Qed.

Lemma wf_set d k v : wf d = true -> wf (set d k v) = true.
Proof.
  unfold wf. rewrite !nodup_keys_spec, keys_set.
  destruct (mem d k) eqn:E; [auto|].
  intros H. apply NoDup_app; [exact H | repeat constructor; simpl; tauto |].
  intros x Hx [<-|[]]. apply mem_false_spec in E. contradiction.
Qed.

End Facts.
End DictFacts.

(** ** [dict.update] *)

Lemma Forall2_in_left {A B} (R : A -> B -> Prop) (l : list A) (l' : list B)
    (x : A) :
  Forall2 R l l' -> In x l -> exists y, In y l' /\ R x y.
Proof.
  induction 1 as [|a b l l' Hab Hl IH]; intros Hx; [destruct Hx|].
  destruct Hx as [<-|Hx].
  - exists b. split; [now left | exact Hab].
  - destruct (IH Hx) as (y & Hy & Hr). exists y. split; [now right | exact Hr].
Qed.

Module UpdateFacts.
Import Dict DictFacts.

Section Facts.
Context {V : Type}.
Implicit Types (d p : dict V) (k : str) (v : V).

Lemma update_cons d k v p : update d ((k, v) :: p) = update (set d k v) p.
Proof. reflexivity. Qed.

Lemma get_absent d k : ~ In k (keys d) -> get d k = None.
Proof.
  intros H. apply mem_false_spec in H. unfold mem in H.
  now destruct (get d k).
Qed.

Lemma get_present d k : In k (keys d) -> exists v, get d k = Some v.
Proof.
  intros H. apply mem_spec in H. unfold mem in H.
  destruct (get d k) as [v|]; [now exists v | discriminate].
Qed.

Lemma get_some_in d k v : get d k = Some v -> In k (keys d).
Proof.
  intros H. apply mem_spec. unfold mem. now rewrite H.
Qed.

(** After [d.update(p)] a key of [p] has the value of [p], any other key
    the value it had in [d]. *)
Lemma get_update d p k :
  wf p = true ->
  get (update d p) k
  = match get p k with Some v => Some v | None => get d k end.
Proof.
  unfold wf. rewrite nodup_keys_spec. revert d.
  induction p as [|[k0 v0] p IH]; intros d Hnd; [reflexivity|].
  simpl in Hnd. inversion Hnd as [|? ? Hk0 Hnd']; subst.
  rewrite update_cons, IH by exact Hnd'. simpl.
  destruct (eqb k k0) eqn:E.
  - apply eqb_eq in E. subst k0.
    rewrite (get_absent p k Hk0). apply get_set_same.
  - destruct (get p k); [reflexivity|].
    apply get_set_other. now apply eqb_neq.
Qed.

Lemma in_keys_set d k v k' :
  In k' (keys (set d k v)) <-> In k' (keys d) \/ k' = k.
Proof.
  rewrite keys_set. destruct (mem d k) eqn:E.
  - apply mem_spec in E. split; [auto|]. intros [H| ->]; auto.
  - rewrite in_app_iff. simpl. intuition congruence.
Qed.

Lemma in_keys_update d p k :
  In k (keys (update d p)) <-> In k (keys d) \/ In k (keys p).
Proof.
  revert d. induction p as [|[k0 v0] p IH]; intros d.
  - simpl. tauto.
  - rewrite update_cons, IH, in_keys_set. simpl. intuition congruence.
Qed.

(** Updating with keys that are all there keeps the order of the keys. *)
Lemma keys_update_present d p :
  (forall k, In k (keys p) -> In k (keys d)) ->
  keys (update d p) = keys d.
Proof.
  revert d. induction p as [|[k0 v0] p IH]; intros d H; [reflexivity|].
  assert (Hm : mem d k0 = true) by (apply mem_spec, H; now left).
  rewrite update_cons, IH.
  - now apply keys_set_present.
  - intros k Hk. apply in_keys_set. left. apply H. now right.
Qed.

Lemma wf_update d p : wf d = true -> wf (update d p) = true.
Proof.
  revert d. induction p as [|[k0 v0] p IH]; intros d H; [exact H|].
  rewrite update_cons. apply IH. now apply wf_set.
Qed.

(** Two dicts with the same keys in the same order and the same value at
    every key are equal. *)
Lemma dict_ext d1 d2 :
  NoDup (keys d1) ->
  keys d1 = keys d2 ->
  (forall k, get d1 k = get d2 k) ->
  d1 = d2.
Proof.
  revert d2. induction d1 as [|[k1 v1] d1 IH]; intros [|[k2 v2] d2];
    simpl; try discriminate; [reflexivity|].
  intros Hnd [= <- Hk] Hg. inversion Hnd as [|? ? Hk1 Hnd']; subst.
  pose proof (Hg k1) as H1. simpl in H1. rewrite eqb_refl in H1.
  injection H1 as <-. f_equal. apply IH; [exact Hnd' | exact Hk|].
  intros k. specialize (Hg k). simpl in Hg.
  destruct (eqb k k1) eqn:E; [|exact Hg].
  apply eqb_eq in E. subst k.
  rewrite (get_absent d1 k1 Hk1).
  rewrite Hk in Hk1. now rewrite (get_absent d2 k1 Hk1).
Qed.

Lemma get_fold_update (ps : list (dict V)) d k :
  Forall (fun p => wf p = true) ps ->
  get (fold_left update ps d) k
  = match last_write ps k with Some v => Some v | None => get d k end.
Proof.
  revert d. induction ps as [|p ps IH]; intros d Hwf; [reflexivity|].
  inversion Hwf as [|? ? Hp Hps]; subst. simpl.
  rewrite IH by exact Hps.
  destruct (last_write ps k); [reflexivity|]. now apply get_update.
Qed.

Lemma keys_fold_update_present (ps : list (dict V)) d :
  Forall (fun p => forall k, In k (keys p) -> In k (keys d)) ps ->
  keys (fold_left update ps d) = keys d.
Proof.
  revert d. induction ps as [|p ps IH]; intros d H; [reflexivity|].
  inversion H as [|? ? Hp Hps]; subst. simpl.
  rewrite IH.
  - now apply keys_update_present.
  - rewrite (keys_update_present d p Hp). exact Hps.
Qed.

Lemma in_keys_fold_update (ps : list (dict V)) d k :
  In k (keys (fold_left update ps d))
  <-> In k (keys d) \/ exists p, In p ps /\ In k (keys p).
Proof.
  revert d. induction ps as [|p ps IH]; intros d; simpl.
  - split; [auto|]. intros [H|(p & [] & _)]. exact H.
  - rewrite IH, in_keys_update. split.
    + intros [[H|H]|(q & Hq & Hk)]; eauto.
    + intros [H|(q & [<-|Hq] & Hk)]; eauto.
Qed.

Lemma wf_fold_update (ps : list (dict V)) d :
  wf d = true -> wf (fold_left update ps d) = true.
Proof.
  revert d. induction ps as [|p ps IH]; intros d H; [exact H|].
  simpl. apply IH. now apply wf_update.
Qed.

(** A sequence of updates whose last writes are already in [r] leaves
    [r] as it is. *)
Lemma fold_update_absorbed (ps : list (dict V)) (r : dict V) :
  wf r = true ->
  Forall (fun p => wf p = true) ps ->
  Forall (fun p => forall k, In k (keys p) -> In k (keys r)) ps ->
  (forall k v, last_write ps k = Some v -> get r k = Some v) ->
  fold_left update ps r = r.
Proof.
  intros Hr Hwf Hsub Hlast. apply dict_ext.
  - apply nodup_keys_spec. now apply wf_fold_update.
  - now apply keys_fold_update_present.
  - intros k. rewrite get_fold_update by exact Hwf.
    destruct (last_write ps k) as [v|] eqn:E; [|reflexivity].
    symmetry. now apply Hlast.
Qed.

Lemma last_write_none (ps : list (dict V)) k :
  last_write ps k = None <-> forall p, In p ps -> get p k = None.
Proof.
  induction ps as [|p ps IH]; simpl.
  - split; [intros _ p [] | reflexivity].
  - destruct (last_write ps k) as [v|] eqn:E.
    + split; [discriminate|]. intros H.
      assert (Hn : Some v = None) by (apply IH; intros q Hq; apply H; auto).
      discriminate.
    + split.
      * intros Hp q [<-|Hq]; [exact Hp | now apply IH].
      * intros H. apply H. now left.
Qed.

(** Replaying a sequence in which some dicts have been replaced by the
    result [r] itself still writes nothing new into [r]. *)
Lemma last_write_replayed (ps ps' : list (dict V)) (r : dict V) :
  Forall2 (fun p p' => p' = p \/ p' = r) ps ps' ->
  Forall (fun p => forall k, In k (keys p) -> In k (keys r)) ps ->
  (forall k v, last_write ps k = Some v -> get r k = Some v) ->
  forall k v, last_write ps' k = Some v -> get r k = Some v.
Proof.
  induction 1 as [|p p' ps ps' Hp Hps IH]; intros Hsub Hlast k v;
    [discriminate|].
  inversion Hsub as [|? ? Hsp Hsps]; subst. simpl.
  assert (Hlast' : forall k v, last_write ps k = Some v -> get r k = Some v).
  { intros k0 v0 H0. apply Hlast. simpl. now rewrite H0. }
  destruct (last_write ps' k) as [v'|] eqn:E.
  - intros [= <-]. now apply (IH Hsps Hlast').
  - intros Hg. destruct Hp as [-> | ->]; [|exact Hg].
    apply Hlast. simpl.
    assert (Hn : last_write ps k = None).
    { apply last_write_none. intros q Hq.
      destruct (Forall2_in_left _ _ _ _ Hps Hq) as (q' & Hq' & Hqq).
      rewrite last_write_none in E. specialize (E q' Hq').
      destruct Hqq as [-> | ->]; [exact E|].
      (* q' = r has no key k, yet p has it and its keys are keys of r *)
      exfalso. apply get_some_in in Hg. apply Hsp in Hg.
      destruct (get_present _ _ Hg) as [x Hx]. congruence. }
    now rewrite Hn.
Qed.

End Facts.
End UpdateFacts.

(** ** Rows as strings *)

Section RowStrings.


Lemma pipe_free_cons (c : ascii) (s : str) :
  pipe_free (c :: s) = true ->
  Ascii.eqb c "|" = false /\ Ascii.eqb "|" c = false /\ pipe_free s = true.
Proof.
  unfold pipe_free. simpl. rewrite negb_orb, andb_true_iff, !negb_true_iff.
  intros [H1 H2]. rewrite (Ascii.eqb_sym c), H1, H2. auto.
Qed.

(** *** [split] *)

Lemma split_pipe_free (f : str) :
  pipe_free f = true -> split "|" f = [f].
Proof.
  induction f as [|c f IH]; intros H; [reflexivity|].
  apply pipe_free_cons in H as (Hc & _ & Hf).
  cbn [split]. rewrite Hc, IH by exact Hf. reflexivity.
Qed.

Lemma split_field (f rest : str) :
  pipe_free f = true ->
  split "|" (f ++ "|"%char :: rest) = f :: split "|" rest.
Proof.
  induction f as [|c f IH]; intros H.
  - reflexivity.
  - apply pipe_free_cons in H as (Hc & _ & Hf).
    cbn [app split]. rewrite Hc, IH by exact Hf. reflexivity.
Qed.

Lemma format_row_cons (d t i c a : str) :
  format_row d t i c a
  = "|"%char :: d ++ "|"%char :: t ++ "|"%char :: i ++ "|"%char :: c
      ++ "|"%char :: a ++ ["|"%char; NL].
Proof. reflexivity. Qed.

Lemma pipe_free_NL : pipe_free [NL] = true.
Proof. reflexivity. Qed.

Lemma split_format_row (d t i c a : str) :
  pipe_free d = true -> pipe_free t = true -> pipe_free i = true ->
  pipe_free c = true -> pipe_free a = true ->
  split "|" (format_row d t i c a) = [[]; d; t; i; c; a; [NL]].
Proof.
  intros Hd Ht Hi Hc Ha. rewrite format_row_cons.
  change ("|"%char :: d ++ ?r) with ([] ++ "|"%char :: d ++ r).
  rewrite split_field by reflexivity.
  rewrite !split_field by assumption.
  now rewrite split_pipe_free by exact pipe_free_NL.
Qed.

(** *** [strip] and [re.sub] keep a field free of delimiters *)






(** *** Looking for ["|null|"] in a row *)







(** *** Replacing ["|null|"] in a row *)






End RowStrings.

(** ** Translation fallback *)

(** C8. When the translation call fails on every attempt, [translate]
    makes exactly three attempts, sleeps after each failure for 1, 2 and
    4 seconds (an interval that doubles, so at least [1 + 2 * 1] in
    total), and returns the original abstract verbatim; it does not
    raise, and the caller [process_result] goes on to record the paper
    with that abstract exactly as it would without a translator. *)
Theorem translate_fallback_after_three_attempts
    (w : World) (self : Translater) (text : str) (st : state) :
  (forall n, generate_content w n (translate_prompt text) = None) ->
  exists st',
    translate w self text st = (Ret text, st')
    /\ trace st' = trace st ++
         [EvGenerate (translate_prompt text); EvSleep 1;
          EvGenerate (translate_prompt text); EvSleep 2;
          EvGenerate (translate_prompt text); EvSleep 4]
    /\ count is_generate (trace st') = count is_generate (trace st) + 3
    /\ (slept (trace st') = slept (trace st) + (1 + 2 + 4))%Z
    /\ (slept (trace st') - slept (trace st) >= 1 + 2 * 1)%Z
    /\ files st' = files st /\ heap st' = heap st
    /\ forall acc result,
         authors result <> [] ->
         replace_char NL " " (summary result) = text ->
         process_result w (Some self) acc result st =
         record_paper w (base_url ++ short_id result)
           (paper_key_of (short_id result))
           (arxiv_url ++ lit "abs/" ++ paper_key_of (short_id result))
           (updated result) (title result) text acc st'.
Proof.
  intros H. eexists. split; [apply translate_all_fail, H|].
  cbn [trace files heap].
  split; [reflexivity|].
  split; [rewrite count_app; reflexivity|].
  split; [rewrite slept_app; reflexivity|].
  split; [rewrite slept_app; cbn [slept]; lia|].
  split; [reflexivity|]. split; [reflexivity|].
  intros [content web] result Hauth Htext.
  unfold process_result. rewrite Htext.
  destruct (authors result) as [|a rest]; [contradiction|].
  unfold get_first_author, bind at 1, ret at 1.
  unfold bind at 1.
  unfold translate_retry_while, NUM_RETRIES.
  change (0 <? 3) with true. cbv iota.
  unfold try_except. rewrite (translate_all_fail w self text st H).
  reflexivity.
Qed.

Lemma translate_fallback_after_three_attempts_witness :
  (forall n, generate_content world_down n
               (translate_prompt (lit "An abstract.")) = None)
  /\ exists st',
       translate world_down {| api_key := lit "k" |} (lit "An abstract.")
         st_empty = (Ret (lit "An abstract."), st')
       /\ (slept (trace st') - slept (trace st_empty) >= 1 + 2 * 1)%Z.
Proof.
  split; [intros n; reflexivity|].
  destruct (translate_fallback_after_three_attempts world_down
              {| api_key := lit "k" |} (lit "An abstract.") st_empty
              (fun n => eq_refl))
    as [st' [Ht [_ [_ [_ [Hs _]]]]]].
  exists st'. split; [exact Ht | exact Hs].
Defined.

(** ** The math-spacing step *)

Lemma last_dollar_bounds (s : str) (k j : nat) :
  last_dollar_in_line s k = Some j ->
  k < j <= k + length s /\ nth_error s (j - 1 - k) = Some "$"%char.
Proof.
  revert k j. induction s as [|c s IH]; intros k j; simpl.
  - discriminate.
  - destruct (Ascii.eqb c NL); [discriminate|].
    destruct (last_dollar_in_line s (S k)) as [j'|] eqn:E.
    + intros [= <-]. destruct (IH _ _ E) as [Hb Hn]. split; [lia|].
      replace (j' - 1 - k) with (S (j' - 1 - S k)) by lia. exact Hn.
    + destruct (Ascii.eqb c "$") eqn:Ec; [|discriminate].
      intros [= <-]. split; [lia|].
      replace (S k - 1 - k) with 0 by lia. simpl.
      apply Ascii.eqb_eq in Ec. now subst.
Qed.

(** The span that [re_search_math] reports starts and ends with a
    dollar sign and lies within the string. *)
Lemma re_search_math_from_bounds (s : str) (k i j : nat) :
  re_search_math_from s k = Some (i, j) ->
  k <= i /\ i + 2 <= j <= k + length s
  /\ nth_error s (i - k) = Some "$"%char
  /\ nth_error s (j - 1 - k) = Some "$"%char.
Proof.
  revert k i j. induction s as [|c s IH]; intros k i j; simpl.
  - discriminate.
  - assert (Hrec : re_search_math_from s (S k) = Some (i, j) ->
                   k <= i /\ i + 2 <= j <= k + S (length s)
                   /\ nth_error (c :: s) (i - k) = Some "$"%char
                   /\ nth_error (c :: s) (j - 1 - k) = Some "$"%char).
    { intros E. destruct (IH _ _ _ E) as (H1 & H2 & H3 & H4).
      repeat split; try lia.
      - replace (i - k) with (S (i - S k)) by lia. exact H3.
      - replace (j - 1 - k) with (S (j - 1 - S k)) by lia. exact H4. }
    destruct (Ascii.eqb c "$") eqn:Ec; [|exact Hrec].
    destruct (last_dollar_in_line s (S k)) as [j'|] eqn:E; [|exact Hrec].
    intros [= <- <-]. destruct (last_dollar_bounds _ _ _ E) as [Hb Hn].
    repeat split; try lia.
    + replace (k - k) with 0 by lia. simpl.
      apply Ascii.eqb_eq in Ec. now subst.
    + replace (j' - 1 - k) with (S (j' - 1 - S k)) by lia. exact Hn.
Qed.

Lemma last_dollar_none (s : str) (k j : nat) :
  last_dollar_in_line s k = None ->
  nth_error s j = Some "$"%char ->
  exists m, m < j /\ nth_error s m = Some NL.
Proof.
  revert k j. induction s as [|c s IH]; intros k j; simpl.
  - destruct j; discriminate.
  - destruct (Ascii.eqb c NL) eqn:En.
    + intros _ Hj. apply Ascii.eqb_eq in En. subst c.
      destruct j as [|j]; [discriminate|].
      exists 0. split; [lia | reflexivity].
    + destruct (last_dollar_in_line s (S k)) eqn:E; [discriminate|].
      destruct (Ascii.eqb c "$") eqn:Ec; [discriminate|].
      intros _ Hj. destruct j as [|j].
      * simpl in Hj. injection Hj as ->. discriminate.
      * destruct (IH _ _ E Hj) as [m [Hm Hnl]].
        exists (S m). split; [lia | exact Hnl].
Qed.

(** When [re_search_math] finds nothing, any two dollar signs of the
    string are separated by a newline: the string has no [$...$] span. *)
Lemma re_search_math_from_none (s : str) (k i j : nat) :
  re_search_math_from s k = None ->
  i < j ->
  nth_error s i = Some "$"%char -> nth_error s j = Some "$"%char ->
  exists m, i < m < j /\ nth_error s m = Some NL.
Proof.
  revert k i j. induction s as [|c s IH]; intros k i j; simpl.
  - destruct i; discriminate.
  - intros Hnone Hij Hi Hj.
    destruct j as [|j]; [lia|]. simpl in Hj.
    destruct i as [|i].
    + simpl in Hi. injection Hi as ->. simpl in Hnone.
      destruct (last_dollar_in_line s (S k)) eqn:E; [discriminate|].
      destruct (last_dollar_none _ _ _ E Hj) as [m [Hm Hnl]].
      exists (S m). split; [lia | exact Hnl].
    + simpl in Hi.
      assert (Hrec : re_search_math_from s (S k) = None).
      { destruct (Ascii.eqb c "$"); [|exact Hnone].
        destruct (last_dollar_in_line s (S k)); [discriminate | exact Hnone]. }
      assert (Hlt : i < j) by lia.
      destruct (IH _ _ _ Hrec Hlt Hi Hj) as [m [Hm Hnl]].
      exists (S m). split; [lia | exact Hnl].
Qed.

Lemma index_last_firstn (s : str) (i : nat) :
  0 < i <= length s -> exists c, index_last (slice_to i s) = Ret c.
Proof.
  intros Hi. unfold index_last, slice_to.
  destruct (rev (firstn i s)) as [|c r] eqn:E.
  - apply (f_equal (@length ascii)) in E.
    rewrite length_rev, length_firstn in E. simpl in E. lia.
  - now exists c.
Qed.

Lemma index_first_skipn (s : str) (j : nat) :
  j < length s -> exists c, index_first (slice_from j s) = Ret c.
Proof.
  intros Hj. unfold index_first, slice_from.
  destruct (skipn j s) as [|c r] eqn:E.
  - apply (f_equal (@length ascii)) in E.
    rewrite length_skipn in E. simpl in E. lia.
  - now exists c.
Qed.

(** C10. [pretty_math] returns its input unchanged when the line has no
    [$...$] match; when there is a match [(i, j)] it returns a string
    only if the match is strictly interior ([0 < i] and [j < len(s)]),
    and raises [IndexError] on the empty slice whenever the match begins
    at the first character or ends at the last one. *)
Theorem pretty_math_returns_iff_interior (s : str) :
  match re_search_math s with
  | None => pretty_math s = Ret s
  | Some (i, j) =>
      i + 2 <= j <= length s
      /\ (if (i =? 0) || (j =? length s)
          then pretty_math s = Raise IndexError
          else exists r, pretty_math s = Ret r)
  end.
Proof.
  unfold pretty_math.
  destruct (re_search_math s) as [[i j]|] eqn:E; [|reflexivity].
  unfold re_search_math in E.
  destruct (re_search_math_from_bounds _ _ _ _ E) as (_ & Hb & _ & _).
  split; [lia|].
  destruct (i =? 0) eqn:Ei.
  - apply Nat.eqb_eq in Ei. subst i. reflexivity.
  - apply Nat.eqb_neq in Ei.
    assert (Hi : 0 < i <= length s) by lia.
    destruct (index_last_firstn s i Hi) as [c ->].
    cbn [orb obind].
    destruct (j =? length s) eqn:Ej.
    + apply Nat.eqb_eq in Ej. subst j.
      unfold slice_from at 1. rewrite skipn_all. reflexivity.
    + apply Nat.eqb_neq in Ej.
      assert (Hj : j < length s) by lia.
      destruct (index_first_skipn s j Hj) as [c' ->].
      cbn [obind]. eexists. reflexivity.
Qed.

Lemma last_dollar_same_line (s : str) (k j m : nat) :
  last_dollar_in_line s k = Some j ->
  m < j - 1 - k -> nth_error s m <> Some NL.
Proof.
  revert k j m. induction s as [|c s IH]; intros k j m; simpl.
  - discriminate.
  - destruct (Ascii.eqb c NL) eqn:En; [discriminate|].
    destruct (last_dollar_in_line s (S k)) as [j'|] eqn:E.
    + intros [= <-] Hm. destruct m as [|m]; simpl.
      * intros [= ->]. discriminate.
      * apply (IH _ _ _ E). lia.
    + destruct (Ascii.eqb c "$"); [|discriminate].
      intros [= <-] Hm. lia.
Qed.

(** The two dollar signs of a reported span are on one line. *)
Lemma re_search_math_from_same_line (s : str) (k i j m : nat) :
  re_search_math_from s k = Some (i, j) ->
  i < m < j - 1 -> nth_error s (m - k) <> Some NL.
Proof.
  revert k i j m. induction s as [|c s IH]; intros k i j m; simpl.
  - discriminate.
  - assert (Hrec : re_search_math_from s (S k) = Some (i, j) ->
                   i < m < j - 1 -> nth_error (c :: s) (m - k) <> Some NL).
    { intros E Hm.
      destruct (re_search_math_from_bounds _ _ _ _ E) as (H1 & _).
      replace (m - k) with (S (m - S k)) by lia. simpl.
      now apply (IH _ _ _ _ E). }
    destruct (Ascii.eqb c "$") eqn:Ec; [|exact Hrec].
    destruct (last_dollar_in_line s (S k)) as [j'|] eqn:E; [|exact Hrec].
    intros [= <- <-] Hm.
    replace (m - k) with (S (m - S k)) by lia. simpl.
    apply (last_dollar_same_line _ _ _ _ E). lia.
Qed.

(** A line without two dollar signs on it is returned as it is. *)
Lemma pretty_math_without_pair (s : str) :
  (forall i j, i < j ->
     nth_error s i = Some "$"%char -> nth_error s j = Some "$"%char ->
     exists m, i < m < j /\ nth_error s m = Some NL) ->
  pretty_math s = Ret s.
Proof.
  intros H. unfold pretty_math.
  destruct (re_search_math s) as [[i j]|] eqn:E; [|reflexivity].
  exfalso. unfold re_search_math in E.
  destruct (re_search_math_from_bounds _ _ _ _ E) as (_ & Hb & Hi & Hj).
  rewrite Nat.sub_0_r in Hi, Hj.
  assert (Hlt : i < j - 1) by lia.
  destruct (H i (j - 1) Hlt Hi Hj) as [m [Hm Hnl]].
  apply (re_search_math_from_same_line _ _ _ _ m E Hm).
  now rewrite Nat.sub_0_r.
Qed.

(** ** Identity normalization *)

Lemma find_v_cons (c : ascii) (s : str) (i : Z) :
  find_from (lit "v") (c :: s) i
  = if Ascii.eqb "v" c then i else find_from (lit "v") s (i + 1)%Z.
Proof.
  change (lit "v") with ["v"%char]. cbn [find_from startswith].
  now destruct (Ascii.eqb "v" c).
Qed.

Lemma find_v_absent (s : str) (i : Z) :
  ~ In "v"%char s -> find_from (lit "v") s i = (-1)%Z.
Proof.
  revert i. induction s as [|c s IH]; intros i Hs; [reflexivity|].
  rewrite find_v_cons. destruct (Ascii.eqb "v" c) eqn:E.
  - apply Ascii.eqb_eq in E. subst c. exfalso. apply Hs. now left.
  - apply IH. intros H. apply Hs. now right.
Qed.

Lemma find_v_first (base rest : str) (i : Z) :
  ~ In "v"%char base ->
  find_from (lit "v") (base ++ "v"%char :: rest) i
  = (i + Z.of_nat (length base))%Z.
Proof.
  revert i. induction base as [|c base IH]; intros i Hb.
  - cbn [app length]. rewrite find_v_cons, Ascii.eqb_refl. lia.
  - cbn [app length]. rewrite find_v_cons.
    destruct (Ascii.eqb "v" c) eqn:E.
    + apply Ascii.eqb_eq in E. subst c. exfalso. apply Hb. now left.
    + rewrite IH by (intros H; apply Hb; now right). lia.
Qed.

(** An id without the letter [v] is its own key. *)
Lemma paper_key_of_unversioned (id : str) :
  ~ In "v"%char id -> paper_key_of id = id.
Proof.
  intros H. unfold paper_key_of, find. now rewrite find_v_absent.
Qed.

(** The key is what comes before the first [v]. *)
Lemma paper_key_of_versioned (base ver : str) :
  ~ In "v"%char base -> paper_key_of (base ++ "v"%char :: ver) = base.
Proof.
  intros H. unfold paper_key_of, find. rewrite find_v_first by exact H.
  destruct (0 + Z.of_nat (length base) =? -1)%Z eqn:E;
    [apply Z.eqb_eq in E; lia|].
  unfold slice_to. rewrite Z.add_0_l, Nat2Z.id.
  rewrite firstn_app, Nat.sub_diag, firstn_all. simpl. apply app_nil_r.
Qed.

Lemma first_v_split (s : str) :
  ~ In "v"%char s
  \/ exists a b, s = a ++ "v"%char :: b /\ ~ In "v"%char a.
Proof.
  induction s as [|c s IH].
  - left. simpl. tauto.
  - destruct (Ascii.eqb c "v") eqn:E.
    + apply Ascii.eqb_eq in E. subst c. right. exists [], s. simpl. tauto.
    + apply Ascii.eqb_neq in E. destruct IH as [IH | (a & b & -> & Ha)].
      * left. simpl. intros [H|H]; [congruence | contradiction].
      * right. exists (c :: a), b. split; [reflexivity|].
        simpl. intros [H|H]; [congruence | contradiction].
Qed.

(** Whatever the id, the key does not depend on what follows a [v]:
    two versions of one id always get the same key. *)
Lemma paper_key_of_version_independent (base ver1 ver2 : str) :
  paper_key_of (base ++ "v"%char :: ver1)
  = paper_key_of (base ++ "v"%char :: ver2).
Proof.
  destruct (first_v_split base) as [H | (a & b & -> & Ha)].
  - now rewrite !paper_key_of_versioned.
  - rewrite <- !app_assoc. simpl. now rewrite !paper_key_of_versioned.
Qed.

(** The marker is looked for from the left: an id of an old archive
    whose name has a [v] in it is cut at that [v]. *)
Lemma paper_key_of_first_v :
  paper_key_of (lit "solv-int/9901001v1") = lit "sol".
Proof. reflexivity. Qed.

(** C9.  The code looks for the version marker with [find("v")] and
    so cuts the id at its first [v], wherever that is.  An id of the old
    archive [solv-int] without version marker is not kept but cut to
    ["sol"], with a version marker it is cut to ["sol"] too and not to
    the id without its version, as the sibling [re_sub_version] of the
    repair pass does; two different papers of that archive so get one
    key: a harvest that delivers both returns a bucket with one record,
    that of the second paper, and [update_json_file] stores that one
    record. *)
Theorem first_v_cut_merges_distinct_papers :
  paper_key_of (lit "solv-int/9901001") = lit "sol"
  /\ paper_key_of (lit "solv-int/9901001v1") = lit "sol"
  /\ paper_key_of (lit "solv-int/9901002v1") = lit "sol"
  /\ re_sub_version (lit "solv-int/9901001v1") = lit "solv-int/9901001"
  /\ exists st1 st2,
       get_daily_papers world_old_style (lit "solitons") (lit "abs:soliton")
         2 None st_fresh
       = (Ret ([(lit "solitons", 0)], [(lit "solitons", 1)]), st1)
       /\ deref (heap st1) 0
          = [(lit "sol",
              row_without_link (lit "1999-01-06") (lit "Paper T") (lit "sol")
                (lit "http://arxiv.org/abs/sol") (lit "Abstract T"))]
       /\ update_json_file (lit "docs/store.json") [[(lit "solitons", 0)]] st1
          = (Ret tt, st2)
       /\ files st2 (lit "docs/store.json")
          = Json [(lit "solitons",
                   [(lit "sol",
                     row_without_link (lit "1999-01-06") (lit "Paper T")
                       (lit "sol") (lit "http://arxiv.org/abs/sol")
                       (lit "Abstract T"))])].
Proof.
  split; [reflexivity|]. split; [reflexivity|]. split; [reflexivity|].
  split; [vm_compute; reflexivity|].
  eexists. eexists.
  split; [vm_compute; reflexivity|].
  split; [vm_compute; reflexivity|].
  split; [vm_compute; reflexivity|].
  vm_compute. reflexivity.
Qed.

(** ** Loading the store *)

(** Counterexample to C3: with no store file, loading raises
    [FileNotFoundError]; the merge, the repair pass and the renderer all
    stop with that exception instead of going on with an empty store. *)
Lemma absent_store_file_is_fatal :
  files st_empty (lit "store.json") = Absent
  /\ read_store (lit "store.json") st_empty
     = (Raise FileNotFoundError, st_empty)
  /\ update_json_file (lit "store.json") [] st_empty
     = (Raise FileNotFoundError, st_empty)
  /\ update_paper_links world_down (lit "store.json") st_empty
     = (Raise FileNotFoundError, st_empty)
  /\ json_to_md world_down (lit "store.json") (lit "README.md")
       false true true true st_empty
     = (Raise FileNotFoundError, st_empty).
Proof.
  repeat split; reflexivity.
Qed.

(** C3, amended.  Loading yields the empty store only for a file that
    exists and is empty.  A file that is absent makes [open] raise
    [FileNotFoundError], a non-empty text that is not JSON makes
    [json.loads] raise [JSONDecodeError]; neither is caught, so
    [update_json_file], [update_paper_links] and [json_to_md] end with
    the exception and write nothing. *)
Theorem store_loading (w : World) (filename md_filename : str)
    (data_dict : list (dict addr)) (to_web use_title use_tc use_b2t : bool)
    (st : state) :
  match files st filename with
  | Text [] => read_store filename st = (Ret [], st)
  | Json d => read_store filename st = (Ret d, st)
  | Absent =>
      read_store filename st = (Raise FileNotFoundError, st)
      /\ update_json_file filename data_dict st
         = (Raise FileNotFoundError, st)
      /\ update_paper_links w filename st = (Raise FileNotFoundError, st)
      /\ json_to_md w filename md_filename to_web use_title use_tc use_b2t st
         = (Raise FileNotFoundError, st)
  | Text (_ :: _) =>
      read_store filename st = (Raise JSONDecodeError, st)
      /\ update_json_file filename data_dict st
         = (Raise JSONDecodeError, st)
      /\ update_paper_links w filename st = (Raise JSONDecodeError, st)
      /\ json_to_md w filename md_filename to_web use_title use_tc use_b2t st
         = (Raise JSONDecodeError, st)
  end.
Proof.
  unfold update_json_file, update_paper_links, json_to_md, bind, read_store.
  destruct (files st filename) as [|[|c s]|d]; repeat split; reflexivity.
Qed.

(** ** A failing registry lookup *)

(** Counterexample to C2: one harvested paper whose registry lookup
    fails.  The registry is asked once, the error is logged, and the
    returned [content] and [content_to_web] are empty: the paper is not
    among the records of the run. *)
Lemma failed_lookup_drops_paper :
  get_daily_papers world_registry_down (lit "nerf") (lit "abs:nerf") 2 None
    st_empty
  = (Ret ([(lit "nerf", 0)], [(lit "nerf", 1)]),
     {| files := files st_empty;
        heap := [[]; []];
        trace := [EvSearch (lit "abs:nerf") 2;
                  EvGet (base_url ++ lit "2401.00001v1");
                  EvLogError (RequestError (lit "unreachable"))
                    (lit "2401.00001")] |}).
Proof.
  reflexivity.
Qed.

(** C2, amended.  When the registry lookup for a paper fails, it is not
    retried: after the single request the exception is logged with the
    paper's key and the paper is left out of [content] and
    [content_to_web], which stay as they were; the loop over the results
    goes on with the next paper. *)
Theorem lookup_failure_omits_paper (w : World)
    (code_url paper_key paper_url update_time paper_title paper_abstract : str)
    (acc : bucket * bucket) (e : exn) (st : state) :
  registry_get w (count is_get (trace st)) code_url = inl e ->
  exists st',
    record_paper w code_url paper_key paper_url update_time paper_title
      paper_abstract acc st = (Ret acc, st')
    /\ trace st' = trace st ++ [EvGet code_url; EvLogError e paper_key]
    /\ count is_get (trace st') = count is_get (trace st) + 1
    /\ files st' = files st /\ heap st' = heap st
    /\ forall result,
         authors result <> [] ->
         code_url = base_url ++ short_id result ->
         paper_key = paper_key_of (short_id result) ->
         process_result w None acc result st = (Ret acc, st').
Proof.
  intros H.
  assert (Hrec : forall url t ti ab,
    record_paper w code_url paper_key url t ti ab acc st
    = (Ret acc, {| files := files st; heap := heap st;
                   trace := trace st ++ [EvGet code_url;
                                         EvLogError e paper_key] |})).
  { intros. destruct acc as [content web].
    unfold record_paper, try_except, bind at 1, requests_get_json.
    rewrite H. unfold bind, log_error, emit, ret. cbn [trace files heap].
    now rewrite <- app_assoc. }
  eexists. split; [apply Hrec|]. cbn [trace files heap].
  split; [reflexivity|]. split; [rewrite count_app; reflexivity|].
  split; [reflexivity|]. split; [reflexivity|].
  intros result Hauth -> ->. unfold process_result.
  destruct (authors result) as [|a rest]; [contradiction|].
  unfold get_first_author, bind, ret. apply Hrec.
Qed.

Lemma lookup_failure_omits_paper_witness :
  registry_get world_registry_down (count is_get (trace st_empty))
    (base_url ++ lit "2401.00001v1") = inl (RequestError (lit "unreachable"))
  /\ exists st',
       process_result world_registry_down None ([], [])
         (paper "2401.00001v1" "A title" "An abstract." "2024-01-03") st_empty
       = (Ret ([], []), st').
Proof.
  split; [reflexivity|].
  destruct (lookup_failure_omits_paper world_registry_down
              (base_url ++ lit "2401.00001v1") (lit "2401.00001")
              [] [] [] [] ([], []) (RequestError (lit "unreachable"))
              st_empty eq_refl)
    as [st' (_ & _ & _ & _ & _ & Hp)].
  exists st'. apply Hp; [discriminate | reflexivity | reflexivity].
Defined.

(** ** The harvest loop *)

Section Locality.

Variable w : World.

Lemma local_ret {A} (a : A) : local_step (ret a).
Proof. intros st o st' [= <- <-]. auto. Qed.

Lemma local_raise {A} (e : exn) : local_step (@raise A e).
Proof. intros st o st' [= <- <-]. auto. Qed.

Lemma local_lift {A} (x : outcome A) : local_step (lift x).
Proof. intros st o st' [= <- <-]. auto. Qed.

Lemma local_bind {A B} (m : M A) (k : A -> M B) :
  local_step m -> (forall a, local_step (k a)) -> local_step (bind m k).
Proof.
  intros Hm Hk st o st'. unfold bind.
  destruct (m st) as [[a|e] st1] eqn:E.
  - intros H. destruct (Hm _ _ _ E) as (F1 & G1 & C1).
    destruct (Hk _ _ _ _ H) as (F2 & G2 & C2). repeat split; congruence.
  - intros [= <- <-]. exact (Hm _ _ _ E).
Qed.

Lemma local_try {A} (m : M A) (h : exn -> M A) :
  local_step m -> (forall e, local_step (h e)) -> local_step (try_except m h).
Proof.
  intros Hm Hh st o st'. unfold try_except.
  destruct (m st) as [[a|e] st1] eqn:E.
  - intros [= <- <-]. exact (Hm _ _ _ E).
  - intros H. destruct (Hm _ _ _ E) as (F1 & G1 & C1).
    destruct (Hh _ _ _ _ H) as (F2 & G2 & C2). repeat split; congruence.
Qed.

Lemma local_foldM {A B} (f : A -> B -> M A) (l : list B) (a : A) :
  (forall a x, local_step (f a x)) -> local_step (foldM f l a).
Proof.
  intros Hf. revert a. induction l as [|x l IH]; intros a; simpl.
  - apply local_ret.
  - apply local_bind; [apply Hf | exact IH].
Qed.

Lemma local_emit (e : event) : is_search e = false -> local_step (emit e).
Proof.
  intros He st o st' [= <- <-]. cbn [files heap trace].
  split; [reflexivity|]. split; [reflexivity|].
  rewrite count_app. unfold count at 2. simpl. rewrite He. simpl. lia.
Qed.

Lemma local_model_generate (p : str) : local_step (model_generate w p).
Proof.
  intros st o st' [= <- <-]. cbn [files heap trace].
  split; [reflexivity|]. split; [reflexivity|].
  rewrite count_app. unfold count at 2. simpl. lia.
Qed.

Lemma local_requests_get_json (url : str) :
  local_step (requests_get_json w url).
Proof.
  intros st o st'. unfold requests_get_json.
  destruct (registry_get w _ url); intros [= <- <-]; cbn [files heap trace];
    (split; [reflexivity|]); (split; [reflexivity|]);
    rewrite count_app; unfold count at 2; simpl; lia.
Qed.

Lemma local_return_local (r : option str) : local_step (return_local r).
Proof. destruct r; [apply local_ret | apply local_raise]. Qed.

Lemma local_translate_while (fuel : nat) (text : str) (rc : nat) (rs : Z)
    (r : option str) :
  local_step (translate_while w fuel text rc rs r).
Proof.
  revert rc rs r. induction fuel as [|fuel IH]; intros rc rs r; simpl.
  - apply local_return_local.
  - destruct (rc <? NUM_RETRIES); [|apply local_return_local].
    apply local_bind; [apply local_model_generate|].
    intros [t|]; [apply local_return_local|].
    apply local_bind; [now apply local_emit|]. intros _. apply IH.
Qed.

Lemma local_translate_retry_while (fuel : nat) (t : Translater) (text : str)
    (rc : nat) (rs : Z) :
  local_step (translate_retry_while w fuel t text rc rs).
Proof.
  revert rc rs. induction fuel as [|fuel IH]; intros rc rs; simpl.
  - apply local_ret.
  - destruct (rc <? NUM_RETRIES); [|apply local_ret].
    apply local_try; [apply local_translate_while|].
    intros _. apply local_bind; [now apply local_emit|]. intros _. apply IH.
Qed.

Lemma local_record_paper
    (code_url key url time title_ abstract : str) (acc : bucket * bucket) :
  local_step (record_paper w code_url key url time title_ abstract acc).
Proof.
  destruct acc as [content web]. unfold record_paper.
  apply local_try.
  - apply local_bind; [apply local_requests_get_json|]. intros r.
    apply local_bind.
    + destruct r as [|u|]; [apply local_ret | apply local_ret
                           | apply local_raise].
    + intros [u|]; apply local_ret.
  - intros e. apply local_bind; [now apply local_emit|].
    intros _. apply local_ret.
Qed.

Lemma local_process_result (translater : option Translater)
    (acc : bucket * bucket) (result : Result) :
  local_step (process_result w translater acc result).
Proof.
  unfold process_result. apply local_bind.
  - destruct (authors result); [apply local_raise | apply local_ret].
  - intros _. apply local_bind.
    + destruct translater; [apply local_translate_retry_while
                           | apply local_ret].
    + intros a. apply local_record_paper.
Qed.

(** One call of [get_daily_papers] is one search; it writes no file.
    When it returns, the two dicts it has built are the two newest
    objects of the heap, and [content] is a dict. *)
Lemma process_result_wf (translater : option Translater)
    (acc acc' : bucket * bucket) (result : Result) (st st' : state) :
  Dict.wf (fst acc) = true ->
  process_result w translater acc result st = (Ret acc', st') ->
  Dict.wf (fst acc') = true.
Proof.
  intros Hwf. unfold process_result. unfold bind at 1.
  destruct (get_first_author (authors result) st) as [[a|e] st1];
    [|discriminate].
  unfold bind at 1.
  match goal with
  | |- context [match ?m st1 with _ => _ end] =>
      destruct (m st1) as [[abstract|e] st2]; [|discriminate]
  end.
  destruct acc as [content web]. unfold record_paper, try_except, bind.
  destruct (requests_get_json w _ st2) as [[r|e] st3].
  - destruct (official_url r st3) as [[[u|]|e] st4].
    + intros [= <- <-]. now apply DictFacts.wf_set.
    + intros [= <- <-]. now apply DictFacts.wf_set.
    + unfold log_error, emit, ret. intros [= <- <-]. exact Hwf.
  - unfold log_error, emit, ret. intros [= <- <-]. exact Hwf.
Qed.

Lemma process_results_wf (translater : option Translater)
    (results : list Result) :
  forall (acc acc' : bucket * bucket) (st st' : state),
  Dict.wf (fst acc) = true ->
  foldM (process_result w translater) results acc st = (Ret acc', st') ->
  Dict.wf (fst acc') = true.
Proof.
  induction results as [|r results IH]; intros acc acc' st st' Hwf.
  - now intros [= <- <-].
  - cbn [foldM]. unfold bind.
    destruct (process_result w translater acc r st) as [[acc1|e] st1] eqn:E;
      [|discriminate].
    apply IH. exact (process_result_wf _ _ _ _ _ _ Hwf E).
Qed.

Lemma get_daily_papers_one_search (topic query : str) (n : nat)
    (translater : option Translater) (st : state) o st' :
  get_daily_papers w topic query n translater st = (o, st') ->
  files st' = files st
  /\ count is_search (trace st') = count is_search (trace st) + 1
  /\ forall data data_web,
       o = Ret (data, data_web) ->
       exists content content_to_web,
         data = [(topic, length (heap st))]
         /\ heap st' = heap st ++ [content; content_to_web]
         /\ Dict.wf content = true.
Proof.
  unfold get_daily_papers, bind at 1, search_results.
  destruct (arxiv_results w _ query n) as [results failure].
  unfold bind at 1.
  destruct (foldM (process_result w translater) results ([], []) _)
    as [[[content web]|e] st1] eqn:E.
  - assert (L : local_step
              (foldM (process_result w translater) results ([], []))).
    { apply local_foldM. intros. apply local_process_result. }
    destruct (L _ _ _ E) as (F & G & C). cbn [files heap trace] in F, G, C.
    rewrite count_app in C. change (count is_search [_]) with 1 in C.
    assert (Hwf : Dict.wf (fst (content, web)) = true).
    { apply (process_results_wf _ _ ([], []) _ _ _ eq_refl E). }
    cbn [fst] in Hwf.
    destruct failure as [e|].
    + intros [= <- <-]. split; [exact F|]. split; [exact C|]. discriminate.
    + unfold bind, alloc, ret. cbn [files heap trace].
      intros [= <- <-]. cbn [files heap trace].
      split; [exact F|]. split; [exact C|].
      intros data data_web [= <- <-]. exists content, web.
      rewrite G, <- app_assoc. auto.
  - assert (L : local_step
              (foldM (process_result w translater) results ([], []))).
    { apply local_foldM. intros. apply local_process_result. }
    destruct (L _ _ _ E) as (F & G & C). cbn [files heap trace] in F, G, C.
    rewrite count_app in C. change (count is_search [_]) with 1 in C.
    intros [= <- <-]. split; [exact F|]. split; [exact C|]. discriminate.
Qed.

(** An error of the arXiv client leaves [get_daily_papers] as an
    exception once the delivered results are processed. *)
Lemma get_daily_papers_search_error (topic query : str) (n : nat)
    (translater : option Translater) (st : state) results e :
  arxiv_results w (count is_search (trace st)) query n = (results, Some e) ->
  exists e' st', get_daily_papers w topic query n translater st
                 = (Raise e', st').
Proof.
  intros Hs. unfold get_daily_papers, bind at 1, search_results.
  rewrite Hs. unfold bind.
  destruct (foldM _ results _ _) as [[[c c'] | e'] st'].
  - now exists e, st'.
  - now exists e', st'.
Qed.

Lemma harvest_loop_searches (n : nat) (translater : option Translater)
    (l : dict str) col (st : state) col' st' :
  foldM (harvest_topic w n translater) l col st = (Ret col', st') ->
  files st' = files st
  /\ count is_search (trace st') = count is_search (trace st) + length l.
Proof.
  revert col st. induction l as [|[topic query] l IH]; intros col st; simpl.
  - intros [= <- <-]. split; [reflexivity | lia].
  - unfold bind at 1. destruct col as [dc dcw]. unfold harvest_topic at 1.
    unfold bind at 1.
    destruct (get_daily_papers w topic query n translater st)
      as [[[data data_web]|e] st1] eqn:E; [|discriminate].
    unfold ret at 1. intros H.
    destruct (get_daily_papers_one_search _ _ _ _ _ _ _ E) as (F1 & C1 & _).
    destruct (IH _ _ H) as [F2 C2]. split; [congruence | lia].
Qed.

Lemma harvest_loop_abort (n : nat) (translater : option Translater)
    (pre post : dict str) (topic query : str) col (st : state) col1 st1 e st2 :
  foldM (harvest_topic w n translater) pre col st = (Ret col1, st1) ->
  get_daily_papers w topic query n translater st1 = (Raise e, st2) ->
  foldM (harvest_topic w n translater) (pre ++ (topic, query) :: post) col st
  = (Raise e, st2).
Proof.
  revert col st. induction pre as [|[t q] pre IH]; intros col st; simpl.
  - intros [= <- <-] H. unfold bind. destruct col as [dc dcw].
    unfold harvest_topic, bind. now rewrite H.
  - unfold bind at 1. intros H1 H2. unfold bind at 1.
    destruct (harvest_topic w n translater col (t, q) st) as [[c|e'] st'];
      [|discriminate].
    now apply IH.
Qed.

End Locality.

(** Counterexample to C4: two topics, the search for the first one
    fails.  [demo] ends with that error after the one search: the second
    topic is never searched and nothing is written. *)
Lemma failed_harvest_stops_the_run :
  demo world_first_search_fails None config_two_topics st_fresh
  = (Raise (SearchError (lit "HTTP 503")),
     {| files := files st_fresh; heap := [];
        trace := [EvSearch (lit "abs:nerf") 2] |}).
Proof.
  reflexivity.
Qed.

(** C4, amended.  Nothing in [demo] catches a failure of the harvest
    call.  When [get_daily_papers] raises for a topic, the exception
    leaves [demo]: the run ends there, the topics that follow are not
    searched, and no store or report file is written. *)
Theorem harvest_failure_aborts_run (w : World)
    (translater : option Translater) (config : Config)
    (pre post : dict str) (topic query : str)
    (col : list (dict addr) * list (dict addr)) (e : exn)
    (st st1 st2 : state) :
  cfg_update_paper_links config = false ->
  kv config = pre ++ (topic, query) :: post ->
  foldM (harvest_topic w (max_results config) translater) pre ([], []) st
  = (Ret col, st1) ->
  get_daily_papers w topic query (max_results config) translater st1
  = (Raise e, st2) ->
  demo w translater config st = (Raise e, st2)
  /\ files st2 = files st
  /\ count is_search (trace st2)
     = count is_search (trace st) + length pre + 1.
Proof.
  intros Hupd Hkv Hpre Hfail.
  destruct (harvest_loop_searches _ _ _ _ _ _ _ _ Hpre) as [F1 C1].
  destruct (get_daily_papers_one_search _ _ _ _ _ _ _ _ Hfail)
    as (F2 & C2 & _).
  split; [|split; [congruence | lia]].
  unfold demo. rewrite Hupd, Hkv. cbn [negb]. unfold bind at 1.
  now rewrite (harvest_loop_abort _ _ _ _ _ _ _ _ _ _ _ _ _ Hpre Hfail).
Qed.

Lemma harvest_failure_aborts_run_witness :
  get_daily_papers world_first_search_fails (lit "nerf") (lit "abs:nerf") 2
    None st_fresh
  = (Raise (SearchError (lit "HTTP 503")),
     {| files := files st_fresh; heap := [];
        trace := [EvSearch (lit "abs:nerf") 2] |})
  /\ count is_search [EvSearch (lit "abs:nerf") 2] = 1.
Proof.
  split; [reflexivity|].
  exact (proj2 (proj2
    (harvest_failure_aborts_run world_first_search_fails None
       config_two_topics [] [(lit "OCR", lit "abs:ocr")]
       (lit "nerf") (lit "abs:nerf") ([], [])
       (SearchError (lit "HTTP 503")) st_fresh st_fresh
       {| files := files st_fresh; heap := [];
          trace := [EvSearch (lit "abs:nerf") 2] |}
       eq_refl eq_refl eq_refl eq_refl))).
Defined.

(** ** The order of the rendered rows *)

Lemma ltb_asym (a b : str) : ltb a b = true -> ltb b a = false.
Proof.
  revert b. induction a as [|x a IH]; intros [|y b]; simpl;
    try discriminate; try reflexivity.
  intros H. apply orb_true_iff in H as [H|H].
  - apply Nat.ltb_lt in H.
    replace (nat_of_ascii y <? nat_of_ascii x) with false
      by (symmetry; apply Nat.ltb_ge; lia).
    replace (nat_of_ascii y =? nat_of_ascii x) with false
      by (symmetry; apply Nat.eqb_neq; lia).
    reflexivity.
  - apply andb_true_iff in H as [H1 H2]. apply Nat.eqb_eq in H1.
    rewrite H1, Nat.ltb_irrefl, Nat.eqb_refl. simpl. now apply IH.
Qed.

Lemma leb_total (a b : str) : leb a b = false -> leb b a = true.
Proof.
  unfold leb. rewrite negb_false_iff, negb_true_iff. apply ltb_asym.
Qed.

Lemma insert_desc_perm (k : str) (l : list str) :
  Permutation (insert_desc k l) (k :: l).
Proof.
  induction l as [|x l IH]; simpl; [reflexivity|].
  destruct (leb x k); [reflexivity|].
  rewrite IH. apply perm_swap.
Qed.

Lemma sort_reverse_perm (l : list str) : Permutation (sort_reverse l) l.
Proof.
  induction l as [|x l IH]; simpl; [reflexivity|].
  now rewrite insert_desc_perm, IH.
Qed.

(** Descending: no element is smaller than its successor. *)
Lemma insert_desc_sorted (k : str) (l : list str) :
  Sorted (fun a b => leb b a = true) l ->
  Sorted (fun a b => leb b a = true) (insert_desc k l).
Proof.
  induction l as [|x l IH]; simpl; intros Hs.
  - repeat constructor.
  - destruct (leb x k) eqn:E.
    + constructor; [exact Hs | now constructor].
    + inversion Hs as [|? ? Hl Hhd]; subst.
      constructor; [now apply IH|].
      destruct l as [|y l]; simpl.
      * constructor. now apply leb_total.
      * destruct (leb y k).
        -- constructor. now apply leb_total.
        -- inversion Hhd; subst. now constructor.
Qed.

Lemma sort_reverse_sorted (l : list str) :
  Sorted (fun a b => leb b a = true) (sort_reverse l).
Proof.
  induction l as [|x l IH]; simpl; [constructor|].
  now apply insert_desc_sorted.
Qed.

Lemma sort_papers_fold (papers : bucket) (ks : list str) (out : bucket) :
  NoDup ks ->
  (forall k, In k ks -> Dict.mem out k = false /\ Dict.mem papers k = true) ->
  let r := fold_left
             (fun output key =>
                match Dict.get papers key with
                | Some v => Dict.set output key v
                | None => output
                end) ks out in
  Dict.keys r = Dict.keys out ++ ks
  /\ forall k, In k ks -> Dict.get r k = Dict.get papers k.
Proof.
  revert out. induction ks as [|x ks IH]; intros out Hnd Hks; simpl.
  - split; [now rewrite app_nil_r | tauto].
  - inversion Hnd as [|? ? Hx Hnd']; subst.
    destruct (Hks x (or_introl eq_refl)) as [Hout Hin].
    unfold Dict.mem in Hin.
    destruct (Dict.get papers x) as [v|] eqn:Ev; [|discriminate].
    assert (Hks' : forall k, In k ks ->
              Dict.mem (Dict.set out x v) k = false
              /\ Dict.mem papers k = true).
    { intros k Hk. destruct (Hks k (or_intror Hk)) as [H1 H2].
      split; [|exact H2]. rewrite DictFacts.mem_set, H1.
      replace (eqb k x) with false; [reflexivity|]. symmetry.
      apply eqb_neq. intros ->. contradiction. }
    destruct (IH (Dict.set out x v) Hnd' Hks') as [Hkeys Hget].
    split.
    + rewrite Hkeys, DictFacts.keys_set, Hout, <- app_assoc. reflexivity.
    + intros k [<-|Hk]; [|now apply Hget].
      clear Hkeys Hget IH Hks Hks'.
      assert (G : forall ks out, ~ In x ks ->
        Dict.get (fold_left
             (fun output key =>
                match Dict.get papers key with
                | Some v => Dict.set output key v
                | None => output
                end) ks out) x = Dict.get out x).
      { clear. intros ks. induction ks as [|y ks IH]; intros out Hn; simpl;
          [reflexivity|].
        rewrite IH by (intros H; apply Hn; now right).
        destruct (Dict.get papers y); [|reflexivity].
        apply DictFacts.get_set_other. intros ->. apply Hn. now left. }
      rewrite G by exact Hx. rewrite DictFacts.get_set_same. now symmetry.
Qed.

(** [sort_papers] orders a bucket by canonical id, largest id first; the
    records themselves, and so their dates, play no part. *)
Lemma sort_papers_by_key (papers : bucket) :
  Dict.wf papers = true ->
  Dict.keys (sort_papers papers) = sort_reverse (Dict.keys papers)
  /\ Sorted (fun a b => leb b a = true) (Dict.keys (sort_papers papers))
  /\ forall k, Dict.get (sort_papers papers) k = Dict.get papers k.
Proof.
  intros Hwf. apply DictFacts.nodup_keys_spec in Hwf.
  pose proof (sort_reverse_perm (Dict.keys papers)) as Hp.
  assert (Hnd : NoDup (sort_reverse (Dict.keys papers))).
  { apply (Permutation_NoDup (Permutation_sym Hp) Hwf). }
  assert (Hks : forall k, In k (sort_reverse (Dict.keys papers)) ->
            Dict.mem (@nil (str * str)) k = false
            /\ Dict.mem papers k = true).
  { intros k Hk. split; [reflexivity|]. apply DictFacts.mem_spec.
    now apply (Permutation_in _ Hp). }
  destruct (sort_papers_fold papers _ [] Hnd Hks) as [Hkeys Hget].
  change (Dict.keys (@nil (str * str)) ++ sort_reverse (Dict.keys papers))
    with (sort_reverse (Dict.keys papers)) in Hkeys.
  unfold sort_papers. split; [exact Hkeys|]. split.
  - rewrite Hkeys. apply sort_reverse_sorted.
  - intros k. destruct (Dict.mem papers k) eqn:E.
    + apply Hget. apply DictFacts.mem_spec in E.
      now apply (Permutation_in _ (Permutation_sym Hp)).
    + assert (Hnot : ~ In k (sort_reverse (Dict.keys papers))).
      { intros H. apply (Permutation_in _ Hp) in H.
        apply DictFacts.mem_spec in H. congruence. }
      rewrite <- Hkeys in Hnot. apply DictFacts.mem_false_spec in Hnot.
      unfold Dict.mem in Hnot, E.
      destruct (Dict.get papers k); [discriminate|].
      destruct (Dict.get _ k); [discriminate | reflexivity].
Qed.

(** C5 on the spec's own example.  The three records are updated on
    2024-01-03, 2024-01-01 and 2024-01-02; the report lists them as
    2024-01-02, 2024-01-01, 2024-01-03, which is the descending order of
    their ids and not of their dates. *)
Theorem render_order_follows_ids :
  Dict.values (sort_papers bucket_three_dates)
  = [stored_row "2401.00003" "Paper C" "Abstract C" "2024-01-02";
     stored_row "2401.00002" "Paper B" "Abstract B" "2024-01-01";
     stored_row "2401.00001" "Paper A" "Abstract A" "2024-01-03"]
  /\ exists st',
       json_to_md world_down (lit "docs/store.json") (lit "README.md")
         false true true true st_three_dates = (Ret tt, st')
       /\ files st' (lit "README.md")
          = Text (report_head
                  ++ stored_row "2401.00003" "Paper C" "Abstract C" "2024-01-02"
                  ++ stored_row "2401.00002" "Paper B" "Abstract B" "2024-01-01"
                  ++ stored_row "2401.00001" "Paper A" "Abstract A" "2024-01-03"
                  ++ report_foot).
Proof.
  split; [vm_compute; reflexivity|].
  eexists. split; [vm_compute; reflexivity|].
  vm_compute. reflexivity.
Qed.

(** ** The merge on values *)

Section MergeValues.
Import Dict DictFacts UpdateFacts.

Lemma buckets_wf_spec (l : list (str * bucket)) :
  buckets_wf l = true <-> forall k b, In (k, b) l -> wf b = true.
Proof.
  unfold buckets_wf. rewrite forallb_forall. split.
  - intros H k b Hin. exact (H _ Hin).
  - intros H [k b] Hin. exact (H _ _ Hin).
Qed.

Lemma get_in {V} (d : dict V) k v : get d k = Some v -> In (k, v) d.
Proof.
  induction d as [|[k' v'] d IH]; simpl; [discriminate|].
  destruct (eqb k k') eqn:E.
  - apply eqb_eq in E. intros [= <-]. subst. now left.
  - intros H. right. now apply IH.
Qed.

Lemma in_set {V} (d : dict V) k v k' v' :
  In (k', v') (set d k v) -> In (k', v') d \/ (k', v') = (k, v).
Proof.
  induction d as [|[k0 v0] d IH]; simpl.
  - intros [H|[]]. right. now symmetry.
  - destruct (eqb k k0) eqn:E; simpl.
    + apply eqb_eq in E. subst k0. intros [H|H]; [right | left; now right].
      now symmetry.
    + intros [H|H]; [left; now left|].
      destruct (IH H) as [H'|H']; [left; now right | now right].
Qed.

Lemma select_in (t : str) (entries : list (str * bucket)) (p : bucket) :
  In p (select t entries) <-> In (t, p) entries.
Proof.
  induction entries as [|[k q] es IH]; simpl; [tauto|].
  destruct (eqb t k) eqn:E.
  - apply eqb_eq in E. subst k. simpl. rewrite IH.
    split; intros [H|H]; auto; [left; congruence | injection H; auto].
  - rewrite IH. split; [auto|]. intros [H|H]; [|exact H].
    injection H as <- <-. now rewrite eqb_refl in E.
Qed.

(** The bucket that the merge leaves under a topic. *)
Lemma get_merge_store (entries : list (str * bucket)) (s : Store) (t : str) :
  get (merge_store s entries) t
  = match get s t with
    | Some b => Some (fold_left update (select t entries) b)
    | None =>
        match select t entries with
        | [] => None
        | p :: ps => Some (fold_left update ps p)
        end
    end.
Proof.
  unfold merge_store. revert s.
  induction entries as [|[k p] es IH]; intros s; simpl.
  - now destruct (get s t).
  - rewrite IH. destruct (eqb t k) eqn:E.
    + apply eqb_eq in E. subst k.
      destruct (get s t) as [b|]; now rewrite get_set_same.
    + assert (Hne : t <> k) by now apply eqb_neq.
      destruct (get s k) as [b|]; now rewrite get_set_other.
Qed.

Lemma keys_merge_store_present (entries : list (str * bucket)) (s : Store) :
  (forall k, In k (map fst entries) -> In k (keys s)) ->
  keys (merge_store s entries) = keys s.
Proof.
  unfold merge_store. revert s.
  induction entries as [|[k p] es IH]; intros s H; [reflexivity|].
  simpl. assert (Hk : In k (keys s)) by (apply H; now left).
  destruct (get_present _ _ Hk) as [b Hb]. rewrite Hb.
  assert (Hm : mem s k = true) by now apply mem_spec.
  rewrite IH; [now apply keys_set_present|].
  intros k' Hk'. rewrite keys_set_present by exact Hm. apply H. now right.
Qed.

Lemma in_keys_merge_store (entries : list (str * bucket)) (s : Store) t :
  In t (keys (merge_store s entries))
  <-> In t (keys s) \/ In t (map fst entries).
Proof.
  unfold merge_store. revert s.
  induction entries as [|[k p] es IH]; intros s; simpl; [tauto|].
  rewrite IH. destruct (get s k); rewrite in_keys_set; intuition congruence.
Qed.

Lemma wf_merge_store (entries : list (str * bucket)) (s : Store) :
  wf s = true -> wf (merge_store s entries) = true.
Proof.
  unfold merge_store. revert s.
  induction entries as [|[k p] es IH]; intros s H; [exact H|].
  simpl. apply IH. destruct (get s k); now apply wf_set.
Qed.

(** The bucket under a topic after the merge absorbs every bucket that
    the batch holds for the topic. *)
Lemma merged_bucket_absorbs (entries : list (str * bucket)) (s : Store)
    (t : str) (r_t : bucket) :
  store_wf s = true ->
  buckets_wf entries = true ->
  get (merge_store s entries) t = Some r_t ->
  wf r_t = true
  /\ Forall (fun p => wf p = true) (select t entries)
  /\ Forall (fun p => forall k, In k (keys p) -> In k (keys r_t))
       (select t entries)
  /\ forall k v, last_write (select t entries) k = Some v ->
                 get r_t k = Some v.
Proof.
  unfold store_wf. rewrite andb_true_iff. intros [Hs Hsb] He.
  rewrite buckets_wf_spec in Hsb, He.
  assert (Hsel : Forall (fun p => wf p = true) (select t entries)).
  { apply Forall_forall. intros p Hp. apply select_in in Hp. eauto. }
  rewrite get_merge_store.
  destruct (get s t) as [b|] eqn:Eb.
  - intros [= <-]. apply get_in in Eb. apply Hsb in Eb.
    split; [now apply wf_fold_update|]. split; [exact Hsel|]. split.
    + apply Forall_forall. intros p Hp k Hk.
      apply in_keys_fold_update. right. eauto.
    + intros k v Hl. rewrite get_fold_update by exact Hsel. now rewrite Hl.
  - destruct (select t entries) as [|p ps] eqn:Esel; [discriminate|].
    intros [= <-]. inversion Hsel as [|? ? Hp Hps]; subst.
    split; [now apply wf_fold_update|]. split; [exact Hsel|]. split.
    + constructor.
      * intros k Hk. apply in_keys_fold_update. now left.
      * apply Forall_forall. intros q Hq k Hk.
        apply in_keys_fold_update. right. eauto.
    + intros k v Hl. rewrite get_fold_update by exact Hps.
      simpl in Hl. destruct (last_write ps k); [exact Hl | exact Hl].
Qed.

Lemma select_replayed (entries entries' : list (str * bucket)) (r : Store)
    (t : str) (r_t : bucket) :
  Forall2 (fun e e' => fst e' = fst e
                       /\ (snd e' = snd e \/ get r (fst e) = Some (snd e')))
    entries entries' ->
  get r t = Some r_t ->
  Forall2 (fun p p' => p' = p \/ p' = r_t)
    (select t entries) (select t entries').
Proof.
  intros H Hr. induction H as [|[k p] [k' p'] es es' [Hk Hp] Hes IH];
    simpl; [constructor|].
  simpl in Hk, Hp. subst k'. destruct (eqb t k) eqn:E; [|exact IH].
  apply eqb_eq in E. subst k. constructor; [|exact IH].
  destruct Hp as [->|Hp]; [now left | right; congruence].
Qed.

Lemma replayed_keywords (entries entries' : list (str * bucket)) (r : Store) :
  Forall2 (fun e e' => fst e' = fst e
                       /\ (snd e' = snd e \/ get r (fst e) = Some (snd e')))
    entries entries' ->
  map fst entries' = map fst entries.
Proof.
  induction 1 as [|e e' es es' [Hk _] _ IH]; [reflexivity|].
  simpl. now rewrite Hk, IH.
Qed.

(** Merging again what has been merged changes nothing, also when some
    buckets of the batch have meanwhile become the merged buckets
    themselves. *)
Lemma merge_store_replayed (entries entries' : list (str * bucket))
    (s : Store) :
  store_wf s = true ->
  buckets_wf entries = true ->
  let r := merge_store s entries in
  Forall2 (fun e e' => fst e' = fst e
                       /\ (snd e' = snd e \/ get r (fst e) = Some (snd e')))
    entries entries' ->
  merge_store r entries' = r.
Proof.
  intros Hs He r Hrel.
  assert (Hwfs : wf s = true).
  { unfold store_wf in Hs. now apply andb_true_iff in Hs. }
  assert (Hkeys : map fst entries' = map fst entries)
    by exact (replayed_keywords _ _ _ Hrel).
  assert (Hin : forall k, In k (map fst entries') -> In k (keys r)).
  { intros k Hk. apply in_keys_merge_store. right. now rewrite <- Hkeys. }
  apply dict_ext.
  - apply nodup_keys_spec. apply wf_merge_store. now apply wf_merge_store.
  - now apply keys_merge_store_present.
  - intros t. rewrite get_merge_store.
    destruct (get r t) as [r_t|] eqn:Er.
    + destruct (merged_bucket_absorbs entries s t r_t Hs He Er)
        as (Hwf & Hsel & Hsub & Hlast).
      pose proof (select_replayed _ _ _ _ _ Hrel Er) as Hsel'.
      f_equal. apply fold_update_absorbed.
      * exact Hwf.
      * apply Forall_forall. intros p' Hp'.
        destruct (Forall2_in_left _ _ _ _ (Forall2_flip Hsel') Hp')
          as (p & Hp & [-> | ->]); [|exact Hwf].
        rewrite Forall_forall in Hsel. now apply Hsel.
      * apply Forall_forall. intros p' Hp'.
        destruct (Forall2_in_left _ _ _ _ (Forall2_flip Hsel') Hp')
          as (p & Hp & [-> | ->]); [|tauto].
        rewrite Forall_forall in Hsub. now apply Hsub.
      * now apply (last_write_replayed _ _ _ Hsel' Hsub Hlast).
    + destruct (select t entries') as [|p ps] eqn:Esel; [reflexivity|].
      exfalso. assert (Hp : In p (select t entries')) by (rewrite Esel; now left).
      apply select_in in Hp. apply (in_map fst) in Hp. simpl in Hp.
      apply Hin in Hp. destruct (get_present _ _ Hp) as [x Hx]. congruence.
Qed.

End MergeValues.

(** ** The merge on the heap *)

Section MergeHeap.
Import Dict DictFacts UpdateFacts.

Lemma length_heap_set (h : list bucket) (t : addr) (v : bucket) :
  length (heap_set h t v) = length h.
Proof.
  revert t. induction h as [|x h IH]; intros [|t]; simpl; auto.
Qed.

Lemma deref_heap_set_same (h : list bucket) (t : addr) (v : bucket) :
  t < length h -> deref (heap_set h t v) t = v.
Proof.
  unfold deref. revert t. induction h as [|x h IH]; intros [|t]; simpl;
    try lia; [reflexivity|].
  intros H. apply IH. lia.
Qed.

Lemma deref_heap_set_other (h : list bucket) (t a : addr) (v : bucket) :
  a <> t -> deref (heap_set h t v) a = deref h a.
Proof.
  unfold deref. revert t a. induction h as [|x h IH]; intros [|t] [|a] H;
    simpl; try reflexivity; try congruence.
  apply IH. congruence.
Qed.

Lemma deref_app_old (h h' : list bucket) (a : addr) :
  a < length h -> deref (h ++ h') a = deref h a.
Proof. intros H. unfold deref. now apply app_nth1. Qed.

Lemma deref_store_unchanged (h h' : list bucket) (jd : dict addr) :
  (forall a, In a (map snd jd) -> deref h' a = deref h a) ->
  deref_store h' jd = deref_store h jd.
Proof.
  intros H. unfold deref_store. apply map_ext_in. intros [k a] Hin.
  simpl. f_equal. apply H. now apply (in_map snd) in Hin.
Qed.

Lemma deref_entries_unchanged (h h' : list bucket) (items : list (str * addr)) :
  (forall a, In a (map snd items) -> deref h' a = deref h a) ->
  deref_entries h' items = deref_entries h items.
Proof. apply deref_store_unchanged. Qed.

Lemma get_deref_store (h : list bucket) (jd : dict addr) (k : str) :
  get (deref_store h jd) k = option_map (deref h) (get jd k).
Proof.
  induction jd as [|[k0 a0] jd IH]; simpl; [reflexivity|].
  now destruct (eqb k k0).
Qed.

Lemma keys_deref_store (h : list bucket) (jd : dict addr) :
  keys (deref_store h jd) = keys jd.
Proof.
  unfold keys, deref_store. rewrite map_map. reflexivity.
Qed.

Lemma get_in_range (jd : dict addr) k t :
  get jd k = Some t -> In t (map snd jd).
Proof.
  intros H. apply get_in in H. now apply (in_map snd) in H.
Qed.

(** Mutating the object of a topic is setting the topic's bucket. *)
Lemma deref_store_heap_set (h : list bucket) (jd : dict addr) k t v :
  get jd k = Some t ->
  NoDup (map snd jd) ->
  t < length h ->
  deref_store (heap_set h t v) jd = set (deref_store h jd) k v.
Proof.
  intros Hg Hnd Ht. induction jd as [|[k0 a0] jd IH]; simpl in *;
    [discriminate|].
  inversion Hnd as [|? ? Ha0 Hnd']; subst.
  destruct (eqb k k0) eqn:E.
  - injection Hg as ->. rewrite deref_heap_set_same by exact Ht.
    f_equal. apply deref_store_unchanged. intros a Ha.
    apply deref_heap_set_other. intros ->. contradiction.
  - rewrite IH by assumption. f_equal. f_equal.
    apply deref_heap_set_other. intros ->.
    apply Ha0. now apply get_in_range in Hg.
Qed.

Lemma nodup_addrs_spec (l : list addr) : nodup_addrs l = true <-> NoDup l.
Proof.
  induction l as [|a l IH]; simpl.
  - split; [constructor | reflexivity].
  - rewrite andb_true_iff, negb_true_iff, IH. split.
    + intros [Ha Hl]. constructor; [|exact Hl]. intros Hin.
      assert (existsb (Nat.eqb a) l = true).
      { apply existsb_exists. exists a. split; [exact Hin|].
        apply Nat.eqb_refl. }
      congruence.
    + intros H. inversion H as [|? ? Ha Hl]; subst. split; [|exact Hl].
      destruct (existsb (Nat.eqb a) l) eqn:E; [|reflexivity].
      apply existsb_exists in E as (x & Hx & Hax).
      apply Nat.eqb_eq in Hax. subst x. contradiction.
Qed.

(** The loops of [update_json_file] compute the merge on values, as long
    as the buckets of the batch are distinct objects that the store does
    not hold yet.  The objects outside the resulting store are as
    before; a bucket of the batch that is in the store is there under
    its own keyword. *)
Lemma merge_items_refine (items : list (str * addr)) :
  forall (jd : dict addr) (h : list bucket),
  NoDup (map snd items) ->
  NoDup (map snd jd) ->
  (forall a, In a (map snd items) -> ~ In a (map snd jd)) ->
  (forall a, In a (map snd items) \/ In a (map snd jd) -> a < length h) ->
  forall jd' h', fold_left merge_item items (jd, h) = (jd', h') ->
  deref_store h' jd'
  = merge_store (deref_store h jd) (deref_entries h items)
  /\ length h' = length h
  /\ NoDup (map snd jd')
  /\ (forall a, In a (map snd jd') ->
        In a (map snd jd) \/ In a (map snd items))
  /\ (forall a, In a (map snd jd) -> In a (map snd jd'))
  /\ (forall a, ~ In a (map snd jd') -> deref h' a = deref h a)
  /\ (forall k a, In (k, a) items -> In a (map snd jd') ->
        get jd' k = Some a)
  /\ (forall k a, get jd k = Some a -> get jd' k = Some a).
Proof.
  induction items as [|[k a] items IH]; intros jd h Hndi Hndj Hdis Hlen jd' h'.
  - simpl. intros [= <- <-]. repeat split; auto. intros k a [].
  - simpl in Hndi. inversion Hndi as [|? ? Ha Hndi']; subst.
    cbn [fold_left merge_item].
    destruct (get jd k) as [t|] eqn:Eg.
    + (* the keyword is in the store: its object is mutated *)
      pose proof (get_in_range _ _ _ Eg) as Ht.
      assert (Hta : a <> t).
      { intros ->. apply (Hdis t); [now left | exact Ht]. }
      assert (Htl : t < length h) by (apply Hlen; now right).
      set (h1 := heap_set h t (update (deref h t) (deref h a))).
      intros Hfold.
      destruct (IH jd h1 Hndi' Hndj) with (jd' := jd') (h' := h')
        as (H1 & H2 & H3 & H4 & H5 & H6 & H7 & H8).
      { intros a0 H0. apply Hdis. now right. }
      { intros a0 H0. unfold h1. rewrite length_heap_set.
        apply Hlen. destruct H0; [left; now right | now right]. }
      { exact Hfold. }
      assert (Hitems : deref_entries h1 items = deref_entries h items).
      { apply deref_entries_unchanged. intros a0 H0.
        apply deref_heap_set_other. intros ->.
        apply (Hdis t); [now right | exact Ht]. }
      repeat split.
      * rewrite H1, Hitems. unfold h1.
        rewrite (deref_store_heap_set h jd k t _ Eg Hndj Htl).
        cbn [deref_entries map fst snd]. unfold merge_store.
        cbn [fold_left merge_entry].
        now rewrite get_deref_store, Eg.
      * unfold h1 in H2. now rewrite length_heap_set in H2.
      * exact H3.
      * intros a0 H0. destruct (H4 a0 H0); [now left | right; now right].
      * exact H5.
      * intros a0 H0. rewrite (H6 a0 H0). apply deref_heap_set_other.
        intros ->. apply H0, H5, Ht.
      * intros k0 a0 [[= <- <-]|Hin] H0; [|now apply H7].
        exfalso. destruct (H4 a H0) as [Hj|Hi]; [|contradiction].
        apply (Hdis a); [now left | exact Hj].
      * exact H8.
    + (* a new keyword: the object of the batch enters the store *)
      assert (Hm : mem jd k = false) by (unfold mem; now rewrite Eg).
      intros Hfold.
      assert (Hrange : map snd (set jd k a) = map snd jd ++ [a]).
      { rewrite set_absent by exact Hm. now rewrite map_app. }
      destruct (IH (set jd k a) h Hndi') with (jd' := jd') (h' := h')
        as (H1 & H2 & H3 & H4 & H5 & H6 & H7 & H8).
      { rewrite Hrange. apply NoDup_app; [exact Hndj | repeat constructor;
                                          simpl; tauto|].
        intros x Hx [Hxa|[]]. subst x.
        apply (Hdis a); [now left | exact Hx]. }
      { intros a0 H0. rewrite Hrange, in_app_iff. simpl.
        intros [Hj|[Hxa|[]]]; [|subst a0; contradiction].
        apply (Hdis a0); [now right | exact Hj]. }
      { intros a0 H0. apply Hlen. rewrite Hrange, in_app_iff in H0.
        simpl in H0. destruct H0 as [H0|[H0|[Hxa|[]]]];
          [left; now right | now right | subst a0; left; now left]. }
      { exact Hfold. }
      repeat split.
      * rewrite H1. cbn [deref_entries map fst snd]. unfold merge_store.
        cbn [fold_left merge_entry].
        rewrite get_deref_store, Eg. cbn [option_map].
        f_equal. rewrite set_absent by exact Hm.
        rewrite set_absent.
        -- unfold deref_store. now rewrite map_app.
        -- unfold mem. now rewrite get_deref_store, Eg.
      * exact H2.
      * exact H3.
      * intros a0 H0. destruct (H4 a0 H0) as [Hj|Hi]; [|right; now right].
        rewrite Hrange, in_app_iff in Hj. simpl in Hj.
        destruct Hj as [Hj|[Hxa|[]]]; [now left | subst a0; right; now left].
      * intros a0 H0. apply H5. rewrite Hrange, in_app_iff. now left.
      * exact H6.
      * intros k0 a0 [[= <- <-]|Hin] H0; [|now apply H7].
        apply H8, get_set_same.
      * intros k0 a0 H0. apply H8. rewrite get_set_other; [exact H0|].
        intros ->. congruence.
Qed.

End MergeHeap.

(** ** [update_json_file] *)

Section UpdateJsonFile.
Import Dict DictFacts UpdateFacts.

Lemma in_get {V} (d : dict V) k v :
  wf d = true -> In (k, v) d -> get d k = Some v.
Proof.
  unfold wf. rewrite nodup_keys_spec.
  induction d as [|[k0 v0] d IH]; simpl; [intros _ []|].
  intros Hnd Hin. inversion Hnd as [|? ? Hk0 Hnd']; subst.
  destruct Hin as [[= -> ->]|Hin]; [now rewrite eqb_refl|].
  destruct (eqb k k0) eqn:E; [|now apply IH].
  apply eqb_eq in E. subst k0. exfalso. apply Hk0.
  now apply (in_map fst) in Hin.
Qed.

Lemma merge_keyword_item (data jd : dict addr) (k : str) (a : addr)
    (st : state) :
  get data k = Some a ->
  merge_keyword data jd k st
  = (Ret (fst (merge_item (jd, heap st) (k, a))),
     with_heap st (snd (merge_item (jd, heap st) (k, a)))).
Proof.
  intros H. unfold merge_keyword, merge_item. rewrite H.
  destruct (get jd k); [reflexivity|]. now destruct st.
Qed.

Lemma merge_keywords_fold (data : dict addr) (l : list (str * addr)) :
  (forall k a, In (k, a) l -> get data k = Some a) ->
  forall (jd : dict addr) (st : state),
  foldM (merge_keyword data) (map fst l) jd st
  = (Ret (fst (fold_left merge_item l (jd, heap st))),
     with_heap st (snd (fold_left merge_item l (jd, heap st)))).
Proof.
  induction l as [|[k a] l IH]; intros Hl jd st.
  - now destruct st.
  - cbn [map fst foldM]. unfold bind.
    rewrite (merge_keyword_item data jd k a st) by (apply Hl; now left).
    rewrite IH by (intros k0 a0 H0; apply Hl; now right).
    cbn [fold_left]. destruct (merge_item (jd, heap st) (k, a)) as [jd1 h1].
    reflexivity.
Qed.

Lemma merge_data_fold (data jd : dict addr) (st : state) :
  wf data = true ->
  merge_data jd data st
  = (Ret (fst (fold_left merge_item data (jd, heap st))),
     with_heap st (snd (fold_left merge_item data (jd, heap st)))).
Proof.
  intros Hwf. unfold merge_data. apply merge_keywords_fold.
  intros k a. now apply in_get.
Qed.

Lemma merge_batch_fold (data_dict : list (dict addr)) :
  forallb wf data_dict = true ->
  forall (jd : dict addr) (st : state),
  foldM merge_data data_dict jd st
  = (Ret (fst (fold_left merge_item (batch_entries data_dict) (jd, heap st))),
     with_heap st
       (snd (fold_left merge_item (batch_entries data_dict) (jd, heap st)))).
Proof.
  unfold batch_entries.
  induction data_dict as [|data dd IH]; intros Hwf jd st.
  - now destruct st.
  - simpl in Hwf. apply andb_true_iff in Hwf as [Hd Hdd].
    cbn [foldM concat]. unfold bind. rewrite merge_data_fold by exact Hd.
    rewrite IH by exact Hdd. rewrite fold_left_app.
    destruct (fold_left merge_item data (jd, heap st)) as [jd1 h1].
    reflexivity.
Qed.

(** Loading allocates the buckets of the document one after the other at
    the end of the heap. *)
Lemma alloc_store_spec (m : Store) (st : state) :
  exists jd0,
    alloc_store m st = (Ret jd0, with_heap st (heap st ++ map snd m))
    /\ deref_store (heap st ++ map snd m) jd0 = m
    /\ map snd jd0 = seq (length (heap st)) (length m).
Proof.
  revert st. induction m as [|[k b] m IH]; intros st.
  - exists []. simpl. rewrite app_nil_r. now destruct st.
  - destruct (IH (with_heap st (heap st ++ [b]))) as (jd & Ha & Hd & Hs).
    cbn [heap with_heap] in Ha, Hd, Hs.
    rewrite <- app_assoc in Ha, Hd. cbn [app] in Ha, Hd.
    exists ((k, length (heap st)) :: jd). cbn [map snd alloc_store].
    split; [|split].
    + unfold bind, alloc at 1. fold (with_heap st (heap st ++ [b])).
      rewrite Ha. reflexivity.
    + cbn [deref_store map fst snd]. f_equal; [|exact Hd].
      f_equal. unfold deref. rewrite app_nth2 by lia.
      now rewrite Nat.sub_diag.
    + cbn [length seq]. f_equal. rewrite Hs, length_app. cbn [length].
      f_equal. lia.
Qed.

Lemma batch_wf_spec (h : list bucket) (data_dict : list (dict addr)) :
  batch_wf h data_dict = true <->
  forallb wf data_dict = true
  /\ NoDup (map snd (batch_entries data_dict))
  /\ (forall a, In a (map snd (batch_entries data_dict)) -> a < length h)
  /\ buckets_wf (deref_entries h (batch_entries data_dict)) = true.
Proof.
  unfold batch_wf. rewrite !andb_true_iff, nodup_addrs_spec.
  rewrite (forallb_forall (fun a => a <? length h)).
  split.
  - intros [[[H1 H2] H3] H4]. repeat split; auto.
    intros a Ha. now apply Nat.ltb_lt, H3.
  - intros (H1 & H2 & H3 & H4). repeat split; auto.
    intros a Ha. now apply Nat.ltb_lt, H3.
Qed.

(** What one call of [update_json_file] does: the file gets the merge on
    values of the loaded store and the batch.  Afterwards a bucket of
    the batch is either as before or, when its object has become the
    store's bucket for its keyword, equal to that merged bucket. *)
Lemma update_json_file_spec (filename : str) (data_dict : list (dict addr))
    (st : state) (m : Store) :
  read_store filename st = (Ret m, st) ->
  batch_wf (heap st) data_dict = true ->
  let r := merge_store m
             (deref_entries (heap st) (batch_entries data_dict)) in
  exists h',
    update_json_file filename data_dict st
    = (Ret tt, {| files := set_file (files st) filename (Json r);
                  heap := h'; trace := trace st |})
    /\ length (heap st) <= length h'
    /\ forall k a, In (k, a) (batch_entries data_dict) ->
         deref h' a = deref (heap st) a \/ get r k = Some (deref h' a).
Proof.
  intros Hread Hb r. apply batch_wf_spec in Hb as (Hwf & Hnd & Hlen & _).
  destruct (alloc_store_spec m st) as (jd0 & Ha & Hd & Hs).
  set (h0 := heap st ++ map snd m) in *.
  destruct (fold_left merge_item (batch_entries data_dict) (jd0, h0))
    as [jd' h'] eqn:Ef.
  assert (Hold : forall a, a < length (heap st) ->
            deref h0 a = deref (heap st) a).
  { intros a Hlt. unfold h0. now apply deref_app_old. }
  assert (Hrange : forall a, In a (map snd jd0) ->
            length (heap st) <= a < length h0).
  { intros a Hin. rewrite Hs in Hin. apply in_seq in Hin.
    unfold h0. rewrite length_app, length_map. lia. }
  destruct (merge_items_refine (batch_entries data_dict) jd0 h0) with
    (jd' := jd') (h' := h') as (H1 & H2 & H3 & H4 & H5 & H6 & H7 & H8).
  { exact Hnd. }
  { rewrite Hs. apply seq_NoDup. }
  { intros a Hi Hj. apply Hlen in Hi. apply Hrange in Hj. lia. }
  { intros a [Hi|Hj].
    - apply Hlen in Hi. unfold h0. rewrite length_app. lia.
    - now apply Hrange in Hj. }
  { exact Ef. }
  assert (Hr : deref_store h' jd' = r).
  { rewrite H1, Hd. unfold r. f_equal.
    apply deref_entries_unchanged. intros a Hin. apply Hold, Hlen, Hin. }
  exists h'. split; [|split].
  - unfold update_json_file, bind. rewrite Hread, Ha.
    rewrite merge_batch_fold by exact Hwf.
    cbn [heap with_heap]. fold h0. rewrite Ef. cbn [fst snd].
    unfold json_dump, write_file. cbn [heap files trace with_heap].
    now rewrite Hr.
  - rewrite H2. unfold h0. rewrite length_app. lia.
  - intros k a Hin.
    assert (Ha' : In a (map snd (batch_entries data_dict))).
    { now apply (in_map snd) in Hin. }
    destruct (in_dec Nat.eq_dec a (map snd jd')) as [Hj|Hj].
    + right. rewrite <- Hr, get_deref_store, (H7 k a Hin Hj). reflexivity.
    + left. rewrite (H6 a Hj). apply Hold, Hlen, Ha'.
Qed.

Lemma store_wf_merge_store (m : Store) (entries : list (str * bucket)) :
  store_wf m = true -> buckets_wf entries = true ->
  store_wf (merge_store m entries) = true.
Proof.
  intros Hm He. unfold store_wf. apply andb_true_iff. split.
  - apply wf_merge_store. unfold store_wf in Hm.
    now apply andb_true_iff in Hm.
  - apply buckets_wf_spec. intros k b Hin.
    assert (Hg : get (merge_store m entries) k = Some b).
    { apply in_get; [|exact Hin]. apply wf_merge_store.
      unfold store_wf in Hm. now apply andb_true_iff in Hm. }
    now destruct (merged_bucket_absorbs entries m k b Hm He Hg).
Qed.

End UpdateJsonFile.

(** ** The batch that the harvest hands to the merge *)

Section HarvestBatch.
Import Dict DictFacts UpdateFacts.

Variable w : World.

Lemma batch_wf_snoc (h : list bucket) (dc : list (dict addr))
    (topic : str) (content content_to_web : bucket) :
  batch_wf h dc = true ->
  wf content = true ->
  batch_wf (h ++ [content; content_to_web]) (dc ++ [[(topic, length h)]])
  = true.
Proof.
  intros Hb Hc. apply batch_wf_spec in Hb as (Hwf & Hnd & Hlen & HE).
  apply batch_wf_spec. unfold batch_entries in *.
  rewrite concat_app, map_app. cbn [concat map snd app].
  repeat split.
  - rewrite forallb_app, Hwf. reflexivity.
  - apply NoDup_app; [exact Hnd | repeat constructor; simpl; tauto|].
    intros a Ha [Hal|[]]. subst a. apply Hlen in Ha. lia.
  - intros a Ha. rewrite length_app. apply in_app_iff in Ha.
    destruct Ha as [Ha|[Ha|[]]]; [apply Hlen in Ha; lia|].
    subst a. simpl. lia.
  - apply buckets_wf_spec. intros k b Hin. unfold deref_entries in Hin.
    rewrite map_app in Hin. apply in_app_iff in Hin.
    destruct Hin as [Hin|[Hin|[]]].
    + apply in_map_iff in Hin as ([k0 a0] & [= <- <-] & Hin).
      cbn [fst snd]. rewrite deref_app_old.
      * rewrite buckets_wf_spec in HE. apply (HE k0).
        unfold deref_entries. apply in_map_iff. now exists (k0, a0).
      * apply Hlen. now apply (in_map snd) in Hin.
    + injection Hin as <- <-. cbn [snd]. unfold deref.
      rewrite app_nth2 by lia. now rewrite Nat.sub_diag.
Qed.

(** The harvest of [demo] collects one dict per topic, each with a
    bucket of its own: what it hands to [update_json_file] is a well
    formed batch. *)
Lemma harvest_loop_batch_wf (n : nat) (translater : option Translater)
    (l : dict str) :
  forall dc dcw (st : state) dc' dcw' (st' : state),
  batch_wf (heap st) dc = true ->
  foldM (harvest_topic w n translater) l (dc, dcw) st
  = (Ret (dc', dcw'), st') ->
  batch_wf (heap st') dc' = true.
Proof.
  induction l as [|[topic query] l IH]; intros dc dcw st dc' dcw' st' Hb.
  - now intros [= <- <- <-].
  - cbn [foldM]. unfold bind at 1, harvest_topic at 1, bind at 1.
    destruct (get_daily_papers w topic query n translater st)
      as [[[data data_web]|e] st1] eqn:E; [|discriminate].
    unfold ret at 1.
    destruct (get_daily_papers_one_search w _ _ _ _ _ _ _ E)
      as (_ & _ & Hret).
    destruct (Hret data data_web eq_refl) as (content & web & -> & Hh & Hc).
    apply IH. rewrite Hh. now apply batch_wf_snoc.
Qed.

End HarvestBatch.

(** ** Idempotence of the harvest merge *)

Section Idempotence.
Import Dict DictFacts UpdateFacts.

Lemma read_store_after_write (filename : str) (r : Store) fs h tr :
  read_store filename
    {| files := set_file fs filename (Json r); heap := h; trace := tr |}
  = (Ret r, {| files := set_file fs filename (Json r); heap := h;
               trace := tr |}).
Proof.
  unfold read_store, set_file. cbn [files]. now rewrite eqb_refl.
Qed.

Lemma read_store_inv (filename : str) (st : state) (r : Store) :
  read_store filename st = (Ret r, st) ->
  files st filename = Json r \/ (files st filename = Text [] /\ r = []).
Proof.
  unfold read_store. destruct (files st filename) as [|[|c s]|d];
    intros [= <-]; auto.
Qed.

Lemma entries_related (h h1 : list bucket) (r : Store)
    (l : list (str * addr)) :
  (forall k a, In (k, a) l ->
     deref h1 a = deref h a \/ get r k = Some (deref h1 a)) ->
  Forall2 (fun e e' => fst e' = fst e
                       /\ (snd e' = snd e \/ get r (fst e) = Some (snd e')))
    (deref_entries h l) (deref_entries h1 l).
Proof.
  induction l as [|[k a] l IH]; intros Hobj; [constructor|].
  cbn [deref_entries map fst snd]. constructor.
  - split; [reflexivity|]. cbn [fst snd]. apply Hobj. now left.
  - apply IH. intros k0 a0 H0. apply Hobj. now right.
Qed.

Lemma entries_related_refl (r : Store) (E : list (str * bucket)) :
  Forall2 (fun e e' => fst e' = fst e
                       /\ (snd e' = snd e \/ get r (fst e) = Some (snd e')))
    E E.
Proof.
  induction E as [|e E IH]; constructor; [|exact IH].
  split; [reflexivity | now left].
Qed.

(** Why the buckets of a batch have to be distinct objects: the merge
    puts the bucket of a new keyword into the store as the object it is
    and updates it in place afterwards.  A bucket that stands under two
    keywords is changed under the first by what is merged under the
    second, and a second merge of the same objects writes another
    file. *)
Lemma shared_bucket_merged_twice :
  batch_wf (heap st_shared) batch_shared = false
  /\ exists st1 st2,
       update_json_file (lit "docs/store.json") batch_shared st_shared
       = (Ret tt, st1)
       /\ update_json_file (lit "docs/store.json") batch_shared st1
          = (Ret tt, st2)
       /\ files st1 (lit "docs/store.json")
          = Json [(lit "B", [(lit "1", lit "row 1"); (lit "2", lit "row 2")]);
                  (lit "A", [(lit "2", lit "row 2"); (lit "3", lit "row 3")])]
       /\ files st2 (lit "docs/store.json")
          = Json [(lit "B", [(lit "1", lit "row 1"); (lit "2", lit "row 2");
                             (lit "3", lit "row 3")]);
                  (lit "A", [(lit "2", lit "row 2"); (lit "3", lit "row 3")])].
Proof.
  split; [reflexivity|]. eexists. eexists.
  split; [vm_compute; reflexivity|].
  split; [vm_compute; reflexivity|].
  split; reflexivity.
Qed.

(** C7. Merging a batch into the store file a second time leaves the
    file exactly as the first merge wrote it, document for document and
    so byte for byte.  The store is a dict of dicts and the batch is one
    of dicts with a bucket object each, as the harvest builds it
    ([harvest_loop_batch_wf]).  The second merge may get the very
    objects of the first, which the first merge may have updated in
    place, or a batch with the same contents again. *)
Theorem harvest_merge_idempotent (filename : str)
    (data_dict : list (dict addr)) (st : state) (m : Store) :
  read_store filename st = (Ret m, st) ->
  store_wf m = true ->
  batch_wf (heap st) data_dict = true ->
  exists st1 r,
    update_json_file filename data_dict st = (Ret tt, st1)
    /\ files st1 filename = Json r
    /\ (exists st2,
          update_json_file filename data_dict st1 = (Ret tt, st2)
          /\ files st2 filename = files st1 filename)
    /\ forall st1' data_dict',
         read_store filename st1' = (Ret r, st1') ->
         batch_wf (heap st1') data_dict' = true ->
         deref_entries (heap st1') (batch_entries data_dict')
         = deref_entries (heap st) (batch_entries data_dict) ->
         exists st2,
           update_json_file filename data_dict' st1' = (Ret tt, st2)
           /\ files st2 filename = files st1 filename.
Proof.
  intros Hread Hm Hb.
  destruct (update_json_file_spec filename data_dict st m Hread Hb)
    as (h1 & Hrun & Hlen & Hobj).
  set (E := deref_entries (heap st) (batch_entries data_dict)) in *.
  set (r := merge_store m E) in *.
  pose proof Hb as Hb'. apply batch_wf_spec in Hb' as (Hwf & Hnd & Hbound & HE).
  fold E in HE.
  assert (Hr : store_wf r = true) by now apply store_wf_merge_store.
  eexists. exists r. split; [exact Hrun|]. cbn [files].
  assert (Hfile : set_file (files st) filename (Json r) filename = Json r).
  { unfold set_file. now rewrite eqb_refl. }
  split; [exact Hfile|]. split.
  - (* the same objects again *)
    set (st1 := {| files := set_file (files st) filename (Json r);
                   heap := h1; trace := trace st |}).
    assert (Hb1 : batch_wf (heap st1) data_dict = true).
    { apply batch_wf_spec. cbn [heap st1]. repeat split; auto.
      - intros a Ha. specialize (Hbound a Ha). lia.
      - apply buckets_wf_spec. intros k b Hin.
        unfold deref_entries in Hin. apply in_map_iff in Hin
          as ([k0 a] & [= <- <-] & Hin). cbn [fst snd].
        destruct (Hobj _ _ Hin) as [Heq|Hg].
        + rewrite Heq. rewrite buckets_wf_spec in HE.
          apply (HE k0). unfold E, deref_entries.
          apply in_map_iff. now exists (k0, a).
        + unfold store_wf in Hr. apply andb_true_iff in Hr as [_ Hr].
          rewrite buckets_wf_spec in Hr. apply (Hr k0).
          now apply get_in. }
    destruct (update_json_file_spec filename data_dict st1 r
                (read_store_after_write _ _ _ _ _) Hb1)
      as (h2 & Hrun2 & _ & _).
    eexists. split; [exact Hrun2|]. cbn [files heap st1].
    unfold set_file at 1 3. rewrite eqb_refl. f_equal.
    apply (merge_store_replayed E _ m Hm HE). fold r.
    unfold E. now apply entries_related.
  - (* a batch with the same contents *)
    intros st1' data_dict' Hread' Hb1' Hsame.
    destruct (update_json_file_spec filename data_dict' st1' r Hread' Hb1')
      as (h2 & Hrun2 & _ & _).
    eexists. split; [exact Hrun2|]. cbn [files].
    unfold set_file. rewrite eqb_refl. f_equal.
    rewrite Hsame. fold E. apply (merge_store_replayed E E m Hm HE).
    apply entries_related_refl.
Qed.

Lemma harvest_merge_idempotent_witness :
  batch_wf (heap st_batch) batch_two = true
  /\ exists st1 r,
       update_json_file (lit "docs/store.json") batch_two st_batch
       = (Ret tt, st1)
       /\ files st1 (lit "docs/store.json") = Json r
       /\ exists st2,
            update_json_file (lit "docs/store.json") batch_two st1
            = (Ret tt, st2)
            /\ files st2 (lit "docs/store.json")
               = files st1 (lit "docs/store.json").
Proof.
  split; [reflexivity|].
  destruct (harvest_merge_idempotent (lit "docs/store.json") batch_two
              st_batch
              [(lit "OCR",
                [(lit "2401.00009",
                  stored_row "2401.00009" "Paper O" "Abstract O"
                    "2024-01-02")])]
              eq_refl eq_refl eq_refl)
    as (st1 & r & H1 & H2 & H3 & _).
  exists st1, r. split; [exact H1|]. split; [exact H2 | exact H3].
Defined.

End Idempotence.

(** ** The repair pass *)

Section Repair.
Import Dict DictFacts UpdateFacts.

Variable w : World.


Lemma parse_format_row (d t i c a : str) :
  pipe_free d = true -> pipe_free t = true -> pipe_free i = true ->
  pipe_free c = true -> pipe_free a = true ->
  parse_arxiv_string (format_row d t i c a)
  = Ret (strip d, strip t, re_sub_version (strip i), strip c, strip a).
Proof.
  intros Hd Ht Hi Hc Ha. unfold parse_arxiv_string.
  now rewrite split_format_row.
Qed.











End Repair.

(** ** What the repair pass changes *)

Section RepairClaims.
Import Dict DictFacts UpdateFacts.








(** A delimiter inside the abstract: the row is cut at it, and the
    repair pass stores the shortened abstract. *)
Lemma repair_cuts_abstract_at_delimiter :
  exists st',
    update_paper_links world_down (lit "docs/store.json") st_pipe_in_abstract
    = (Ret tt, st')
    /\ files st' (lit "docs/store.json")
       = Json [(lit "nerf",
                [(lit "2401.00001",
                  format_row (lit "**2024-01-03**") (lit "**Paper A**")
                    (lit "[2401.00001](http://arxiv.org/abs/2401.00001)")
                    (lit "null") (lit "**We model p(x"))])].
Proof.
  eexists. split; [vm_compute; reflexivity | reflexivity].
Qed.




End RepairClaims.

(** ** Code links under the two merges *)

Section LinkClaims.
Import Dict DictFacts UpdateFacts.




End LinkClaims.

(** * Further properties of the program *)

(** ** The translator, whatever the model answers *)

Section TranslateMore.

Variable w : World.

Lemma translate_outcome (self : Translater) (text : str) (st : state) :
  exists r st' evs,
    translate w self text st = (Ret r, st')
    /\ files st' = files st /\ heap st' = heap st
    /\ trace st' = trace st ++ evs
    /\ 1 <= count is_generate evs <= 3
    /\ (0 <= slept evs <= 7)%Z
    /\ gets evs = [] /\ searches evs = []
    /\ (r = text
        \/ exists n, generate_content w n (translate_prompt text) = Some r).
Proof.
  unfold translate, translate_while, NUM_RETRIES; simpl.
  unfold bind, model_generate, sleep, emit, return_local, ret; simpl.
  destruct (generate_content w (count is_generate (trace st))
              (translate_prompt text)) as [r1|] eqn:E1; simpl.
  { exists r1. eexists. exists [EvGenerate (translate_prompt text)].
    split; [reflexivity|]. cbn. repeat split; try lia. right. eauto. }
  match goal with
  | |- context [generate_content w ?n ?p] =>
      destruct (generate_content w n p) as [r2|] eqn:E2; simpl
  end.
  { exists r2. eexists.
    exists [EvGenerate (translate_prompt text); EvSleep 1;
            EvGenerate (translate_prompt text)].
    split; [reflexivity|]. cbn [files heap trace].
    split; [reflexivity|]. split; [reflexivity|].
    split; [now rewrite <- !app_assoc|].
    cbn. repeat split; try lia. right. eauto. }
  match goal with
  | |- context [generate_content w ?n ?p] =>
      destruct (generate_content w n p) as [r3|] eqn:E3; simpl
  end.
  { exists r3. eexists.
    exists [EvGenerate (translate_prompt text); EvSleep 1;
            EvGenerate (translate_prompt text); EvSleep 2;
            EvGenerate (translate_prompt text)].
    split; [reflexivity|]. cbn [files heap trace].
    split; [reflexivity|]. split; [reflexivity|].
    split; [now rewrite <- !app_assoc|].
    cbn. repeat split; try lia. right. eauto. }
  exists text. eexists.
  exists [EvGenerate (translate_prompt text); EvSleep 1;
          EvGenerate (translate_prompt text); EvSleep 2;
          EvGenerate (translate_prompt text); EvSleep 4].
  split; [reflexivity|]. cbn [files heap trace].
  split; [reflexivity|]. split; [reflexivity|].
  split; [now rewrite <- !app_assoc|].
  cbn. repeat split; try lia. now left.
Qed.


(** X2. The retry loop that [get_daily_papers] puts around
    [translater.translate] never comes to a retry: since [translate]
    does not raise, the loop is one call of [translate], and its
    10-second backoff never runs. *)
Theorem translate_retry_is_one_call (translater : Translater)
    (paper_abstract : str) (st : state) :
  translate_retry_while w (S NUM_RETRIES) translater paper_abstract 0 10%Z st
  = translate w translater paper_abstract st.
Proof.
  destruct (translate_returns w translater paper_abstract st)
    as (r & st' & H & _).
  unfold translate_retry_while, NUM_RETRIES.
  change (0 <? 3) with true. cbv iota.
  unfold try_except. now rewrite H.
Qed.

End TranslateMore.

(** ** What a computation may add to the trace *)

Section TraceInv.

Variable w : World.
Variable P : event -> Prop.

Lemma ti_none {A} (m : M A) :
  (forall st o st', m st = (o, st') -> trace st' = trace st) ->
  trace_inv P m.
Proof.
  intros H st o st' E. exists []. rewrite app_nil_r. split; [eauto|constructor].
Qed.

Lemma ti_ret {A} (a : A) : trace_inv P (ret a).
Proof. apply ti_none. now intros st o st' [= <- <-]. Qed.

Lemma ti_raise {A} (e : exn) : trace_inv P (@raise A e).
Proof. apply ti_none. now intros st o st' [= <- <-]. Qed.

Lemma ti_lift {A} (x : outcome A) : trace_inv P (lift x).
Proof. apply ti_none. now intros st o st' [= <- <-]. Qed.

Lemma ti_bind {A B} (m : M A) (k : A -> M B) :
  trace_inv P m -> (forall a, trace_inv P (k a)) -> trace_inv P (bind m k).
Proof.
  intros Hm Hk st o st'. unfold bind.
  destruct (m st) as [[a|e] st1] eqn:E.
  - intros H. destruct (Hm _ _ _ E) as (ev1 & T1 & F1).
    destruct (Hk _ _ _ _ H) as (ev2 & T2 & F2).
    exists (ev1 ++ ev2). split.
    + now rewrite T2, T1, app_assoc.
    + apply Forall_app. now split.
  - intros [= <- <-]. exact (Hm _ _ _ E).
Qed.

Lemma ti_try {A} (m : M A) (h : exn -> M A) :
  trace_inv P m -> (forall e, trace_inv P (h e)) -> trace_inv P (try_except m h).
Proof.
  intros Hm Hh st o st'. unfold try_except.
  destruct (m st) as [[a|e] st1] eqn:E.
  - intros [= <- <-]. exact (Hm _ _ _ E).
  - intros H. destruct (Hm _ _ _ E) as (ev1 & T1 & F1).
    destruct (Hh _ _ _ _ H) as (ev2 & T2 & F2).
    exists (ev1 ++ ev2). split.
    + now rewrite T2, T1, app_assoc.
    + apply Forall_app. now split.
Qed.

Lemma ti_foldM {A B} (f : A -> B -> M A) (l : list B) (a : A) :
  (forall a x, In x l -> trace_inv P (f a x)) -> trace_inv P (foldM f l a).
Proof.
  revert a. induction l as [|x l IH]; intros a Hf; simpl.
  - apply ti_ret.
  - apply ti_bind; [apply Hf; now left|].
    intros a'. apply IH. intros a0 y Hy. apply Hf. now right.
Qed.

Lemma ti_emit (e : event) : P e -> trace_inv P (emit e).
Proof.
  intros He st o st' [= <- <-]. exists [e]. cbn [trace].
  split; [reflexivity | now constructor].
Qed.

Lemma ti_model_generate (p : str) :
  P (EvGenerate p) -> trace_inv P (model_generate w p).
Proof.
  intros He st o st' [= <- <-]. exists [EvGenerate p]. cbn [trace].
  split; [reflexivity | now constructor].
Qed.

Lemma ti_requests_get_json (url : str) :
  P (EvGet url) -> trace_inv P (requests_get_json w url).
Proof.
  intros He st o st'. unfold requests_get_json.
  destruct (registry_get w _ url); intros [= <- <-]; exists [EvGet url];
    cbn [trace]; (split; [reflexivity | now constructor]).
Qed.

Lemma ti_search_results (q : str) (n : nat) :
  P (EvSearch q n) -> trace_inv P (search_results w q n).
Proof.
  intros He st o st' [= <- <-]. exists [EvSearch q n]. cbn [trace].
  split; [reflexivity | now constructor].
Qed.

Lemma ti_write_file (name : str) (f : file) : trace_inv P (write_file name f).
Proof. apply ti_none. now intros st o st' [= <- <-]. Qed.

Lemma ti_append_file (name text : str) : trace_inv P (append_file name text).
Proof. apply ti_none. now intros st o st' [= <- <-]. Qed.

Lemma ti_read_store (name : str) : trace_inv P (read_store name).
Proof.
  apply ti_none. intros st o st'. unfold read_store.
  destruct (files st name) as [|[|c s]|d]; now intros [= <- <-].
Qed.

Lemma ti_alloc (b : bucket) : trace_inv P (alloc b).
Proof. apply ti_none. now intros st o st' [= <- <-]. Qed.

Lemma ti_heap_update (t a : addr) : trace_inv P (heap_update t a).
Proof. apply ti_none. now intros st o st' [= <- <-]. Qed.

Lemma ti_return_local (r : option str) : trace_inv P (return_local r).
Proof. destruct r; [apply ti_ret | apply ti_raise]. Qed.

(** *** The functions of the program *)

Hypothesis P_generate : forall p, P (EvGenerate p).
Hypothesis P_sleep : forall z, P (EvSleep z).

Lemma ti_translate_while (fuel : nat) (text : str) (rc : nat) (rs : Z)
    (r : option str) :
  trace_inv P (translate_while w fuel text rc rs r).
Proof.
  revert rc rs r. induction fuel as [|fuel IH]; intros rc rs r; simpl.
  - apply ti_return_local.
  - destruct (rc <? NUM_RETRIES); [|apply ti_return_local].
    apply ti_bind; [now apply ti_model_generate|].
    intros [t|]; [apply ti_return_local|].
    apply ti_bind; [now apply ti_emit|]. intros _. apply IH.
Qed.

Lemma ti_translate_retry_while (fuel : nat) (t : Translater) (text : str)
    (rc : nat) (rs : Z) :
  trace_inv P (translate_retry_while w fuel t text rc rs).
Proof.
  revert rc rs. induction fuel as [|fuel IH]; intros rc rs; simpl.
  - apply ti_ret.
  - destruct (rc <? NUM_RETRIES); [|apply ti_ret].
    apply ti_try; [apply ti_translate_while|].
    intros _. apply ti_bind; [now apply ti_emit|]. intros _. apply IH.
Qed.

Hypothesis P_registry : forall id, P (EvGet (base_url ++ id)).
Hypothesis P_log : forall e id, P (EvLogError e id).

Lemma ti_record_paper (id key url time title_ abstract : str)
    (acc : bucket * bucket) :
  trace_inv P (record_paper w (base_url ++ id) key url time title_ abstract acc).
Proof.
  destruct acc as [content web]. unfold record_paper.
  apply ti_try.
  - apply ti_bind; [now apply ti_requests_get_json|]. intros r.
    apply ti_bind.
    + destruct r as [|u|]; [apply ti_ret | apply ti_ret | apply ti_raise].
    + intros [u|]; apply ti_ret.
  - intros e. apply ti_bind; [now apply ti_emit|]. intros _. apply ti_ret.
Qed.

Lemma ti_process_result (translater : option Translater)
    (acc : bucket * bucket) (result : Result) :
  trace_inv P (process_result w translater acc result).
Proof.
  unfold process_result. apply ti_bind.
  - destruct (authors result); [apply ti_raise | apply ti_ret].
  - intros _. apply ti_bind.
    + destruct translater; [apply ti_translate_retry_while | apply ti_ret].
    + intros a. apply ti_record_paper.
Qed.

Hypothesis P_search : forall q n, P (EvSearch q n).

Lemma ti_get_daily_papers (topic query : str) (n : nat)
    (translater : option Translater) :
  trace_inv P (get_daily_papers w topic query n translater).
Proof.
  unfold get_daily_papers. apply ti_bind; [now apply ti_search_results|].
  intros [results failure]. apply ti_bind.
  - apply ti_foldM. intros. apply ti_process_result.
  - intros [content web]. destruct failure; [apply ti_raise|].
    apply ti_bind; [apply ti_alloc|]. intros a.
    apply ti_bind; [apply ti_alloc|]. intros a'. apply ti_ret.
Qed.

Lemma ti_harvest_topic (n : nat) (translater : option Translater)
    (col : list (dict addr) * list (dict addr)) (item : str * str) :
  trace_inv P (harvest_topic w n translater col item).
Proof.
  destruct col as [dc dcw], item as [topic keyword]. unfold harvest_topic.
  apply ti_bind; [apply ti_get_daily_papers|].
  intros [data data_web]. apply ti_ret.
Qed.

End TraceInv.

(** ** The harvest of one topic *)

Section HarvestMore.

Variable w : World.

Lemma gets_app (a b : list event) : gets (a ++ b) = gets a ++ gets b.
Proof.
  induction a as [|e a IH]; [reflexivity|].
  destruct e; cbn [app gets]; now rewrite IH.
Qed.

Lemma searches_app (a b : list event) :
  searches (a ++ b) = searches a ++ searches b.
Proof.
  induction a as [|e a IH]; [reflexivity|].
  destruct e; cbn [app searches]; now rewrite IH.
Qed.

Lemma gets_none (evs : list event) :
  Forall (fun e => is_get e = false /\ is_search e = false) evs ->
  gets evs = [] /\ searches evs = [].
Proof.
  induction 1 as [|e evs [Hg Hs] _ [IH1 IH2]]; [now split|].
  destruct e; try discriminate; cbn [gets searches]; now split.
Qed.

Lemma translate_retry_while_one (translater : Translater)
    (paper_abstract : str) (st : state) :
  translate_retry_while w (S NUM_RETRIES) translater paper_abstract 0 10%Z st
  = translate w translater paper_abstract st.
Proof.
  destruct (translate_returns w translater paper_abstract st)
    as (r & st' & H & _).
  unfold translate_retry_while, NUM_RETRIES.
  change (0 <? 3) with true. cbv iota.
  unfold try_except. now rewrite H.
Qed.

(** The translation phase of [process_result]: it returns, and asks
    nothing of the registry or the search. *)
Lemma translation_phase (translater : option Translater)
    (paper_abstract : str) (st : state) :
  exists r st',
    match translater with
    | Some t => translate_retry_while w (S NUM_RETRIES) t paper_abstract 0 10%Z
    | None => ret paper_abstract
    end st = (Ret r, st')
    /\ gets (trace st') = gets (trace st)
    /\ searches (trace st') = searches (trace st)
    /\ files st' = files st /\ heap st' = heap st.
Proof.
  destruct translater as [t|].
  - rewrite translate_retry_while_one.
    destruct (translate_outcome w t paper_abstract st)
      as (r & st' & evs & H & F & G & T & _ & _ & Hg & Hs & _).
    exists r, st'. split; [exact H|].
    rewrite T, gets_app, searches_app, Hg, Hs, !app_nil_r. auto.
  - exists paper_abstract, st. auto.
Qed.

(** One paper with an author: [process_result] returns after exactly
    one request, to [base_url] followed by the raw id; the two dicts are
    as before or both have a row under the paper's key. *)
Lemma process_result_step (translater : option Translater)
    (acc : bucket * bucket) (result : Result) (st : state) :
  authors result <> [] ->
  exists acc' st',
    process_result w translater acc result st = (Ret acc', st')
    /\ gets (trace st') = gets (trace st) ++ [base_url ++ short_id result]
    /\ searches (trace st') = searches (trace st)
    /\ files st' = files st /\ heap st' = heap st
    /\ (acc' = acc
        \/ exists row wrow,
             acc' = (Dict.set (fst acc) (paper_key_of (short_id result)) row,
                     Dict.set (snd acc) (paper_key_of (short_id result)) wrow)).
Proof.
  intros Hauth. unfold process_result.
  destruct (authors result) as [|a rest]; [contradiction|].
  unfold get_first_author, bind at 1, ret at 1. unfold bind at 1.
  destruct (translation_phase translater
              (replace_char NL " " (summary result)) st)
    as (abstract & st1 & -> & Hg & Hs & Hf & Hh).
  destruct acc as [content web].
  unfold record_paper, try_except, bind at 1, requests_get_json.
  destruct (registry_get w _ _) as [e|[|[u|]|]];
    unfold bind, official_url, log_error, emit, ret, raise;
    cbn [trace files heap fst snd];
    eexists; eexists; (split; [reflexivity|]); cbn [trace files heap];
    rewrite <- ?app_assoc, !gets_app, !searches_app, Hg, Hs;
    cbn [gets searches app]; rewrite ?app_nil_r;
    (split; [reflexivity|]); (split; [reflexivity|]);
    (split; [exact Hf|]); (split; [exact Hh|]);
    first [ now left | right; eauto ].
Qed.

Lemma process_results_steps (translater : option Translater)
    (results : list Result) :
  forall (acc : bucket * bucket) (st : state),
  Forall (fun r => authors r <> []) results ->
  Dict.keys (snd acc) = Dict.keys (fst acc) ->
  exists acc' st',
    foldM (process_result w translater) results acc st = (Ret acc', st')
    /\ gets (trace st')
       = gets (trace st) ++ map (fun r => base_url ++ short_id r) results
    /\ searches (trace st') = searches (trace st)
    /\ files st' = files st /\ heap st' = heap st
    /\ Dict.keys (snd acc') = Dict.keys (fst acc')
    /\ (forall k, In k (Dict.keys (fst acc')) ->
          In k (Dict.keys (fst acc))
          \/ exists r, In r results /\ k = paper_key_of (short_id r))
    /\ length (fst acc') <= length (fst acc) + length results.
Proof.
  induction results as [|r results IH]; intros acc st Hall Hkeys.
  - exists acc, st. cbn [foldM map]. rewrite app_nil_r.
    repeat split; auto. lia.
  - inversion Hall as [|? ? Hr Hrest]; subst.
    destruct (process_result_step translater acc r st Hr)
      as (acc1 & st1 & H1 & G1 & S1 & F1 & Hh1 & Hacc).
    assert (Hk1 : Dict.keys (snd acc1) = Dict.keys (fst acc1)).
    { destruct Hacc as [->|(row & wrow & ->)]; [exact Hkeys|].
      cbn [fst snd]. rewrite !DictFacts.keys_set.
      unfold Dict.mem.
      assert (Hm : forall (d1 d2 : bucket) k,
                Dict.keys d1 = Dict.keys d2 ->
                Dict.mem d1 k = Dict.mem d2 k).
      { intros d1 d2 k E. destruct (Dict.mem d2 k) eqn:M.
        - apply DictFacts.mem_spec. rewrite E.
          now apply DictFacts.mem_spec.
        - apply DictFacts.mem_false_spec. rewrite E.
          now apply DictFacts.mem_false_spec. }
      fold (Dict.mem (snd acc) (paper_key_of (short_id r))).
      fold (Dict.mem (fst acc) (paper_key_of (short_id r))).
      rewrite (Hm _ _ _ Hkeys), Hkeys. reflexivity. }
    destruct (IH acc1 st1 Hrest Hk1)
      as (acc' & st' & H2 & G2 & S2 & F2 & Hh2 & Hk2 & Hin & Hlen).
    exists acc', st'. split.
    { cbn [foldM]. unfold bind. now rewrite H1. }
    split. { rewrite G2, G1, <- app_assoc. reflexivity. }
    split; [congruence|]. split; [congruence|]. split; [congruence|].
    split; [exact Hk2|]. split.
    + intros k Hk. destruct (Hin k Hk) as [H|(r0 & Hr0 & ->)].
      * destruct Hacc as [->|(row & wrow & ->)]; [now left|].
        cbn [fst] in H. apply UpdateFacts.in_keys_set in H.
        destruct H as [H| ->]; [now left|].
        right. exists r. split; [now left | reflexivity].
      * right. exists r0. split; [now right | reflexivity].
    + cbn [length]. destruct Hacc as [->|(row & wrow & ->)]; [lia|].
      cbn [fst] in Hlen.
      assert (length (Dict.set (fst acc) (paper_key_of (short_id r)) row)
              <= S (length (fst acc))).
      { generalize (fst acc). intros d.
        induction d as [|[k0 v0] d IHd]; simpl; [lia|].
        destruct (eqb _ k0); simpl; lia. }
      lia.
Qed.

End HarvestMore.


(** X3. The key that [get_daily_papers] derives from a raw id never
    contains the letter [v], and it is the raw id itself or the part of
    it before a [v]. *)
Theorem paper_key_of_prefix (id : str) :
  ~ In "v"%char (paper_key_of id)
  /\ (paper_key_of id = id
      \/ exists ver, id = paper_key_of id ++ "v"%char :: ver).
Proof.
  destruct (first_v_split id) as [H | (a & b & -> & Ha)].
  - rewrite paper_key_of_unversioned by exact H. auto.
  - rewrite paper_key_of_versioned by exact Ha. split; [exact Ha|].
    right. now exists b.
Qed.

Lemma foldM_app {A B} (f : A -> B -> M A) (l1 l2 : list B) (a : A)
    (st : state) :
  foldM f (l1 ++ l2) a st
  = match foldM f l1 a st with
    | (Ret a', st') => foldM f l2 a' st'
    | (Raise e, st') => (Raise e, st')
    end.
Proof.
  revert a st. induction l1 as [|x l1 IH]; intros a st; [reflexivity|].
  cbn [app foldM]. unfold bind. destruct (f a x st) as [[a1|e] st1];
    [apply IH | reflexivity].
Qed.

Lemma process_results_ret_authors (w : World)
    (translater : option Translater)
    (results : list Result) :
  forall acc st acc' st',
  foldM (process_result w translater) results acc st = (Ret acc', st') ->
  Forall (fun r => authors r <> []) results.
Proof.
  induction results as [|r results IH]; intros acc st acc' st';
    [constructor|].
  cbn [foldM]. unfold bind.
  destruct (process_result w translater acc r st) as [[acc1|e] st1] eqn:E;
    [|discriminate].
  intros H. constructor; [|eapply IH; eauto].
  intros Hn. unfold process_result in E. rewrite Hn in E.
  discriminate.
Qed.

(** X4. Harvesting a topic whose papers all have an author: the search
    is made once, then the registry is asked exactly once per paper, in
    the order of the results and under the raw id, version included;
    no request is repeated.  Whatever the registry and the model answer,
    the harvest returns unless the search itself reported an error. *)
Theorem harvest_one_request_per_paper (w : World) (topic query : str)
    (n : nat)
    (translater : option Translater) (results : list Result)
    (failure : option exn) (st : state) :
  arxiv_results w (count is_search (trace st)) query n = (results, failure) ->
  Forall (fun r => authors r <> []) results ->
  exists o st',
    get_daily_papers w topic query n translater st = (o, st')
    /\ gets (trace st')
       = gets (trace st) ++ map (fun r => base_url ++ short_id r) results
    /\ searches (trace st') = searches (trace st) ++ [(query, n)]
    /\ files st' = files st
    /\ match failure with
       | None => exists data data_web, o = Ret (data, data_web)
       | Some e => o = Raise e
       end.
Proof.
  intros Hs Hall. unfold get_daily_papers, bind at 1, search_results.
  rewrite Hs. unfold bind at 1.
  destruct (process_results_steps w translater results ([], [])
              {| files := files st; heap := heap st;
                 trace := trace st ++ [EvSearch query n] |} Hall eq_refl)
    as ([content web] & st1 & -> & G & S & F & Hh & _).
  cbn [trace files heap] in G, S, F, Hh.
  rewrite gets_app in G. rewrite searches_app in S.
  cbn [gets searches] in G, S. rewrite app_nil_r in G.
  destruct failure as [e|].
  - exists (Raise e), st1. auto.
  - unfold bind, alloc, ret. cbn [files heap trace].
    eexists. eexists. split; [reflexivity|]. cbn [files heap trace].
    repeat split; eauto.
Qed.

Lemma harvest_one_request_per_paper_witness :
  arxiv_results world_registry_down (count is_search (trace st_empty))
    (lit "abs:nerf") 2
  = ([paper "2401.00001v1" "A title" "An abstract." "2024-01-03"], None)
  /\ exists o st',
       get_daily_papers world_registry_down (lit "nerf") (lit "abs:nerf") 2
         None st_empty = (o, st')
       /\ gets (trace st') = [base_url ++ lit "2401.00001v1"].
Proof.
  split; [reflexivity|].
  assert (Hall : Forall (fun r => authors r <> [])
            [paper "2401.00001v1" "A title" "An abstract." "2024-01-03"]).
  { constructor; [discriminate | constructor]. }
  destruct (harvest_one_request_per_paper world_registry_down (lit "nerf")
              (lit "abs:nerf") 2 None _ None st_empty eq_refl Hall)
    as (o & st' & H & G & _).
  exists o, st'. split; [exact H | exact G].
Defined.

(** X5. What a harvest returns: [content] and [content_to_web] are the
    two newest dict objects, they have the same keys, each key once;
    every key is the normalized id of a harvested paper and free of
    [v]; there are no more records than papers. *)
Theorem harvest_content_keys (w : World) (topic query : str) (n : nat)
    (translater : option Translater) (st st' : state)
    (data data_web : dict addr) :
  get_daily_papers w topic query n translater st = (Ret (data, data_web), st') ->
  exists content content_to_web,
    data = [(topic, length (heap st))]
    /\ data_web = [(topic, S (length (heap st)))]
    /\ heap st' = heap st ++ [content; content_to_web]
    /\ Dict.wf content = true
    /\ Dict.keys content_to_web = Dict.keys content
    /\ length content
       <= length (fst (arxiv_results w (count is_search (trace st)) query n))
    /\ forall k, In k (Dict.keys content) ->
         ~ In "v"%char k
         /\ exists r,
              In r (fst (arxiv_results w (count is_search (trace st)) query n))
              /\ k = paper_key_of (short_id r).
Proof.
  unfold get_daily_papers, bind at 1, search_results.
  destruct (arxiv_results w _ query n) as [results failure]. cbn [fst].
  unfold bind at 1.
  destruct (foldM (process_result w translater) results ([], []) _)
    as [[[content web]|e] st1] eqn:E; [|discriminate].
  pose proof (process_results_ret_authors _ _ _ _ _ _ _ E) as Hall.
  destruct (process_results_steps w translater results ([], [])
              {| files := files st; heap := heap st;
                 trace := trace st ++ [EvSearch query n] |} Hall eq_refl)
    as (acc' & st2 & E' & _ & _ & _ & Hh & Hk & Hin & Hlen).
  rewrite E in E'. injection E' as <- <-.
  cbn [fst snd heap length] in *.
  assert (Hwf : Dict.wf (fst (content, web)) = true).
  { apply (process_results_wf w _ _ ([], []) _ _ _ eq_refl E). }
  destruct failure as [e|]; [discriminate|].
  unfold bind, alloc, ret. cbn [files heap trace].
  intros [= <- <- <-]. exists content, web. cbn [heap].
  rewrite Hh, length_app. cbn [length].
  replace (length (heap st) + 1) with (S (length (heap st))) by lia.
  rewrite <- app_assoc. repeat split; auto.
  - destruct (Hin k H) as [[]|(r & Hr & ->)]. apply paper_key_of_prefix.
  - destruct (Hin k H) as [[]|(r & Hr & ->)]. now exists r.
Qed.

Lemma harvest_content_keys_witness :
  exists content content_to_web st',
    get_daily_papers world_first_search_fails (lit "OCR") (lit "abs:ocr") 2
      None {| files := fun _ => Absent; heap := [];
              trace := [EvSearch (lit "abs:nerf") 2] |}
    = (Ret ([(lit "OCR", 0)], [(lit "OCR", 1)]), st')
    /\ heap st' = [content; content_to_web]
    /\ Dict.keys content = [lit "2401.00001"].
Proof.
  pose proof (harvest_content_keys world_first_search_fails (lit "OCR")
                (lit "abs:ocr") 2 None
                {| files := fun _ => Absent; heap := [];
                   trace := [EvSearch (lit "abs:nerf") 2] |}) as H.
  specialize (H _ _ _ eq_refl).
  destruct H as (content & web & _ & _ & Hh & _).
  cbn [heap app] in Hh. injection Hh as <- <-.
  eexists. eexists. eexists. split; [reflexivity|]. split; reflexivity.
Defined.

(** X6. A paper without authors is fatal to the harvest of its topic:
    [authors[0]] raises [IndexError] outside the [try], after the papers
    before it have been looked up and before any request for it; nothing
    is returned for the topic. *)
Theorem harvest_paper_without_authors (w : World) (topic query : str)
    (n : nat)
    (translater : option Translater) (pre post : list Result) (r : Result)
    (failure : option exn) (st : state) :
  arxiv_results w (count is_search (trace st)) query n
  = (pre ++ r :: post, failure) ->
  Forall (fun r => authors r <> []) pre ->
  authors r = [] ->
  exists st',
    get_daily_papers w topic query n translater st = (Raise IndexError, st')
    /\ gets (trace st')
       = gets (trace st) ++ map (fun r => base_url ++ short_id r) pre
    /\ files st' = files st /\ heap st' = heap st.
Proof.
  intros Hs Hpre Hr. unfold get_daily_papers, bind at 1, search_results.
  rewrite Hs. unfold bind at 1. rewrite foldM_app.
  destruct (process_results_steps w translater pre ([], [])
              {| files := files st; heap := heap st;
                 trace := trace st ++ [EvSearch query n] |} Hpre eq_refl)
    as (acc1 & st1 & -> & G & _ & F & Hh & _).
  cbn [trace files heap] in G, F, Hh.
  rewrite gets_app in G. cbn [gets] in G. rewrite app_nil_r in G.
  cbn [foldM]. unfold bind at 1. unfold process_result at 1.
  rewrite Hr. unfold get_first_author, bind at 1, raise.
  exists st1. auto.
Qed.

Lemma harvest_paper_without_authors_witness :
  exists st',
    get_daily_papers world_no_authors (lit "nerf") (lit "abs:nerf") 2 None
      st_empty = (Raise IndexError, st')
    /\ gets (trace st') = [base_url ++ lit "2401.00001v1"].
Proof.
  assert (Hpre : Forall (fun r => authors r <> [])
            [paper "2401.00001v1" "A title" "An abstract." "2024-01-03"]).
  { constructor; [discriminate | constructor]. }
  destruct (harvest_paper_without_authors world_no_authors (lit "nerf")
              (lit "abs:nerf") 2 None
              [paper "2401.00001v1" "A title" "An abstract." "2024-01-03"]
              [] _ None st_empty eq_refl Hpre eq_refl)
    as (st' & H & G & _).
  exists st'. split; [exact H | exact G].
Defined.


(** ** The merge, whatever the batch *)

Section MergeMore.
Import Dict DictFacts UpdateFacts.

Lemma read_store_state (filename : str) (st : state) o st' :
  read_store filename st = (o, st') -> st' = st.
Proof.
  unfold read_store. destruct (files st filename) as [|[|c s]|d];
    now intros [= _ <-].
Qed.

Lemma merge_keywords_return (data : dict addr) (l : list str) :
  (forall k, In k l -> In k (keys data)) ->
  forall (jd : dict addr) (st : state),
  exists jd' h',
    foldM (merge_keyword data) l jd st = (Ret jd', with_heap st h').
Proof.
  induction l as [|k l IH]; intros Hl jd st.
  - exists jd, (heap st). now destruct st.
  - destruct (get_present data k (Hl k (or_introl eq_refl))) as [a Ha].
    cbn [foldM]. unfold bind. rewrite (merge_keyword_item data jd k a st Ha).
    destruct (IH (fun k0 H0 => Hl k0 (or_intror H0))
                (fst (merge_item (jd, heap st) (k, a)))
                (with_heap st (snd (merge_item (jd, heap st) (k, a)))))
      as (jd' & h' & ->).
    now exists jd', h'.
Qed.

Lemma merge_batch_returns (data_dict : list (dict addr)) :
  forall (jd : dict addr) (st : state),
  exists jd' h',
    foldM merge_data data_dict jd st = (Ret jd', with_heap st h').
Proof.
  induction data_dict as [|data dd IH]; intros jd st.
  - exists jd, (heap st). now destruct st.
  - cbn [foldM]. unfold bind, merge_data at 1.
    destruct (merge_keywords_return data (keys data) (fun k H => H) jd st)
      as (jd1 & h1 & ->).
    destruct (IH jd1 (with_heap st h1)) as (jd' & h' & ->).
    now exists jd', h'.
Qed.

(** X7. [update_json_file] asks nothing of the network and changes no
    file but the store.  When the store cannot be loaded it raises the
    error of the load and changes nothing.  When it returns, the store
    had loaded and the store file holds a JSON document.  Whatever the
    batch, it does not raise [KeyError]. *)
Theorem update_json_file_outcome (filename : str)
    (data_dict : list (dict addr)) (st : state) :
  let (o, st') := update_json_file filename data_dict st in
  trace st' = trace st
  /\ (forall other, other <> filename -> files st' other = files st other)
  /\ (forall e, read_store filename st = (Raise e, st) ->
                o = Raise e /\ st' = st)
  /\ (forall u, o = Ret u ->
                (exists m, read_store filename st = (Ret m, st))
                /\ exists r, files st' filename = Json r)
  /\ o <> Raise KeyError.
Proof.
  unfold update_json_file, bind.
  destruct (read_store filename st) as [[m|e] st0] eqn:Er;
    pose proof (read_store_state _ _ _ _ Er) as ->.
  - destruct (alloc_store_spec m st) as (jd0 & -> & _ & _).
    destruct (merge_batch_returns data_dict jd0
                (with_heap st (heap st ++ map snd m))) as (jd' & h' & ->).
    unfold json_dump, write_file. cbn [files heap trace with_heap].
    split; [reflexivity|]. split.
    { intros other Hne. unfold set_file.
      apply eqb_neq in Hne. now rewrite Hne. }
    split; [discriminate|]. split; [|discriminate].
    intros u _. split; [now exists m|]. eexists. unfold set_file.
    now rewrite eqb_refl.
  - split; [reflexivity|]. split; [reflexivity|].
    split; [now intros e0 [= ->]|]. split; [discriminate|].
    intros [= ->]. revert Er. unfold read_store.
    destruct (files st filename) as [|[|c s]|d]; discriminate.
Qed.

Lemma keys_update_prefix {V} (d p : dict V) :
  exists extra, keys (update d p) = keys d ++ extra.
Proof.
  revert d. induction p as [|[k v] p IH]; intros d.
  - exists []. now rewrite app_nil_r.
  - rewrite update_cons. destruct (IH (set d k v)) as [extra ->].
    rewrite keys_set. destruct (mem d k).
    + now exists extra.
    + exists (k :: extra). now rewrite <- app_assoc.
Qed.

Lemma keys_fold_update_prefix {V} (ps : list (dict V)) (d : dict V) :
  exists extra, keys (fold_left update ps d) = keys d ++ extra.
Proof.
  revert d. induction ps as [|p ps IH]; intros d.
  - exists []. now rewrite app_nil_r.
  - cbn [fold_left]. destruct (IH (update d p)) as [e1 ->].
    destruct (keys_update_prefix d p) as [e2 ->].
    exists (e2 ++ e1). now rewrite app_assoc.
Qed.

Lemma keys_merge_store_prefix (entries : list (str * bucket)) (s : Store) :
  exists extra, keys (merge_store s entries) = keys s ++ extra.
Proof.
  unfold merge_store. revert s.
  induction entries as [|[k p] es IH]; intros s.
  - exists []. now rewrite app_nil_r.
  - cbn [fold_left merge_entry].
    destruct (get s k) as [b|];
      match goal with
      | |- context [fold_left merge_entry es (set s k ?v)] =>
          destruct (IH (set s k v)) as [e1 ->]; rewrite keys_set;
          destruct (mem s k);
          [now exists e1 | exists (k :: e1); now rewrite <- app_assoc]
      end.
Qed.

(** X8. The harvest merge never deletes and never reorders: the topics
    of the store keep their places and new topics come after them, and
    within a topic the ids keep their places and new ids come after
    them. *)
Theorem merge_keeps_topics_and_ids (filename : str)
    (data_dict : list (dict addr)) (st : state) (m : Store) :
  read_store filename st = (Ret m, st) ->
  batch_wf (heap st) data_dict = true ->
  exists st1 r,
    update_json_file filename data_dict st = (Ret tt, st1)
    /\ files st1 filename = Json r
    /\ (exists new_topics, keys r = keys m ++ new_topics)
    /\ forall topic b,
         get m topic = Some b ->
         exists b' new_ids,
           get r topic = Some b' /\ keys b' = keys b ++ new_ids.
Proof.
  intros Hread Hb.
  destruct (update_json_file_spec filename data_dict st m Hread Hb)
    as (h1 & Hrun & _ & _).
  eexists. eexists. split; [exact Hrun|]. cbn [files].
  split; [unfold set_file; now rewrite eqb_refl|].
  split; [apply keys_merge_store_prefix|].
  intros topic b Hg. rewrite get_merge_store, Hg.
  destruct (keys_fold_update_prefix
              (select topic (deref_entries (heap st)
                               (batch_entries data_dict))) b)
    as [new_ids Hk].
  eexists. exists new_ids. split; [reflexivity | exact Hk].
Qed.

End MergeMore.

Lemma merge_keeps_topics_and_ids_witness :
  batch_wf (heap st_batch) batch_two = true
  /\ exists st1 r new_topics,
       update_json_file (lit "docs/store.json") batch_two st_batch
       = (Ret tt, st1)
       /\ files st1 (lit "docs/store.json") = Json r
       /\ Dict.keys r = [lit "OCR"] ++ new_topics.
Proof.
  split; [reflexivity|].
  destruct (merge_keeps_topics_and_ids (lit "docs/store.json") batch_two
              st_batch _ eq_refl eq_refl)
    as (st1 & r & H1 & H2 & [new_topics H3] & _).
  exists st1, r, new_topics. split; [exact H1|]. split; [exact H2 | exact H3].
Defined.

(** ** Parsing rows, and the requests of the repair pass *)

Lemma length_split (sep : ascii) (s : str) :
  length (split sep s) = S (count_occ ascii_dec s sep).
Proof.
  induction s as [|c s IH]; [reflexivity|].
  cbn [split count_occ]. destruct (Ascii.eqb c sep) eqn:E.
  - apply Ascii.eqb_eq in E. subst c.
    destruct (ascii_dec sep sep); [|contradiction]. cbn [length]. now rewrite IH.
  - apply Ascii.eqb_neq in E.
    destruct (ascii_dec c sep); [contradiction|].
    destruct (split sep s) as [|p ps]; [discriminate | exact IH].
Qed.

Lemma parse_arxiv_string_raises (s : str) (e : exn) :
  parse_arxiv_string s = Raise e -> e = IndexError.
Proof.
  unfold parse_arxiv_string, obind, index.
  repeat match goal with
         | |- context [nth_error ?l ?n] => destruct (nth_error l n)
         end; congruence.
Qed.

Lemma parse_arxiv_string_index_error_aux (s : str) :
  if count_occ ascii_dec s "|"%char <? 5
  then parse_arxiv_string s = Raise IndexError
  else exists fields, parse_arxiv_string s = Ret fields.
Proof.
  pose proof (length_split "|" s) as Hlen.
  unfold parse_arxiv_string.
  destruct (count_occ ascii_dec s "|"%char <? 5) eqn:E.
  - apply Nat.ltb_lt in E.
    destruct (split "|" s) as [|p0 [|p1 [|p2 [|p3 [|p4 [|p5 ps]]]]]];
      try reflexivity.
    cbn [length] in Hlen. lia.
  - apply Nat.ltb_ge in E.
    destruct (split "|" s) as [|p0 [|p1 [|p2 [|p3 [|p4 [|p5 ps]]]]]];
      cbn [length] in Hlen; try lia.
    eexists. reflexivity.
Qed.

(** X9. [parse_arxiv_string] raises [IndexError] exactly on the strings
    with fewer than five delimiters; on every other string it returns
    five fields. *)
Theorem parse_arxiv_string_index_error (s : str) :
  if count_occ ascii_dec s "|"%char <? 5
  then parse_arxiv_string s = Raise IndexError
  else exists fields, parse_arxiv_string s = Ret fields.
Proof.
  apply parse_arxiv_string_index_error_aux.
Qed.

(** X10. Formatting five delimiter-free fields as a row and parsing the
    row gives the fields back, each stripped of surrounding whitespace
    and the id field also of its version markers. *)
Theorem parse_arxiv_string_of_row (d t i c a : str) :
  pipe_free d = true -> pipe_free t = true -> pipe_free i = true ->
  pipe_free c = true -> pipe_free a = true ->
  parse_arxiv_string (format_row d t i c a)
  = Ret (strip d, strip t, re_sub_version (strip i), strip c, strip a).
Proof.
  apply parse_format_row.
Qed.

Lemma parse_arxiv_string_of_row_witness :
  parse_arxiv_string
    (format_row (lit " 2021-08-20 ") (lit "A title")
       (lit "[2108.09112v1](http://arxiv.org/abs/2108.09112v1)")
       (lit "null") (lit "An abstract. "))
  = Ret (lit "2021-08-20", lit "A title",
         lit "[2108.09112](http://arxiv.org/abs/2108.09112)",
         lit "null", lit "An abstract.").
Proof.
  exact (parse_arxiv_string_of_row (lit " 2021-08-20 ") (lit "A title")
           (lit "[2108.09112v1](http://arxiv.org/abs/2108.09112v1)")
           (lit "null") (lit "An abstract. ")
           eq_refl eq_refl eq_refl eq_refl eq_refl).
Defined.

Section RepairRequests.

Variable w : World.

(** One record: a row that does not parse raises, any other row is
    rewritten after at most one request, made when the row lacks a
    link. *)
Lemma repair_step_requests (keywords paper_id r : str) (json_data : Store)
    (st : state) :
  match parse_arxiv_string r with
  | Raise e => repair_step w keywords json_data (paper_id, r) st = (Raise e, st)
  | Ret _ =>
      exists jd' st',
        repair_step w keywords json_data (paper_id, r) st = (Ret jd', st')
        /\ gets (trace st')
           = gets (trace st)
             ++ (if needs_lookup r then [base_url ++ paper_id] else [])
        /\ files st' = files st /\ heap st' = heap st
  end.
Proof.
  unfold repair_step, needs_lookup, bind at 1, lift.
  destruct (parse_arxiv_string r) as [[[[[d t] i] c] a]|e]; [|reflexivity].
  destruct (contains (lit "|null|") (format_row d t i c a)); cbn [negb].
  - unfold try_except, bind at 1, requests_get_json.
    destruct (registry_get w _ _) as [e|[|[u|]|]];
      unfold bind, log_error, emit, ret, raise; cbn [trace files heap];
      eexists; eexists; (split; [reflexivity|]); cbn [trace files heap];
      rewrite <- ?app_assoc, !gets_app; cbn [gets app];
      rewrite ?app_nil_r; auto.
  - exists (store_set json_data keywords paper_id (format_row d t i c a)), st.
    rewrite app_nil_r. auto.
Qed.

Lemma repair_bucket_requests (keywords : str) (v : bucket) :
  forall (json_data : Store) (st : state),
  let (o, st') := foldM (repair_step w keywords) v json_data st in
  files st' = files st /\ heap st' = heap st
  /\ match o with
     | Ret _ =>
         gets (trace st')
         = gets (trace st)
           ++ map (app base_url)
                (map fst (filter (fun kr => needs_lookup (snd kr)) v))
         /\ forall id r, In (id, r) v ->
                         exists fields, parse_arxiv_string r = Ret fields
     | Raise e =>
         e = IndexError
         /\ exists id r, In (id, r) v
                         /\ parse_arxiv_string r = Raise IndexError
     end.
Proof.
  induction v as [|[id r] v IH]; intros jd st.
  - cbn [foldM ret filter map]. rewrite app_nil_r.
    repeat split; auto. intros ? ? [].
  - cbn [foldM]. unfold bind.
    pose proof (repair_step_requests keywords id r jd st) as Hstep.
    destruct (parse_arxiv_string r) as [fields|e] eqn:Ep.
    + destruct Hstep as (jd1 & st1 & -> & G & F & Hh).
      specialize (IH jd1 st1).
      destruct (foldM (repair_step w keywords) v jd1 st1) as [[jd2|e] st2].
      * destruct IH as (F2 & H2 & G2 & P2).
        split; [congruence|]. split; [congruence|]. split.
        -- rewrite G2, G. cbn [filter snd].
           destruct (needs_lookup r); cbn [map fst app];
             now rewrite <- app_assoc.
        -- intros id0 r0 [[= <- <-]|Hin]; [now exists fields | eauto].
      * destruct IH as (F2 & H2 & -> & id0 & r0 & Hin & Hp).
        split; [congruence|]. split; [congruence|].
        split; [reflexivity|]. exists id0, r0. split; [now right | exact Hp].
    + rewrite Hstep. pose proof (parse_arxiv_string_raises _ _ Ep) as ->.
      split; [reflexivity|]. split; [reflexivity|].
      split; [reflexivity|]. exists id, r. split; [now left | exact Ep].
Qed.

Lemma repair_store_requests (m : Store) :
  forall (json_data : Store) (st : state),
  let (o, st') := foldM (repair_bucket w) m json_data st in
  files st' = files st /\ heap st' = heap st
  /\ match o with
     | Ret _ =>
         gets (trace st')
         = gets (trace st) ++ map (app base_url) (unlinked_ids m)
         /\ forall topic b id r,
              In (topic, b) m -> In (id, r) b ->
              exists fields, parse_arxiv_string r = Ret fields
     | Raise e =>
         e = IndexError
         /\ exists topic b id r,
              In (topic, b) m /\ In (id, r) b
              /\ parse_arxiv_string r = Raise IndexError
     end.
Proof.
  induction m as [|[topic v] m IH]; intros jd st.
  - cbn [foldM ret unlinked_ids flat_map map]. rewrite app_nil_r.
    repeat split; auto. intros ? ? ? ? [].
  - cbn [foldM]. unfold bind, repair_bucket at 1.
    pose proof (repair_bucket_requests topic v jd st) as Hb.
    destruct (foldM (repair_step w topic) v jd st) as [[jd1|e] st1].
    + destruct Hb as (F & Hh & G & P). specialize (IH jd1 st1).
      destruct (foldM (repair_bucket w) m jd1 st1) as [[jd2|e] st2].
      * destruct IH as (F2 & H2 & G2 & P2).
        split; [congruence|]. split; [congruence|]. split.
        -- rewrite G2, G. cbn [unlinked_ids flat_map snd].
           now rewrite map_app, app_assoc.
        -- intros t0 b0 id0 r0 [[= <- <-]|Hin] Hr; eauto.
      * destruct IH as (F2 & H2 & -> & t0 & b0 & id0 & r0 & Ht & Hin & Hp).
        split; [congruence|]. split; [congruence|].
        split; [reflexivity|]. exists t0, b0, id0, r0.
        split; [now right | auto].
    + destruct Hb as (F & Hh & -> & id0 & r0 & Hin & Hp).
      split; [exact F|]. split; [exact Hh|]. split; [reflexivity|].
      exists topic, v, id0, r0. split; [now left | auto].
Qed.

End RepairRequests.

(** X11. On a store that loads, a record with fewer than five
    delimiters makes the repair pass raise [IndexError] before any file
    is written.  When the pass returns, it has asked the registry
    exactly once for each record whose reformatted row contains
    ["|null|"], in store order and under the record's key, and never for
    another record, and the store file holds a JSON document.  Returning
    or raising, it leaves the heap and every file but the store file as
    they were. *)
Theorem repair_requests (w : World) (filename : str) (st : state)
    (m : Store) :
  read_store filename st = (Ret m, st) ->
  let (o, st') := update_paper_links w filename st in
  heap st' = heap st
  /\ (forall other, other <> filename -> files st' other = files st other)
  /\ ((exists topic b id r,
         In (topic, b) m /\ In (id, r) b
         /\ count_occ ascii_dec r "|"%char < 5) ->
      o = Raise IndexError /\ files st' = files st)
  /\ (forall u, o = Ret u ->
        gets (trace st')
        = gets (trace st) ++ map (app base_url) (unlinked_ids m)
        /\ exists m', files st' filename = Json m').
Proof.
  intros Hread. unfold update_paper_links, bind. rewrite Hread.
  pose proof (repair_store_requests w m m st) as H.
  destruct (foldM (repair_bucket w) m m st) as [[jd|e] st1].
  - destruct H as (F & Hh & G & P). unfold write_file. cbn [files heap trace].
    split; [exact Hh|]. split.
    { intros other Hne. unfold set_file. apply eqb_neq in Hne.
      now rewrite Hne, F. }
    split.
    + intros (topic & b & id & r & Ht & Hin & Hlt). exfalso.
      destruct (P _ _ _ _ Ht Hin) as [fields Hf].
      pose proof (parse_arxiv_string_index_error_aux r) as Haux.
      apply Nat.ltb_lt in Hlt. rewrite Hlt in Haux. congruence.
    + intros u _. split; [exact G|]. eexists. unfold set_file.
      now rewrite eqb_refl.
  - destruct H as (F & Hh & -> & _).
    split; [exact Hh|]. split; [intros; now rewrite F|].
    split; [now split | discriminate].
Qed.

Lemma repair_requests_witness :
  exists st',
    update_paper_links world_official (lit "docs/store.json") st_three_dates
    = (Ret tt, st')
    /\ gets (trace st')
       = [base_url ++ lit "2401.00001"; base_url ++ lit "2401.00002";
          base_url ++ lit "2401.00003"].
Proof.
  pose proof (repair_requests world_official (lit "docs/store.json")
                st_three_dates _ eq_refl) as H.
  destruct (update_paper_links world_official (lit "docs/store.json")
              st_three_dates) as [[[]|e] st'] eqn:E.
  - exists st'. split; [reflexivity|].
    destruct H as (_ & _ & _ & G). exact (proj1 (G tt eq_refl)).
  - exfalso. vm_compute in E. discriminate.
Defined.

Lemma update_paper_links_trace_inv (w : World) (filename : str) :
  trace_inv repair_event (update_paper_links w filename).
Proof.
  unfold update_paper_links. apply ti_bind; [apply ti_read_store|].
  intros m. apply ti_bind; [|intros jd; apply ti_write_file].
  apply ti_foldM. intros jd [topic v] _. unfold repair_bucket.
  apply ti_foldM. intros jd' [id r] _. unfold repair_step.
  apply ti_bind; [apply ti_lift|]. intros [[[[d t] i] c] a].
  destruct (negb _); [apply ti_ret|].
  apply ti_try.
  - apply ti_bind.
    + apply ti_requests_get_json. simpl. now exists id.
    + intros [|[u|]|]; [apply ti_ret | apply ti_ret | apply ti_ret
                        | apply ti_raise].
  - intros e. apply ti_bind; [apply ti_emit; exact I | intros _; apply ti_ret].
Qed.

(** X12. Whether it returns or raises, the repair pass only sends
    requests to the code-link registry and logs errors: it starts no
    search, calls no model and never sleeps. *)
Theorem repair_events (w : World) (filename : str) (st : state) :
  let (o, st') := update_paper_links w filename st in
  exists evs, trace st' = trace st ++ evs /\ Forall repair_event evs.
Proof.
  destruct (update_paper_links w filename st) as [o st'] eqn:E.
  exact (update_paper_links_trace_inv w filename _ _ _ E).
Qed.

(** ** Rendering: [pretty_math] on lines, the effects of [json_to_md] *)

Lemma pretty_math_raises (s : str) (e : exn) :
  pretty_math s = Raise e -> e = IndexError.
Proof.
  unfold pretty_math. destruct (re_search_math s) as [[i j]|]; [|discriminate].
  unfold obind, index_last, index_first.
  destruct (rev (slice_to i s)); [congruence|].
  destruct (slice_from j s); [congruence | discriminate].
Qed.

Lemma pretty_math_line_aux (s : str) :
  is_line s -> exists r, pretty_math s = Ret r /\ is_line r.
Proof.
  intros (c & body & -> & Hc). unfold pretty_math.
  destruct (re_search_math (c :: body ++ [NL])) as [[i j]|] eqn:E.
  2:{ eexists. split; [reflexivity|]. now exists c, body. }
  apply re_search_math_from_bounds in E.
  destruct E as (_ & Hij & Hi & Hj). rewrite !Nat.sub_0_r in *.
  cbn [length] in Hij. rewrite length_app in Hij. cbn [length] in Hij.
  assert (Hi0 : i <> 0).
  { intros ->. cbn in Hi. congruence. }
  assert (Hjl : j <= S (length body)).
  { destruct (Nat.eq_dec j (S (length body + 1))) as [->|]; [|lia].
    exfalso. replace (S (length body + 1) - 1) with (S (length body)) in Hj by lia.
    cbn [nth_error] in Hj. rewrite nth_error_app2 in Hj by lia.
    rewrite Nat.sub_diag in Hj. cbn in Hj. inversion Hj. }
  destruct i as [|i]; [contradiction|].
  unfold slice_to, slice_from.
  change (c :: body ++ [NL]) with ((c :: body) ++ [NL]).
  rewrite (skipn_app j (c :: body)).
  replace (j - length (c :: body)) with 0 by (cbn [length]; lia).
  cbn [skipn]. cbn [app firstn].
  destruct (index_last_firstn (c :: body ++ [NL]) (S i)) as [b Hb].
  { cbn [length]. rewrite length_app. cbn [length]. lia. }
  unfold slice_to in Hb. cbn [firstn] in Hb. rewrite Hb. cbn [obind].
  unfold index_first.
  destruct (skipn j (c :: body) ++ [NL]) as [|a rest] eqn:Ea.
  { destruct (skipn j (c :: body)); discriminate. }
  cbn [obind]. eexists. split; [reflexivity|].
  exists c. eexists. split; [|exact Hc].
  rewrite <- Ea. cbn [app]. f_equal.
  match goal with
  | |- ?A ++ ?B ++ ?C ++ [NL] = _ =>
      transitivity ((A ++ B ++ C) ++ [NL]);
        [now rewrite <- !app_assoc | reflexivity]
  end.
Qed.

(** X13. On a line, that is a string that ends with a newline and does
    not begin with a dollar sign, [pretty_math] never fails, and what
    it returns is a line again. *)
Theorem pretty_math_line (s : str) :
  is_line s -> exists r, pretty_math s = Ret r /\ is_line r.
Proof.
  apply pretty_math_line_aux.
Qed.

Lemma pretty_math_line_witness :
  exists r,
    pretty_math (lit "|a $ x $b|" ++ [NL]) = Ret r
    /\ is_line r.
Proof.
  apply (pretty_math_line (lit "|a $ x $b|" ++ [NL])).
  exists "|"%char, (lit "a $ x $b|"). split; [reflexivity | discriminate].
Defined.

Section Appends.

Variable name : str.
Variable E : exn -> Prop.

Lemma ap_ret {A} (a : A) : appends_to name E (ret a).
Proof.
  intros st o st' t [= <- <-] Ht. repeat split; auto.
  exists []. now rewrite app_nil_r.
Qed.

Lemma ap_lift {A} (x : outcome A) :
  (forall e, x = Raise e -> E e) -> appends_to name E (lift x).
Proof.
  intros Hx st o st' t [= <- <-] Ht. repeat split; auto.
  - exists []. now rewrite app_nil_r.
  - destruct x; auto.
Qed.

Lemma ap_bind {A B} (m : M A) (k : A -> M B) :
  appends_to name E m -> (forall a, appends_to name E (k a)) ->
  appends_to name E (bind m k).
Proof.
  intros Hm Hk st o st' t H Ht. unfold bind in H.
  destruct (m st) as [[a|e] st1] eqn:E1.
  - destruct (Hm _ _ _ _ E1 Ht) as (Hh & Htr & Hf & (s1 & Hs1) & _).
    destruct (Hk a _ _ _ _ H Hs1) as (Hh2 & Htr2 & Hf2 & (s2 & Hs2) & Ho).
    split; [congruence|]. split; [congruence|]. split.
    + intros other Hne. now rewrite Hf2, Hf.
    + split; [|exact Ho]. exists (s1 ++ s2). now rewrite app_assoc.
  - injection H as <- <-. exact (Hm _ _ _ _ E1 Ht).
Qed.

Lemma ap_foldM {A B} (f : A -> B -> M A) (l : list B) (a : A) :
  (forall a x, In x l -> appends_to name E (f a x)) ->
  appends_to name E (foldM f l a).
Proof.
  revert a. induction l as [|x l IH]; intros a Hf; simpl.
  - apply ap_ret.
  - apply ap_bind; [apply Hf; now left|].
    intros a'. apply IH. intros a0 y Hy. apply Hf. now right.
Qed.

Lemma ap_append_file (text : str) : appends_to name E (append_file name text).
Proof.
  intros st o st' t [= <- <-] Ht. cbn [files heap trace].
  repeat split; auto.
  - intros other Hne. unfold set_file. apply eqb_neq in Hne. now rewrite Hne.
  - exists text. unfold set_file. now rewrite eqb_refl, Ht.
Qed.

Lemma ap_if {A} (b : bool) (m1 m2 : M A) :
  appends_to name E m1 -> appends_to name E m2 ->
  appends_to name E (if b then m1 else m2).
Proof.
  now destruct b.
Qed.

Lemma ap_table_of_contents_entry (data : Store) (keyword : str) :
  In keyword (Dict.keys data) ->
  appends_to name E (table_of_contents_entry name data keyword).
Proof.
  intros Hin. unfold table_of_contents_entry.
  destruct (UpdateFacts.get_present data keyword Hin) as [b ->].
  destruct b; [apply ap_ret | apply ap_append_file].
Qed.

End Appends.

Lemma sort_papers_in (papers : bucket) (k v : str) :
  In (k, v) (sort_papers papers) -> In (k, v) papers.
Proof.
  unfold sort_papers.
  assert (H : forall ks out,
             (forall k v, In (k, v) out -> In (k, v) papers) ->
             forall k v,
               In (k, v)
                 (fold_left
                    (fun output key =>
                       match Dict.get papers key with
                       | Some v => Dict.set output key v
                       | None => output
                       end) ks out) ->
               In (k, v) papers).
  { induction ks as [|key ks IH]; intros out Hout k0 v0; simpl; [apply Hout|].
    apply IH. intros k1 v1 Hin.
    destruct (Dict.get papers key) as [v2|] eqn:Eg; [|now apply Hout].
    apply in_set in Hin as [Hin|[= -> ->]]; [now apply Hout|].
    now apply get_in. }
  apply H. intros ? ? [].
Qed.

Section Render.

Variable w : World.
Variable md_filename : str.
Variable E : exn -> Prop.
Variable data : Store.

(** Every row of the store is one on which [pretty_math] can only fail
    with an exception of [E]. *)
Hypothesis rows :
  forall topic b id r e,
    In (topic, b) data -> In (id, r) b -> pretty_math r = Raise e -> E e.

Lemma ap_write_section (DateNow : str) (to_web use_title use_b2t : bool)
    (keyword : str) :
  In keyword (Dict.keys data) ->
  appends_to md_filename E
    (write_section md_filename DateNow to_web use_title use_b2t data keyword).
Proof.
  intros Hin. unfold write_section.
  destruct (UpdateFacts.get_present data keyword Hin) as [b Hb]. rewrite Hb.
  destruct b as [|kv b]; [apply ap_ret|].
  apply get_in in Hb.
  apply ap_bind; [apply ap_append_file | intros _].
  apply ap_bind; [|intros _].
  { destruct use_title; [|apply ap_ret].
    destruct (negb to_web); [apply ap_append_file|].
    apply ap_bind; [apply ap_append_file | intros _; apply ap_append_file]. }
  apply ap_bind; [|intros _].
  { apply ap_foldM. intros [] v Hv. unfold write_row.
    apply ap_bind; [|intros row; apply ap_append_file].
    apply ap_lift. intros e He.
    unfold Dict.values in Hv. apply in_map_iff in Hv as [[k v'] [Hv' Hkv]].
    cbn [snd] in Hv'. subst v'. apply sort_papers_in in Hkv.
    exact (rows _ _ _ _ _ Hb Hkv He). }
  apply ap_bind; [apply ap_append_file | intros _].
  destruct use_b2t; [apply ap_append_file | apply ap_ret].
Qed.

Lemma ap_report (DateNow : str) (to_web use_title use_tc use_b2t : bool) :
  appends_to md_filename E
    ((if use_title && to_web then
        append_file md_filename
          (lit "---" ++ [NL] ++ lit "layout: default" ++ [NL] ++ lit "---"
           ++ [NL; NL])
      else ret tt) ;;
     (if use_title then
        append_file md_filename (lit "## Updated on " ++ DateNow ++ [NL])
      else
        append_file md_filename (lit "> Updated on " ++ DateNow ++ [NL])) ;;
     append_file md_filename
       (lit "> Usage instructions: [here](./docs/README.md#usage)" ++ [NL; NL]) ;;
     (if use_tc then
        append_file md_filename (lit "<details>" ++ [NL]) ;;
        append_file md_filename
          (lit "  <summary>Table of Contents</summary>" ++ [NL]) ;;
        append_file md_filename (lit "  <ol>" ++ [NL]) ;;
        foldM (fun _ keyword =>
                 table_of_contents_entry md_filename data keyword)
          (Dict.keys data) tt ;;
        append_file md_filename (lit "  </ol>" ++ [NL]) ;;
        append_file md_filename (lit "</details>" ++ [NL; NL])
      else ret tt) ;;
     foldM (fun _ keyword =>
              write_section md_filename DateNow to_web use_title use_b2t data
                keyword)
       (Dict.keys data) tt)%py.
Proof.
  apply ap_bind; [apply ap_if; [apply ap_append_file | apply ap_ret] | intros _].
  apply ap_bind; [apply ap_if; apply ap_append_file | intros _].
  apply ap_bind; [apply ap_append_file | intros _].
  apply ap_bind; [|intros _].
  { apply ap_if; [|apply ap_ret].
    do 3 (apply ap_bind; [apply ap_append_file | intros _]).
    apply ap_bind; [|intros _].
    - apply ap_foldM. intros [] k Hk. now apply ap_table_of_contents_entry.
    - apply ap_bind; [apply ap_append_file | intros _; apply ap_append_file]. }
  apply ap_foldM. intros [] k Hk. now apply ap_write_section.
Qed.

End Render.

Lemma json_to_md_effects (w : World) (E : exn -> Prop)
    (filename md_filename : str) (to_web use_title use_tc use_b2t : bool)
    (st : state) :
  (forall data topic b id r e,
     read_store filename st = (Ret data, st) ->
     In (topic, b) data -> In (id, r) b -> pretty_math r = Raise e -> E e) ->
  let (o, st') :=
    json_to_md w filename md_filename to_web use_title use_tc use_b2t st in
  heap st' = heap st
  /\ trace st' = trace st
  /\ (forall other, other <> md_filename -> files st' other = files st other)
  /\ match o with
     | Ret _ => exists text, files st' md_filename = Text text
     | Raise e =>
         (read_store filename st = (Raise e, st) /\ st' = st)
         \/ (E e /\ exists text, files st' md_filename = Text text)
     end.
Proof.
  intros Hrows. unfold json_to_md, bind at 1.
  destruct (read_store filename st) as [[data|e] st0] eqn:Er;
    pose proof (read_store_state _ _ _ _ Er) as ->.
  2:{ repeat split; auto. }
  unfold bind at 1, write_file at 1.
  set (st1 := {| files := set_file (files st) md_filename (Text []);
                 heap := heap st; trace := trace st |}).
  assert (H1 : files st1 md_filename = Text []).
  { unfold st1, set_file. cbn [files]. now rewrite eqb_refl. }
  match goal with
  | |- context [let (_, _) := ?m st1 in _] =>
      pose proof (ap_report md_filename E data (fun t b id r e => Hrows data t b id r e eq_refl)
                    (replace_char "-" "." (today w))
                    to_web use_title use_tc use_b2t) as Hap;
      destruct (m st1) as [o st2] eqn:Em
  end.
  destruct (Hap _ _ _ _ Em H1) as (Hh & Ht & Hf & (suffix & Hs) & Ho).
  split; [exact Hh|]. split; [exact Ht|]. split.
  - intros other Hne. rewrite (Hf _ Hne). unfold st1, set_file. cbn [files].
    apply eqb_neq in Hne. now rewrite Hne.
  - destruct o as [[]|e]; [now exists ([] ++ suffix)|].
    right. split; [exact Ho | now exists ([] ++ suffix)].
Qed.

(** X14. [json_to_md] never touches the heap or the trace nor any file
    but the report.  When the store does not load, it raises the load
    error before the report is opened and leaves every file as it was.
    It does not raise [KeyError], and when it returns the report is a
    text file. *)
Theorem json_to_md_outcome (w : World) (filename md_filename : str)
    (to_web use_title use_tc use_b2t : bool) (st : state) :
  let (o, st') :=
    json_to_md w filename md_filename to_web use_title use_tc use_b2t st in
  heap st' = heap st
  /\ trace st' = trace st
  /\ (forall other, other <> md_filename -> files st' other = files st other)
  /\ (forall e, read_store filename st = (Raise e, st) ->
                o = Raise e /\ st' = st)
  /\ o <> Raise KeyError
  /\ (forall u, o = Ret u -> exists text, files st' md_filename = Text text).
Proof.
  pose proof (json_to_md_effects w is_index_error filename md_filename
                to_web use_title use_tc use_b2t st) as H.
  assert (Hload : forall e, read_store filename st = (Raise e, st) ->
            json_to_md w filename md_filename to_web use_title use_tc use_b2t st
            = (Raise e, st)).
  { intros e He. unfold json_to_md, bind at 1. now rewrite He. }
  destruct (json_to_md w filename md_filename to_web use_title use_tc use_b2t st)
    as [o st'].
  destruct H as (Hh & Ht & Hf & Ho).
  { intros data topic b id r e _ _ _ He. exact (pretty_math_raises _ _ He). }
  split; [exact Hh|]. split; [exact Ht|]. split; [exact Hf|]. split.
  { intros e He. specialize (Hload e He). now injection Hload as -> ->. }
  split.
  - intros ->. destruct Ho as [[Hr _]|[He _]]; [|discriminate He].
    revert Hr. unfold read_store.
    destruct (files st filename) as [|[|c s]|d]; discriminate.
  - intros u ->. exact Ho.
Qed.

(** X15. On a store that loads and whose rows are all lines (they end
    with a newline and do not begin with a dollar sign), no row makes
    the renderer fail: whatever the flags, [json_to_md] does not raise
    [IndexError]. *)
Theorem json_to_md_lines (w : World) (filename md_filename : str)
    (to_web use_title use_tc use_b2t : bool) (st : state) (m : Store) :
  read_store filename st = (Ret m, st) ->
  lines_only m ->
  fst (json_to_md w filename md_filename to_web use_title use_tc use_b2t st)
  <> Raise IndexError.
Proof.
  intros Hread Hlines.
  pose proof (json_to_md_effects w never filename md_filename
                to_web use_title use_tc use_b2t st) as H.
  destruct (json_to_md w filename md_filename to_web use_title use_tc use_b2t st)
    as [o st'].
  cbn [fst]. intros ->.
  destruct H as (_ & _ & _ & [[Hr _]|[[] _]]).
  - intros data topic b id r e Hr Hb Hin He.
    assert (data = m) as -> by congruence.
    destruct (pretty_math_line_aux r (Hlines _ _ _ _ Hb Hin)) as (r' & Hr' & _).
    congruence.
  - congruence.
Qed.

Lemma json_to_md_lines_witness :
  fst (json_to_md world_down (lit "docs/store.json") (lit "README.md")
         false true true true st_three_dates)
  <> Raise IndexError.
Proof.
  apply (json_to_md_lines world_down (lit "docs/store.json") (lit "README.md")
           false true true true st_three_dates
           [(lit "nerf", bucket_three_dates)] eq_refl).
  intros topic b id r [[= <- <-]|[]] Hin.
  exists (hd " "%char r), (removelast (tl r)).
  destruct Hin as [[= <- <-]|[[= <- <-]|[[= <- <-]|[]]]];
    (split; [vm_compute; reflexivity | vm_compute; discriminate]).
Defined.

(** ** The run as a whole: [demo] *)

Lemma ti_weaken {A} (P Q : event -> Prop) (m : M A) :
  (forall e, P e -> Q e) -> trace_inv P m -> trace_inv Q m.
Proof.
  intros HPQ Hm st o st' E. destruct (Hm _ _ _ E) as (evs & Ht & Hall).
  exists evs. split; [exact Ht|]. eapply Forall_impl; eauto.
Qed.

Lemma searches_none (evs : list event) :
  Forall (fun e => is_search e = false) evs -> searches evs = [].
Proof.
  induction 1 as [|e evs He _ IH]; [reflexivity|].
  destruct e; try discriminate; exact IH.
Qed.

Lemma update_json_file_effects (filename : str)
    (data_dict : list (dict addr)) (st : state) o st' :
  update_json_file filename data_dict st = (o, st') ->
  trace st' = trace st
  /\ (forall other, other <> filename -> files st' other = files st other).
Proof.
  unfold update_json_file, bind.
  destruct (read_store filename st) as [[m|e] st0] eqn:Er;
    pose proof (read_store_state _ _ _ _ Er) as ->.
  - destruct (alloc_store_spec m st) as (jd0 & -> & _ & _).
    destruct (merge_batch_returns data_dict jd0
                (with_heap st (heap st ++ map snd m))) as (jd' & h' & ->).
    unfold json_dump, write_file. intros [= <- <-].
    cbn [files heap trace with_heap].
    split; [reflexivity|].
    intros other Hne. unfold set_file.
    apply eqb_neq in Hne. now rewrite Hne.
  - intros [= <- <-]. auto.
Qed.

Lemma json_to_md_trace (w : World) (filename md_filename : str)
    (to_web use_title use_tc use_b2t : bool) (st : state) o st' :
  json_to_md w filename md_filename to_web use_title use_tc use_b2t st
  = (o, st') ->
  trace st' = trace st.
Proof.
  intros E.
  pose proof (json_to_md_effects w is_index_error filename md_filename
                to_web use_title use_tc use_b2t st) as H.
  rewrite E in H. apply H.
  intros data topic b id r e _ _ _ He. exact (pretty_math_raises _ _ He).
Qed.

Section DemoTrace.

Variable w : World.
Variable P : event -> Prop.

Hypothesis P_generate : forall p, P (EvGenerate p).
Hypothesis P_sleep : forall z, P (EvSleep z).
Hypothesis P_registry : forall id, P (EvGet (base_url ++ id)).
Hypothesis P_log : forall e id, P (EvLogError e id).
Hypothesis P_search : forall q n, P (EvSearch q n).

Lemma repair_event_weaken (e : event) : repair_event e -> P e.
Proof.
  destruct e; cbn; try contradiction.
  - intros [id ->]. apply P_registry.
  - intros _. apply P_log.
Qed.

Lemma ti_publish (update : bool) (json_file md_file : str)
    (data_collector : list (dict addr)) (to_web use_title use_tc use_b2t : bool) :
  trace_inv P
    ((if update then update_paper_links w json_file
      else update_json_file json_file data_collector) ;;
     json_to_md w json_file md_file to_web use_title use_tc use_b2t)%py.
Proof.
  apply ti_bind.
  - destruct update.
    + apply (ti_weaken repair_event); [apply repair_event_weaken|].
      apply update_paper_links_trace_inv.
    + apply ti_none. intros st o st' E.
      exact (proj1 (update_json_file_effects _ _ _ _ _ E)).
  - intros _. apply ti_none. intros st o st' E.
    exact (json_to_md_trace _ _ _ _ _ _ _ _ _ _ E).
Qed.

(** What follows the harvest in [demo]. *)
Lemma ti_demo_tail (config : Config) (data_collector : list (dict addr)) :
  trace_inv P
    ((if publish_readme config then
        (if cfg_update_paper_links config
         then update_paper_links w (json_readme_path config)
         else update_json_file (json_readme_path config) data_collector) ;;
        json_to_md w (json_readme_path config) (md_readme_path config)
          false true true true
      else ret tt) ;;
     (if publish_gitpage config then
        (if cfg_update_paper_links config
         then update_paper_links w (json_gitpage_path config)
         else update_json_file (json_gitpage_path config) data_collector) ;;
        json_to_md w (json_gitpage_path config) (md_gitpage_path config)
          true true false false
      else ret tt))%py.
Proof.
  apply ti_bind.
  - destruct (publish_readme config); [apply ti_publish | apply ti_ret].
  - intros _.
    destruct (publish_gitpage config); [apply ti_publish | apply ti_ret].
Qed.

Lemma ti_demo (translater : option Translater) (config : Config) :
  trace_inv P (demo w translater config).
Proof.
  unfold demo. apply ti_bind.
  - destruct (negb (cfg_update_paper_links config)); [|apply ti_ret].
    apply ti_foldM. intros col item _. now apply ti_harvest_topic.
  - intros [dc dcw]. apply ti_demo_tail.
Qed.

End DemoTrace.

(** X16. Every request that a run of [demo] sends, in either mode and
    whether it returns or raises, goes to the code-link registry, at
    [base_url] followed by an id; the GitHub search url is never
    contacted. *)
Theorem demo_requests_registry_only (w : World)
    (translater : option Translater) (config : Config) (st : state) :
  let (o, st') := demo w translater config st in
  exists evs, trace st' = trace st ++ evs /\ Forall registry_request evs.
Proof.
  destruct (demo w translater config st) as [o st'] eqn:E.
  refine (ti_demo w registry_request _ _ _ _ _ translater config _ _ _ E);
    cbn; auto.
  intros id. now exists id.
Qed.

Section DemoSearches.

Variable w : World.

Let quiet (e : event) : Prop := is_search e = false.

Lemma get_daily_papers_searches (topic query : str) (n : nat)
    (translater : option Translater) (st : state) o st' :
  get_daily_papers w topic query n translater st = (o, st') ->
  searches (trace st') = searches (trace st) ++ [(query, n)].
Proof.
  unfold get_daily_papers, bind at 1, search_results.
  destruct (arxiv_results w (count is_search (trace st)) query n)
    as [results failure].
  intros H.
  match type of H with
  | ?m ?s = _ => assert (T : trace_inv quiet m)
  end.
  { apply ti_bind.
    - apply ti_foldM. intros acc r _.
      apply ti_process_result; intros; reflexivity.
    - intros [content web]. destruct failure; [apply ti_raise|].
      apply ti_bind; [apply ti_alloc|]. intros a.
      apply ti_bind; [apply ti_alloc|]. intros a'. apply ti_ret. }
  destruct (T _ _ _ H) as (evs & -> & Hall). cbn [trace].
  rewrite !searches_app, (searches_none evs Hall). cbn [searches].
  now rewrite app_nil_r.
Qed.

Lemma harvest_loop_prefix (n : nat) (translater : option Translater)
    (l : dict str) :
  forall col (st : state) o st',
  foldM (harvest_topic w n translater) l col st = (o, st') ->
  files st' = files st
  /\ exists k,
       k <= length l
       /\ searches (trace st')
          = searches (trace st) ++ map (fun tq => (snd tq, n)) (firstn k l)
       /\ match o with
          | Ret _ => k = length l
          | Raise _ => 0 < k
          end.
Proof.
  induction l as [|[topic query] l IH]; intros col st o st'; cbn [foldM].
  - intros [= <- <-]. split; [reflexivity|]. exists 0.
    cbn. rewrite app_nil_r. auto.
  - unfold bind at 1. destruct col as [dc dcw]. unfold harvest_topic at 1.
    unfold bind at 1.
    destruct (get_daily_papers w topic query n translater st)
      as [[[data data_web]|e] st1] eqn:E;
      pose proof (get_daily_papers_searches _ _ _ _ _ _ _ E) as Hs;
      destruct (get_daily_papers_one_search w _ _ _ _ _ _ _ E) as (Hf & _).
    + unfold ret at 1. intros H. destruct (IH _ _ _ _ H) as (Hf' & k & Hk & Hs' & Ho).
      split; [congruence|]. exists (S k). split; [cbn [length]; lia|].
      split.
      * rewrite Hs', Hs. cbn [firstn map snd]. now rewrite <- app_assoc.
      * destruct o; cbn [length]; lia.
    + intros [= <- <-]. split; [exact Hf|]. exists 1.
      split; [cbn [length]; lia|]. split; [|lia].
      rewrite Hs. reflexivity.
Qed.

Lemma demo_tail_quiet (config : Config) (data_collector : list (dict addr))
    (st : state) o st' :
  ((if publish_readme config then
      (if cfg_update_paper_links config
       then update_paper_links w (json_readme_path config)
       else update_json_file (json_readme_path config) data_collector) ;;
      json_to_md w (json_readme_path config) (md_readme_path config)
        false true true true
    else ret tt) ;;
   (if publish_gitpage config then
      (if cfg_update_paper_links config
       then update_paper_links w (json_gitpage_path config)
       else update_json_file (json_gitpage_path config) data_collector) ;;
      json_to_md w (json_gitpage_path config) (md_gitpage_path config)
        true true false false
    else ret tt))%py st = (o, st') ->
  searches (trace st') = searches (trace st).
Proof.
  intros H.
  destruct (ti_demo_tail w quiet (fun _ => eq_refl) (fun _ _ => eq_refl)
              config data_collector _ _ _ H) as (evs & -> & Hall).
  now rewrite searches_app, (searches_none evs Hall), app_nil_r.
Qed.

End DemoSearches.

(** X17. In harvest mode [demo] searches once per topic, in the order of
    the configuration and with the configured result limit, and in
    repair mode it does not search at all.  A run that returns has
    searched every topic; a run that raises has searched a prefix of
    them, and nothing after the topic at which it failed. *)
Theorem demo_searches_topics_in_order (w : World)
    (translater : option Translater) (config : Config) (st : state) :
  let topics := if cfg_update_paper_links config then [] else kv config in
  let (o, st') := demo w translater config st in
  exists k,
    k <= length topics
    /\ searches (trace st')
       = searches (trace st)
         ++ map (fun tq => (snd tq, max_results config)) (firstn k topics)
    /\ (o = Ret tt -> k = length topics).
Proof.
  cbv zeta. destruct (demo w translater config st) as [o st'] eqn:E.
  unfold demo, bind at 1 in E.
  destruct (cfg_update_paper_links config) eqn:Eu; cbn [negb] in E.
  - unfold ret at 1 in E. exists 0. split; [reflexivity|].
    cbn [firstn map]. rewrite app_nil_r. split; [|reflexivity].
    pose proof (demo_tail_quiet w config [] st o st') as H.
    rewrite Eu in H. exact (H E).
  - destruct (foldM (harvest_topic w (max_results config) translater)
                (kv config) ([], []) st) as [[[dc dcw]|e] st0] eqn:E0;
      destruct (harvest_loop_prefix w _ _ _ _ _ _ _ E0)
        as (_ & k & Hk & Hs & Ho).
    + exists k. split; [exact Hk|]. split; [|intros _; exact Ho].
      rewrite <- Hs.
      pose proof (demo_tail_quiet w config dc st0 o st') as H.
      rewrite Eu in H. exact (H E).
    + injection E as <- <-. exists k. split; [exact Hk|].
      split; [exact Hs | discriminate].
Qed.

(** X18. In repair mode [demo] adds to the trace only registry requests
    and error logs, even when a translater is configured: no search is
    started, no model is called, nothing sleeps. *)
Theorem demo_repair_mode_events (w : World)
    (translater : option Translater) (config : Config) (st : state) :
  cfg_update_paper_links config = true ->
  let (o, st') := demo w translater config st in
  exists evs, trace st' = trace st ++ evs /\ Forall repair_event evs.
Proof.
  intros Hu. destruct (demo w translater config st) as [o st'] eqn:E.
  unfold demo, bind at 1 in E. rewrite Hu in E. cbn [negb] in E.
  unfold ret at 1 in E.
  assert (T := ti_demo_tail w repair_event
                 (fun id => ex_intro _ id eq_refl) (fun _ _ => I) config []).
  rewrite Hu in T. exact (T _ _ _ E).
Qed.

Lemma demo_repair_mode_events_witness :
  let (o, st') :=
    demo world_official (Some {| api_key := lit "key" |})
      {| kv := [(lit "nerf", lit "abs:nerf")];
         max_results := 2;
         publish_readme := true;
         publish_gitpage := false;
         cfg_update_paper_links := true;
         json_readme_path := lit "docs/store.json";
         md_readme_path := lit "README.md";
         json_gitpage_path := lit "docs/web.json";
         md_gitpage_path := lit "docs/index.md" |}
      st_three_dates in
  exists evs, trace st' = trace st_three_dates ++ evs
              /\ Forall repair_event evs.
Proof.
  apply (demo_repair_mode_events world_official
           (Some {| api_key := lit "key" |})
           {| kv := [(lit "nerf", lit "abs:nerf")];
              max_results := 2;
              publish_readme := true;
              publish_gitpage := false;
              cfg_update_paper_links := true;
              json_readme_path := lit "docs/store.json";
              md_readme_path := lit "README.md";
              json_gitpage_path := lit "docs/web.json";
              md_gitpage_path := lit "docs/index.md" |}
           st_three_dates).
  reflexivity.
Defined.

Section DemoFiles.

Variable w : World.

Lemma update_paper_links_files (filename : str) (st : state) o st' :
  update_paper_links w filename st = (o, st') ->
  forall other, other <> filename -> files st' other = files st other.
Proof.
  unfold update_paper_links, bind.
  destruct (read_store filename st) as [[m|e] st0] eqn:Er;
    pose proof (read_store_state _ _ _ _ Er) as ->.
  2:{ now intros [= <- <-]. }
  pose proof (repair_store_requests w m m st) as H.
  destruct (foldM (repair_bucket w) m m st) as [[jd|e] st1].
  - destruct H as (F & _). unfold write_file. intros [= <- <-] other Hne.
    cbn [files]. unfold set_file. apply eqb_neq in Hne. now rewrite Hne, F.
  - destruct H as (F & _). intros [= <- <-] other _. now rewrite F.
Qed.

Lemma publish_files (update : bool) (json_file md_file : str)
    (data_collector : list (dict addr)) (to_web use_title use_tc use_b2t : bool)
    (st : state) o st' :
  ((if update then update_paper_links w json_file
    else update_json_file json_file data_collector) ;;
   json_to_md w json_file md_file to_web use_title use_tc use_b2t)%py st
  = (o, st') ->
  forall other, other <> json_file -> other <> md_file ->
                files st' other = files st other.
Proof.
  unfold bind at 1. intros H other Hj Hm.
  match type of H with
  | match ?m st with _ => _ end = _ =>
      destruct (m st) as [[[]|e] st1] eqn:E1
  end.
  - assert (F1 : files st1 other = files st other).
    { destruct update.
      - exact (update_paper_links_files _ _ _ _ E1 other Hj).
      - exact (proj2 (update_json_file_effects _ _ _ _ _ E1) other Hj). }
    pose proof (json_to_md_effects w is_index_error json_file md_file
                  to_web use_title use_tc use_b2t st1) as H2.
    rewrite H in H2. rewrite <- F1. apply H2; [|exact Hm].
    intros data topic b id r e _ _ _ He. exact (pretty_math_raises _ _ He).
  - injection H as <- <-. destruct update.
    + exact (update_paper_links_files _ _ _ _ E1 other Hj).
    + exact (proj2 (update_json_file_effects _ _ _ _ _ E1) other Hj).
Qed.

End DemoFiles.

(** X19. [demo] writes only the files it is configured to publish: a
    file that is neither the store nor the report of an enabled target
    is left as it was, whether the run returns or raises.  With both
    targets disabled no file changes at all. *)
Theorem demo_writes_published_files_only (w : World)
    (translater : option Translater) (config : Config) (st : state)
    (other : str) :
  (publish_readme config = false
   \/ (other <> json_readme_path config /\ other <> md_readme_path config)) ->
  (publish_gitpage config = false
   \/ (other <> json_gitpage_path config /\ other <> md_gitpage_path config)) ->
  let (o, st') := demo w translater config st in
  files st' other = files st other.
Proof.
  intros Hr Hg. destruct (demo w translater config st) as [o st'] eqn:E.
  unfold demo, bind at 1 in E.
  assert (Hh : exists col st0,
             (if negb (cfg_update_paper_links config)
              then foldM (harvest_topic w (max_results config) translater)
                     (kv config) ([], [])
              else ret ([], [])) st = (col, st0)
             /\ files st0 = files st).
  { destruct (negb (cfg_update_paper_links config)).
    - destruct (foldM (harvest_topic w (max_results config) translater)
                  (kv config) ([], []) st) as [col st0] eqn:E0.
      exists col, st0. split; [reflexivity|].
      exact (proj1 (harvest_loop_prefix w _ _ _ _ _ _ _ E0)).
    - now exists (Ret ([], [])), st. }
  destruct Hh as (col & st0 & Eh & F0). rewrite Eh in E.
  destruct col as [[dc dcw]|e]; [|injection E as <- <-; now rewrite F0].
  rewrite <- F0. unfold bind at 1 in E.
  assert (Hreadme : forall s o1 st1,
             (if publish_readme config then
                ((if cfg_update_paper_links config
                  then update_paper_links w (json_readme_path config)
                  else update_json_file (json_readme_path config) dc) ;;
                 json_to_md w (json_readme_path config) (md_readme_path config)
                   false true true true)%py
              else ret tt) s = (o1, st1) ->
             files st1 other = files s other).
  { intros s o1 st1 E1. destruct (publish_readme config).
    - destruct Hr as [Hr|[Hj Hm]]; [discriminate|].
      exact (publish_files w _ _ _ _ _ _ _ _ _ _ _ E1 other Hj Hm).
    - now injection E1 as <- <-. }
  match type of E with
  | match ?m st0 with _ => _ end = _ =>
      destruct (m st0) as [[[]|e] st1] eqn:E1;
        pose proof (Hreadme _ _ _ E1) as F1
  end; [|injection E as <- <-; exact F1].
  rewrite <- F1. destruct (publish_gitpage config).
  - destruct Hg as [Hg|[Hj Hm]]; [discriminate|].
    exact (publish_files w _ _ _ _ _ _ _ _ _ _ _ E other Hj Hm).
  - now injection E as <- <-.
Qed.

Lemma demo_writes_published_files_only_witness :
  let (o, st') := demo world_official None config_two_topics st_fresh in
  files st' (lit "docs/web.json") = files st_fresh (lit "docs/web.json").
Proof.
  apply (demo_writes_published_files_only world_official None
           config_two_topics st_fresh (lit "docs/web.json")).
  - right. split; discriminate.
  - left. reflexivity.
Defined.

(** ** The query filters of [load_config] *)

Lemma parse_filters_loop_join (n : nat) (rest : list str) :
  forall (idx : nat) (ret : str),
  idx + length rest = n ->
  parse_filters_loop n idx rest ret = ret ++ join OR (map quote_filter rest).
Proof.
  induction rest as [|filter rest IH]; intros idx ret Hn.
  - cbn. now rewrite app_nil_r.
  - cbn [parse_filters_loop map]. cbn [length] in Hn.
    rewrite IH by lia.
    assert (Hq : (if 1 <? length (words filter)
                  then ret ++ (EXCAPE ++ filter ++ EXCAPE)
                  else ret ++ (QUOTA ++ filter ++ QUOTA))
                 = ret ++ quote_filter filter).
    { unfold quote_filter, QUOTA. destruct (1 <? length (words filter));
        [reflexivity|]. cbn [app]. now rewrite app_nil_r. }
    rewrite Hq. destruct rest as [|g rest].
    + replace (idx =? n - 1) with true
        by (symmetry; apply Nat.eqb_eq; cbn [length] in Hn; lia).
      cbn. now rewrite app_nil_r.
    + replace (idx =? n - 1) with false
        by (symmetry; apply Nat.eqb_neq; cbn [length] in Hn; lia).
      cbn [negb map join]. now rewrite <- !app_assoc.
Qed.

(** X20. [parse_filters] joins the filters with [" OR "], each filter of
    more than one word wrapped in double quotes and any other filter
    left as it is; there is no separator before the first filter or
    after the last. *)
Theorem parse_filters_join (filters : list str) :
  parse_filters filters = join OR (map quote_filter filters).
Proof.
  unfold parse_filters.
  now rewrite (parse_filters_loop_join (length filters) filters 0 []).
Qed.

Lemma pretty_filters_loop_outcome (items : list (str * option (list str))) :
  forall keywords : dict str,
  match pretty_filters_loop items keywords with
  | Raise e => e = KeyError /\ exists k, In (k, None) items
  | Ret kv =>
      (forall k, ~ In (k, None) items)
      /\ (forall k, In k (Dict.keys kv)
                    <-> In k (Dict.keys keywords) \/ In k (Dict.keys items))
      /\ (forall k,
            (exists filters,
               In (k, Some filters) items
               /\ Dict.get kv k = Some (parse_filters filters))
            \/ (~ In k (Dict.keys items)
                /\ Dict.get kv k = Dict.get keywords k))
  end.
Proof.
  induction items as [|[k0 [f0|]] items IH]; intros keywords;
    cbn [pretty_filters_loop].
  - split; [intros k []|]. split.
    + intros k. cbn. tauto.
    + intros k. right. split; [intros [] | reflexivity].
  - specialize (IH (Dict.set keywords k0 (parse_filters f0))).
    destruct (pretty_filters_loop items _) as [kv|e].
    + destruct IH as (Hnone & Hkeys & Hval). split; [|split].
      * intros k [H|H]; [discriminate | exact (Hnone k H)].
      * intros k. rewrite Hkeys, UpdateFacts.in_keys_set.
        unfold Dict.keys. cbn [map fst In]. intuition (subst; auto).
      * intros k. destruct (Hval k) as [(f & Hin & Hg)|[Hnin Hg]].
        -- left. exists f. split; [now right | exact Hg].
        -- destruct (eqb k k0) eqn:E.
           ++ apply eqb_eq in E. subst k0. left. exists f0.
              split; [now left|]. now rewrite Hg, DictFacts.get_set_same.
           ++ apply eqb_neq in E. right. split.
              ** cbn [Dict.keys map fst]. intros [H|H]; [congruence|].
                 exact (Hnin H).
              ** now rewrite Hg, DictFacts.get_set_other.
    + destruct IH as (-> & k & H). split; [reflexivity|].
      exists k. now right.
  - split; [reflexivity|]. exists k0. now left.
Qed.

(** X21. [pretty_filters] raises [KeyError] exactly when the
    configuration has no ["keywords"] entry or some topic under it has
    no ["filters"] entry.  Otherwise it returns a dict whose keys are
    exactly the topics of the configuration, each with the query that
    [parse_filters] makes of filters configured for the topic. *)
Theorem pretty_filters_key_error
    (config : option (dict (option (list str)))) :
  match pretty_filters config with
  | Raise e =>
      e = KeyError
      /\ (config = None
          \/ exists config_keywords k,
               config = Some config_keywords /\ In (k, None) config_keywords)
  | Ret kv =>
      exists config_keywords,
        config = Some config_keywords
        /\ (forall k, ~ In (k, None) config_keywords)
        /\ (forall k, In k (Dict.keys kv) <-> In k (Dict.keys config_keywords))
        /\ forall k, In k (Dict.keys config_keywords) ->
             exists filters,
               In (k, Some filters) config_keywords
               /\ Dict.get kv k = Some (parse_filters filters)
  end.
Proof.
  destruct config as [items|]; cbn [pretty_filters]; [|now split; [|left]].
  pose proof (pretty_filters_loop_outcome items []) as H.
  destruct (pretty_filters_loop items []) as [kv|e].
  - destruct H as (Hnone & Hkeys & Hval). exists items.
    split; [reflexivity|]. split; [exact Hnone|]. split.
    + intros k. rewrite Hkeys. cbn. tauto.
    + intros k Hk. destruct (Hval k) as [H|[Hn _]]; [exact H | contradiction].
  - destruct H as (-> & k & Hk). split; [reflexivity|]. right.
    now exists items, k.
Qed.

Lemma pretty_filters_loop_maps (cfg : dict (list str)) :
  forall keywords : dict str,
  NoDup (Dict.keys keywords ++ Dict.keys cfg) ->
  pretty_filters_loop (map (fun kf => (fst kf, Some (snd kf))) cfg) keywords
  = Ret (keywords ++ map (fun kf => (fst kf, parse_filters (snd kf))) cfg).
Proof.
  induction cfg as [|[k filters] cfg IH]; intros keywords Hnd.
  - cbn. now rewrite app_nil_r.
  - cbn [map pretty_filters_loop fst snd].
    assert (Hk : Dict.mem keywords k = false).
    { apply DictFacts.mem_false_spec. intros Hin.
      cbn [Dict.keys map fst] in Hnd. apply NoDup_remove_2 in Hnd.
      apply Hnd. apply in_or_app. now left. }
    rewrite (DictFacts.set_absent keywords k _ Hk).
    rewrite IH.
    + now rewrite <- app_assoc.
    + unfold Dict.keys in *. rewrite map_app, <- app_assoc. exact Hnd.
Qed.

(** X22. On a configuration in which every topic has filters,
    [pretty_filters] returns the topics in their order, each with the
    query that [parse_filters] makes of its filters. *)
Theorem pretty_filters_maps (cfg : dict (list str)) :
  Dict.wf cfg = true ->
  pretty_filters (Some (map (fun kf => (fst kf, Some (snd kf))) cfg))
  = Ret (map (fun kf => (fst kf, parse_filters (snd kf))) cfg).
Proof.
  intros Hwf. apply DictFacts.nodup_keys_spec in Hwf.
  cbn [pretty_filters]. now rewrite pretty_filters_loop_maps.
Qed.

Lemma pretty_filters_maps_witness :
  pretty_filters
    (Some [(lit "SLAM", Some [lit "SLAM"; lit "visual odometry"]);
           (lit "NeRF", Some [lit "NeRF"])])
  = Ret [(lit "SLAM",
          lit "SLAM OR " ++ EXCAPE ++ lit "visual odometry" ++ EXCAPE);
         (lit "NeRF", lit "NeRF")].
Proof.
  exact (pretty_filters_maps
           [(lit "SLAM", [lit "SLAM"; lit "visual odometry"]);
            (lit "NeRF", [lit "NeRF"])] eq_refl).
Defined.

(** ** [sort_papers] *)

Lemma insert_desc_head (k : str) (l : list str) :
  HdRel (fun a b => leb b a = true) k l -> insert_desc k l = k :: l.
Proof.
  destruct l as [|x l]; [reflexivity|].
  intros H. inversion H as [|? ? Hx]; subst. cbn. now rewrite Hx.
Qed.

Lemma sort_reverse_sorted_id (l : list str) :
  Sorted (fun a b => leb b a = true) l -> sort_reverse l = l.
Proof.
  induction 1 as [|k l Hs IH Hh]; [reflexivity|].
  cbn [sort_reverse fold_right]. fold (sort_reverse l). rewrite IH.
  now apply insert_desc_head.
Qed.

(** X23. [sort_papers] keeps every record with its row and orders the
    records by id, largest id first in the order of strings. *)
Theorem sort_papers_descending (papers : bucket) :
  Dict.wf papers = true ->
  Sorted (fun a b => leb b a = true) (Dict.keys (sort_papers papers))
  /\ Permutation (Dict.keys (sort_papers papers)) (Dict.keys papers)
  /\ forall k, Dict.get (sort_papers papers) k = Dict.get papers k.
Proof.
  intros Hwf. destruct (sort_papers_by_key papers Hwf) as (Hk & Hs & Hg).
  split; [exact Hs|]. split; [|exact Hg].
  rewrite Hk. apply sort_reverse_perm.
Qed.

Lemma sort_papers_descending_witness :
  Dict.keys (sort_papers bucket_three_dates)
  = [lit "2401.00003"; lit "2401.00002"; lit "2401.00001"]
  /\ Sorted (fun a b => leb b a = true)
       (Dict.keys (sort_papers bucket_three_dates)).
Proof.
  split; [reflexivity|].
  exact (proj1 (sort_papers_descending bucket_three_dates eq_refl)).
Defined.

(** X24. Sorting a sorted bucket changes nothing: [sort_papers] is
    idempotent. *)
Theorem sort_papers_idempotent (papers : bucket) :
  Dict.wf papers = true ->
  sort_papers (sort_papers papers) = sort_papers papers.
Proof.
  intros Hwf. destruct (sort_papers_by_key papers Hwf) as (Hk & Hs & Hg).
  assert (Hnd : NoDup (Dict.keys (sort_papers papers))).
  { rewrite Hk.
    apply (Permutation_NoDup
             (Permutation_sym (sort_reverse_perm (Dict.keys papers)))).
    now apply DictFacts.nodup_keys_spec. }
  assert (Hwf' : Dict.wf (sort_papers papers) = true).
  { now apply DictFacts.nodup_keys_spec. }
  destruct (sort_papers_by_key _ Hwf') as (Hk' & Hs' & Hg').
  apply UpdateFacts.dict_ext.
  - rewrite Hk'. rewrite (sort_reverse_sorted_id _ Hs). exact Hnd.
  - rewrite Hk'. now apply sort_reverse_sorted_id.
  - exact Hg'.
Qed.

Lemma sort_papers_idempotent_witness :
  sort_papers (sort_papers bucket_three_dates)
  = sort_papers bucket_three_dates.
Proof.
  exact (sort_papers_idempotent bucket_three_dates eq_refl).
Defined.
